(** * Photobooth gesture engine and compositor

    A shallow embedding of [src/js/gesture-handler.js] (class
    [GestureHandler]), of the prop and compositing methods of
    [src/js/photobooth.js] (class [PhotoboothController]) and of the
    constants of [src/js/config.js] they read.

    Modelling conventions.
    - A JavaScript number is idealised as a real number: rounding, NaN,
      infinities and signed zeros are left out.  [Math.max], [Math.min],
      [Math.sqrt] and [Math.atan2] are the real functions of the same name,
      and a quotient by [offsetWidth] or [offsetHeight] is the real quotient
      (the canvas is taken to be laid out with a size that is not zero: what
      is proved of the value of such a quotient assumes [laid_out]).
    - The prop objects live in a store ([heap]); [controller.props] and
      [controller.selectedProp] hold references into it, so that a pose
      written through [selectedProp] is the pose the compositor reads
      through [props].
    - [this.pointers] is a JavaScript [Map]: an association list that keeps
      insertion order, [set] replacing in place the value of a key it has.
    - What the code takes from its environment is an argument: the fields of
      the DOM event and the value of [Date.now()], the outcome of
      [Utils.loadImage], the identifier [Utils.generateUUID] returns.
    - [Utils.logError] is recorded in [errorLog]; toasts, pointer capture,
      [preventDefault] and the debounced (and empty) redraw are effects on the
      page only and are left out.
    - The 2D context of the canvas is its current transformation matrix, its
      stack of saved matrices and the list of the [drawImage] calls that went
      through; [drawImage] throws on an image in the broken state.  An
      [async] method is run from start to end without interleaving, the
      outcome of each [await] being read from the environment. *)

From Stdlib Require Import Reals Lra Psatz Lia List ZArith NArith Bool Ascii String.
Import ListNotations.
Local Open Scope R_scope.

(** ** Numbers *)

Definition Rleb (a b : R) : bool := if Rle_dec a b then true else false.
Definition Rgeb (a b : R) : bool := Rleb b a.
Definition Rltb (a b : R) : bool := if Rlt_dec a b then true else false.

Definition Math_max : R -> R -> R := Rmax.
Definition Math_min : R -> R -> R := Rmin.
Definition Math_sqrt : R -> R := sqrt.

(** [Math.atan2(y, x)]: the angle of the point [(x, y)], in (-PI, PI]. *)
Definition Math_atan2 (y x : R) : R :=
  if Rltb 0 x then atan (y / x)
  else if Rltb x 0 then (if Rleb 0 y then atan (y / x) + PI else atan (y / x) - PI)
  else if Rltb 0 y then PI / 2
  else if Rltb y 0 then - (PI / 2)
  else 0.

(** ** Configuration ([CONFIG] of config.js) *)

Module CONFIG.
Module SECURITY.
Definition DEFAULT_PIN : string := "1234".
Definition SESSION_TIMEOUT : Z := (30 * 60 * 1000)%Z.
Definition MAX_LOGIN_ATTEMPTS : Z := 3%Z.
Definition PIN_LENGTH : nat := 4%nat.
End SECURITY.
Module UI.
Definition STICKER_BASE_SIZE : R := 220.
Definition MIN_SCALE : R := 2 / 10.
Definition MAX_SCALE : R := 4.
End UI.
Module STORAGE.
Module KEYS.
Definition PHOTOS : string := "photos".
Definition SETTINGS_PIN : string := "settings_pin".
Definition PAYMENT_ENABLED : string := "payment_enabled".
Definition APPROVED_CODES : string := "approved_codes".
Definition SESSION : string := "session".
Definition PENDING_SESSION : string := "pendingSession".
End KEYS.
Definition MAX_PHOTOS : nat := 100%nat.
Definition CLEANUP_THRESHOLD : nat := 50%nat.
End STORAGE.
Module QR.
Definition DEFAULT_APPROVED_CODES : list string := ["GG-TEST-2025"; "VIP-1234"]%string.
End QR.
End CONFIG.

(** ** Data *)

(** An [HTMLImageElement].  [img_broken] says that the element is in the
    broken state, in which [drawImage] throws. *)
Record Image := mkImage {
  img_src : string;
  img_width : R;
  img_height : R;
  img_broken : bool
}.

(** The object [addProp] builds: a placed prop and its pose. *)
Record PropObj := mkProp {
  prop_id : string;
  prop_name : string;
  prop_src : string;
  prop_img : Image;
  prop_x : R;
  prop_y : R;
  prop_scale : R;
  prop_rotation : R;
  prop_width : R;
  prop_height : R
}.

(** An entry of the prop or overlay grid: [{ name, src }]. *)
Record Asset := mkAsset {
  asset_name : string;
  asset_src : string
}.

(** What [getPointerFromEvent] returns. *)
Record Pointer := mkPointer {
  ptr_id : Z;
  ptr_x : R;
  ptr_y : R;
  ptr_timestamp : Z
}.

(** [this.lastGesture], when not [null]: tagged by its [type] field. *)
Inductive Gesture :=
| Translate (gx gy : R)
| Transform (centerX centerY distance angle gscale grotation : R).

(** The fields of a pointer event the handlers read, and [Date.now()]. *)
Record PointerEvent := mkEvent {
  pointerId : Z;
  clientX : R;
  clientY : R;
  now : Z
}.

(** The current transformation matrix of a 2D context:
    [[a c e] [b d f] [0 0 1]]. *)
Record Matrix := mkMatrix {
  m_a : R; m_b : R; m_c : R; m_d : R; m_e : R; m_f : R
}.

Definition identity : Matrix := mkMatrix 1 0 0 1 0 0.

(** One [drawImage] call that went through: the image, the destination
    rectangle given, and the transformation in force. *)
Record DrawCall := mkDraw {
  dc_image : Image;
  dc_dx : R;
  dc_dy : R;
  dc_dw : R;
  dc_dh : R;
  dc_ctm : Matrix
}.

(** The canvas element: its layout box (read by the gesture handler) and its
    bitmap with the state of its 2D context (written by the compositor). *)
Record Canvas := mkCanvas {
  offsetWidth : R;
  offsetHeight : R;
  rect_left : R;
  rect_top : R;
  width : R;
  height : R;
  ctm : Matrix;
  stack : list Matrix;
  drawn : list DrawCall
}.

(** The controller and its gesture handler. *)
Record State := mkState {
  canvas : Canvas;
  heap : list PropObj;
  props : list nat;
  selectedProp : option nat;
  currentOverlay : option Asset;
  isActive : bool;
  pointers : list (Z * Pointer);
  lastGesture : option Gesture;
  errorLog : list string
}.

Definition set_canvas (c : Canvas) (s : State) : State :=
  mkState c (heap s) (props s) (selectedProp s) (currentOverlay s)
          (isActive s) (pointers s) (lastGesture s) (errorLog s).
Definition set_heap (h : list PropObj) (s : State) : State :=
  mkState (canvas s) h (props s) (selectedProp s) (currentOverlay s)
          (isActive s) (pointers s) (lastGesture s) (errorLog s).
Definition set_props (l : list nat) (s : State) : State :=
  mkState (canvas s) (heap s) l (selectedProp s) (currentOverlay s)
          (isActive s) (pointers s) (lastGesture s) (errorLog s).
Definition set_selectedProp (r : option nat) (s : State) : State :=
  mkState (canvas s) (heap s) (props s) r (currentOverlay s)
          (isActive s) (pointers s) (lastGesture s) (errorLog s).
Definition set_currentOverlay (o : option Asset) (s : State) : State :=
  mkState (canvas s) (heap s) (props s) (selectedProp s) o
          (isActive s) (pointers s) (lastGesture s) (errorLog s).
Definition set_pointers (m : list (Z * Pointer)) (s : State) : State :=
  mkState (canvas s) (heap s) (props s) (selectedProp s) (currentOverlay s)
          (isActive s) m (lastGesture s) (errorLog s).
Definition set_lastGesture (g : option Gesture) (s : State) : State :=
  mkState (canvas s) (heap s) (props s) (selectedProp s) (currentOverlay s)
          (isActive s) (pointers s) g (errorLog s).
Definition logError (context : string) (s : State) : State :=
  mkState (canvas s) (heap s) (props s) (selectedProp s) (currentOverlay s)
          (isActive s) (pointers s) (lastGesture s) (errorLog s ++ [context]).

(** ** The pointer map *)

Fixpoint map_has (k : Z) (m : list (Z * Pointer)) : bool :=
  match m with
  | [] => false
  | (k', _) :: m' => if Z.eqb k k' then true else map_has k m'
  end.

Fixpoint map_set (k : Z) (v : Pointer) (m : list (Z * Pointer)) : list (Z * Pointer) :=
  match m with
  | [] => [(k, v)]
  | (k', v') :: m' => if Z.eqb k k' then (k', v) :: m' else (k', v') :: map_set k v m'
  end.

Fixpoint map_delete (k : Z) (m : list (Z * Pointer)) : list (Z * Pointer) :=
  match m with
  | [] => []
  | (k', v') :: m' => if Z.eqb k k' then m' else (k', v') :: map_delete k m'
  end.

Definition map_values (m : list (Z * Pointer)) : list Pointer := map snd m.

Definition map_size (m : list (Z * Pointer)) : nat := List.length m.

(** ** The store of prop objects *)

Fixpoint store_update (r : nat) (p : PropObj) (h : list PropObj) : list PropObj :=
  match h, r with
  | [], _ => []
  | _ :: h', O => p :: h'
  | q :: h', S r' => q :: store_update r' p h'
  end.

Definition with_position (p : PropObj) (nx ny : R) : PropObj :=
  mkProp (prop_id p) (prop_name p) (prop_src p) (prop_img p)
         nx ny (prop_scale p) (prop_rotation p) (prop_width p) (prop_height p).

Definition with_pose (p : PropObj) (nx ny ns nr : R) : PropObj :=
  mkProp (prop_id p) (prop_name p) (prop_src p) (prop_img p)
         nx ny ns nr (prop_width p) (prop_height p).

(** ** GestureHandler *)

Definition getPointerFromEvent (s : State) (e : PointerEvent) : Pointer :=
  mkPointer (pointerId e)
            (clientX e - rect_left (canvas s))
            (clientY e - rect_top (canvas s))
            (now e).

(** The test of the loop body of [findPropAtPosition] for one prop. *)
Definition inBounds (c : Canvas) (p : PropObj) (x y : R) : bool :=
  let halfWidth := (prop_width p * prop_scale p) / 2 / offsetWidth c in
  let halfHeight := (prop_height p * prop_scale p) / 2 / offsetHeight c in
  let left := prop_x p - halfWidth in
  let right := prop_x p + halfWidth in
  let top := prop_y p - halfHeight in
  let bottom := prop_y p + halfHeight in
  Rgeb x left && Rleb x right && Rgeb y top && Rleb y bottom.

(** The loop of [findPropAtPosition] over the references still to visit,
    topmost first. *)
Fixpoint findPropIn (c : Canvas) (h : list PropObj) (x y : R) (visit : list nat)
  : option nat :=
  match visit with
  | [] => None
  | r :: rest =>
      match nth_error h r with
      | Some p => if inBounds c p x y then Some r else findPropIn c h x y rest
      | None => findPropIn c h x y rest
      end
  end.

Definition findPropAtPosition (s : State) (x y : R) : option nat :=
  findPropIn (canvas s) (heap s) x y (rev (props s)).

Definition handleSinglePointerDown (s : State) (pointer : Pointer) : State :=
  let normalizedX := ptr_x pointer / offsetWidth (canvas s) in
  let normalizedY := ptr_y pointer / offsetHeight (canvas s) in
  match findPropAtPosition s normalizedX normalizedY with
  | Some selected => set_selectedProp (Some selected) s
  | None => set_selectedProp None s
  end.

Definition computeTwoPointerGesture (s : State) (p1 p2 : Pointer) : Gesture :=
  let centerX := (ptr_x p1 + ptr_x p2) / 2 / offsetWidth (canvas s) in
  let centerY := (ptr_y p1 + ptr_y p2) / 2 / offsetHeight (canvas s) in
  let dx := ptr_x p2 - ptr_x p1 in
  let dy := ptr_y p2 - ptr_y p1 in
  let distance := Math_sqrt (dx * dx + dy * dy) in
  let angle := Math_atan2 dy dx in
  Transform centerX centerY distance angle (distance / 100) angle.

Definition updateGesture (s : State) : State :=
  match map_values (pointers s) with
  | [] => set_lastGesture None s
  | [p] =>
      set_lastGesture
        (Some (Translate (ptr_x p / offsetWidth (canvas s))
                         (ptr_y p / offsetHeight (canvas s)))) s
  | [p1; p2] => set_lastGesture (Some (computeTwoPointerGesture s p1 p2)) s
  | _ => s
  end.

Definition applyGesture (s : State) : State :=
  match lastGesture s, selectedProp s with
  | Some g, Some r =>
      match nth_error (heap s) r with
      | Some prop =>
          match g with
          | Translate gx gy =>
              set_heap
                (store_update r
                   (with_position prop
                      (Math_max 0 (Math_min 1 gx))
                      (Math_max 0 (Math_min 1 gy)))
                   (heap s)) s
          | Transform cx cy _ _ sc rot =>
              let newScale :=
                Math_max CONFIG.UI.MIN_SCALE (Math_min CONFIG.UI.MAX_SCALE sc) in
              set_heap
                (store_update r
                   (with_pose prop
                      (Math_max 0 (Math_min 1 cx))
                      (Math_max 0 (Math_min 1 cy))
                      newScale rot)
                   (heap s)) s
          end
      | None => s
      end
  | _, _ => s
  end.

Definition handlePointerDown (s : State) (e : PointerEvent) : State :=
  if negb (isActive s) then s
  else
    let pointer := getPointerFromEvent s e in
    let s1 := set_pointers (map_set (pointerId e) pointer (pointers s)) s in
    let s2 :=
      if Nat.eqb (map_size (pointers s1)) 1
      then handleSinglePointerDown s1 pointer
      else s1 in
    updateGesture s2.

Definition handlePointerMove (s : State) (e : PointerEvent) : State :=
  if negb (isActive s) || negb (map_has (pointerId e) (pointers s)) then s
  else
    let pointer := getPointerFromEvent s e in
    let s1 := set_pointers (map_set (pointerId e) pointer (pointers s)) s in
    applyGesture (updateGesture s1).

Definition handlePointerUp (s : State) (e : PointerEvent) : State :=
  if negb (isActive s) then s
  else
    let s1 := set_pointers (map_delete (pointerId e) (pointers s)) s in
    if Nat.eqb (map_size (pointers s1)) 0
    then set_lastGesture None s1
    else updateGesture s1.

Definition handlePointerCancel (s : State) (e : PointerEvent) : State :=
  handlePointerUp s e.

Definition isValidGesture (gesture : option Gesture) : bool :=
  match gesture with
  | None => false
  | Some (Translate gx gy) =>
      Rgeb gx 0 && Rleb gx 1 && Rgeb gy 0 && Rleb gy 1
  | Some (Transform _ _ _ _ sc _) =>
      Rgeb sc CONFIG.UI.MIN_SCALE && Rleb sc CONFIG.UI.MAX_SCALE
  end.

(** ** PhotoboothController: props, selection, overlay *)

(** [addProp(prop)], run from the point where [Utils.loadImage(prop.src)]
    settles: [loaded] is the image it resolved with, or [None] when it
    rejected; [uuid] is what [Utils.generateUUID()] returns. *)
Definition addProp (s : State) (prop : Asset) (loaded : option Image) (uuid : string)
  : State :=
  match loaded with
  | Some img =>
      let propObj :=
        mkProp uuid (asset_name prop) (asset_src prop) img
               (1 / 2) (1 / 2) 1 0
               CONFIG.UI.STICKER_BASE_SIZE
               (CONFIG.UI.STICKER_BASE_SIZE * (img_height img / img_width img)) in
      let ref := List.length (heap s) in
      set_selectedProp (Some ref)
        (set_props (props s ++ [ref]) (set_heap (heap s ++ [propObj]) s))
  | None => logError "PhotoboothController.addProp" s
  end.

(** [this.props.splice(index, 1)] at the first index of [r]. *)
Fixpoint splice_first (r : nat) (l : list nat) : list nat :=
  match l with
  | [] => []
  | a :: l' => if Nat.eqb a r then l' else a :: splice_first r l'
  end.

Definition removeProp (s : State) (r : nat) : State :=
  if existsb (Nat.eqb r) (props s)
  then
    let s1 := set_props (splice_first r (props s)) s in
    match selectedProp s1 with
    | Some r' => if Nat.eqb r' r then set_selectedProp None s1 else s1
    | None => s1
    end
  else s.

Definition selectOverlay (s : State) (overlay : Asset) : State :=
  set_currentOverlay (Some overlay) s.

(** ** The 2D context, with exceptions *)

Inductive Outcome (A : Type) :=
| Returned (a : A)
| Thrown (err : string).
Arguments Returned {A} a.
Arguments Thrown {A} err.

(** A computation that reads and writes the state and returns or throws. *)
Definition M (A : Type) : Type := State -> State * Outcome A.

Definition ret {A} (a : A) : M A := fun s => (s, Returned a).
Definition throw {A} (err : string) : M A := fun s => (s, Thrown err).
Definition bind {A B} (m : M A) (k : A -> M B) : M B :=
  fun s =>
    match m s with
    | (s', Returned a) => k a s'
    | (s', Thrown err) => (s', Thrown err)
    end.
(** [try { body } catch (error) { handler }]: what [body] wrote before it
    threw stays written. *)
Definition try_catch {A} (body : M A) (handler : string -> M A) : M A :=
  fun s =>
    match body s with
    | (s', Returned a) => (s', Returned a)
    | (s', Thrown err) => handler err s'
    end.
Definition get : M State := fun s => (s, Returned s).
Definition modify (f : State -> State) : M unit := fun s => (f s, Returned tt).

Notation "x <- m ;; k" := (bind m (fun x => k))
  (at level 61, m at next level, right associativity).
Notation "m ;; k" := (bind m (fun _ => k))
  (at level 61, right associativity).

Definition on_canvas (f : Canvas -> Canvas) : M unit :=
  modify (fun s => set_canvas (f (canvas s)) s).

(** Assigning [canvas.width] or [canvas.height] clears the bitmap and puts
    the context back in its default state. *)
Definition setWidth (w : R) : M unit :=
  on_canvas (fun c =>
    mkCanvas (offsetWidth c) (offsetHeight c) (rect_left c) (rect_top c)
             w (height c) identity [] []).
Definition setHeight (h : R) : M unit :=
  on_canvas (fun c =>
    mkCanvas (offsetWidth c) (offsetHeight c) (rect_left c) (rect_top c)
             (width c) h identity [] []).

Definition with_ctm (c : Canvas) (m : Matrix) (st : list Matrix) : Canvas :=
  mkCanvas (offsetWidth c) (offsetHeight c) (rect_left c) (rect_top c)
           (width c) (height c) m st (drawn c).

Definition mtranslate (m : Matrix) (tx ty : R) : Matrix :=
  mkMatrix (m_a m) (m_b m) (m_c m) (m_d m)
           (m_a m * tx + m_c m * ty + m_e m)
           (m_b m * tx + m_d m * ty + m_f m).
Definition mrotate (m : Matrix) (angle : R) : Matrix :=
  mkMatrix (m_a m * cos angle + m_c m * sin angle)
           (m_b m * cos angle + m_d m * sin angle)
           (m_c m * cos angle - m_a m * sin angle)
           (m_d m * cos angle - m_b m * sin angle)
           (m_e m) (m_f m).
Definition mscale (m : Matrix) (sx sy : R) : Matrix :=
  mkMatrix (m_a m * sx) (m_b m * sx) (m_c m * sy) (m_d m * sy) (m_e m) (m_f m).

Definition save : M unit :=
  on_canvas (fun c => with_ctm c (ctm c) (ctm c :: stack c)).
Definition restore : M unit :=
  on_canvas (fun c =>
    match stack c with
    | [] => c
    | m :: st => with_ctm c m st
    end).
Definition translate (tx ty : R) : M unit :=
  on_canvas (fun c => with_ctm c (mtranslate (ctm c) tx ty) (stack c)).
Definition rotate (angle : R) : M unit :=
  on_canvas (fun c => with_ctm c (mrotate (ctm c) angle) (stack c)).
Definition scale (sx sy : R) : M unit :=
  on_canvas (fun c => with_ctm c (mscale (ctm c) sx sy) (stack c)).

(** [ctx.drawImage(image, dx, dy, dw, dh)]. *)
Definition drawImage (image : Image) (dx dy dw dh : R) : M unit :=
  if img_broken image
  then throw "InvalidStateError"
  else
    on_canvas (fun c =>
      mkCanvas (offsetWidth c) (offsetHeight c) (rect_left c) (rect_top c)
               (width c) (height c) (ctm c) (stack c)
               (drawn c ++ [mkDraw image dx dy dw dh (ctm c)])).

(** [ctx.drawImage(image, dx, dy)]: at the image's own size. *)
Definition drawImage3 (image : Image) (dx dy : R) : M unit :=
  drawImage image dx dy (img_width image) (img_height image).

(** [await Utils.loadImage(src)] in an environment [loadImage] that tells
    which sources load. *)
Definition await_loadImage (loadImage : string -> option Image) (src : string)
  : M Image :=
  match loadImage src with
  | Some img => ret img
  | None => throw ("Failed to load image: " ++ src)
  end.

(** ** PhotoboothController.compositeImage *)

(** The body of the [try] of the prop loop, for the prop object [prop]. *)
Definition drawProp (prop : PropObj) : M unit :=
  s <- get ;;
  let x := prop_x prop * width (canvas s) - (prop_width prop * prop_scale prop) / 2 in
  let y := prop_y prop * height (canvas s) - (prop_height prop * prop_scale prop) / 2 in
  save ;;
  translate (x + (prop_width prop * prop_scale prop) / 2)
            (y + (prop_height prop * prop_scale prop) / 2) ;;
  rotate (prop_rotation prop) ;;
  scale (prop_scale prop) (prop_scale prop) ;;
  drawImage (prop_img prop) (- prop_width prop / 2) (- prop_height prop / 2)
            (prop_width prop) (prop_height prop) ;;
  restore.

(** [for (const prop of this.props) { try { ... } catch (error) { ... } }]. *)
Fixpoint drawProps (rs : list nat) : M unit :=
  match rs with
  | [] => ret tt
  | r :: rest =>
      s <- get ;;
      match nth_error (heap s) r with
      | Some prop =>
          try_catch (drawProp prop)
            (fun _ => modify (logError "PhotoboothController.compositeImage.prop"))
      | None => ret tt
      end ;;
      drawProps rest
  end.

Definition drawOverlay (loadImage : string -> option Image) : M unit :=
  s <- get ;;
  match currentOverlay s with
  | Some overlay =>
      try_catch
        (overlayImg <- await_loadImage loadImage (asset_src overlay) ;;
         c <- get ;;
         drawImage overlayImg 0 0 (width (canvas c)) (height (canvas c)))
        (fun _ => modify (logError "PhotoboothController.compositeImage.overlay"))
  | None => ret tt
  end.

Definition compositeImage (loadImage : string -> option Image) (photoDataURL : string)
  : M unit :=
  photoImg <- await_loadImage loadImage photoDataURL ;;
  setWidth (img_width photoImg) ;;
  setHeight (img_height photoImg) ;;
  drawImage3 photoImg 0 0 ;;
  drawOverlay loadImage ;;
  s <- get ;;
  drawProps (props s).

(** ** Sessions: what can happen to a controller, one action at a time *)

(** The [Delete] and [Backspace] case of [handleKeyboard]. *)
Definition deleteSelectedProp (s : State) : State :=
  match selectedProp s with
  | Some r => removeProp s r
  | None => s
  end.

Inductive Action :=
| PointerDown (e : PointerEvent)
| PointerMove (e : PointerEvent)
| PointerUp (e : PointerEvent)
| PointerCancel (e : PointerEvent)
| AddProp (prop : Asset) (loaded : option Image) (uuid : string)
| DeleteKey
| SelectOverlay (overlay : Asset)
| Composite (loadImage : string -> option Image) (photoDataURL : string).

Definition step (s : State) (a : Action) : State :=
  match a with
  | PointerDown e => handlePointerDown s e
  | PointerMove e => handlePointerMove s e
  | PointerUp e => handlePointerUp s e
  | PointerCancel e => handlePointerCancel s e
  | AddProp prop loaded uuid => addProp s prop loaded uuid
  | DeleteKey => deleteSelectedProp s
  | SelectOverlay overlay => selectOverlay s overlay
  | Composite loadImage photoDataURL => fst (compositeImage loadImage photoDataURL s)
  end.

Definition run (s : State) (actions : list Action) : State :=
  fold_left step actions s.

(** The controller once its constructor and [gestureHandler.init] have run,
    on the canvas [c]. *)
Definition initial (c : Canvas) : State :=
  mkState c [] [] None None true [] None [].

(** ** Words of the specification *)

(** "clamped into [lo, hi]". *)
Definition clamp (lo hi v : R) : R :=
  if Rltb v lo then lo else if Rltb hi v then hi else v.

(** "Euclidean pixel distance" between two pointers. *)
Definition euclidean (p1 p2 : Pointer) : R :=
  sqrt ((ptr_x p2 - ptr_x p1) ^ 2 + (ptr_y p2 - ptr_y p1) ^ 2).

(** The [scale] field of a gesture; a translate gesture has none. *)
Definition rawScale (g : option Gesture) : option R :=
  match g with
  | Some (Transform _ _ _ _ sc _) => Some sc
  | _ => None
  end.

(** The pose of the prop object a reference points to. *)
Definition pose (h : list PropObj) (r : nat) : option (R * R * R * R) :=
  match nth_error h r with
  | Some p => Some (prop_x p, prop_y p, prop_scale p, prop_rotation p)
  | None => None
  end.

(** ** What the compositor leaves alone *)

(** [s'] differs from [s] at most in the canvas and the error log. *)
Definition keeps_session (s s' : State) : Prop :=
  heap s' = heap s /\ props s' = props s /\ selectedProp s' = selectedProp s /\
  currentOverlay s' = currentOverlay s /\ isActive s' = isActive s /\
  pointers s' = pointers s /\ lastGesture s' = lastGesture s.

(** [s'] has every entry of the error log of [s]. *)
Definition keeps_log (s s' : State) : Prop :=
  forall context, In context (errorLog s) -> In context (errorLog s').

(** Every run of [m] relates the state it starts in to the state it ends
    in, whether it returns or throws. *)
Definition preserved (rel : State -> State -> Prop) {A} (m : M A) : Prop :=
  forall s, rel s (fst (m s)).

(** What holds of every state of a session: the handler is active, and no
    gesture is retained while no pointer is down. *)
Definition idle_clean (s : State) : Prop :=
  isActive s = true /\ (pointers s = [] -> lastGesture s = None).

(** ** Concrete sessions *)

(** A canvas laid out at 1000 by 1000 CSS pixels, at the page origin, with
    the default 300 by 150 bitmap. *)
Definition canvas1000 : Canvas := mkCanvas 1000 1000 0 0 300 150 identity [] [].

(** Two fingers go down, one moves, both lift (the second by a cancel). *)
Definition pinch_and_lift : list Action :=
  [ PointerDown (mkEvent 1 400 500 10);
    PointerDown (mkEvent 2 600 500 12);
    PointerMove (mkEvent 2 700 500 20);
    PointerUp (mkEvent 1 400 500 31);
    PointerCancel (mkEvent 2 700 500 32) ].

(** A 200 by 100 prop at the centre, at unit scale, turned by [rotation]. *)
Definition wideProp (rotation : R) (broken : bool) : PropObj :=
  mkProp "id-1" "Crown" "img/props/crown.png"
         (mkImage "img/props/crown.png" 400 200 broken)
         (1 / 2) (1 / 2) 1 rotation 200 100.

(** A state in which [wideProp 0] is selected and the gesture [g] is the
    retained one. *)
Definition selectedWith (g : Gesture) : State :=
  mkState canvas1000 [wideProp 0 false] [0%nat] (Some 0%nat) None true [] (Some g) [].

(** Two pointers [distance] pixels apart on a horizontal line, over a prop
    whose scale is [prior]. *)
Definition pinchAt (distance prior : R) : State :=
  mkState canvas1000
          [mkProp "id-1" "Crown" "img/props/crown.png"
                  (mkImage "img/props/crown.png" 400 200 false)
                  (1 / 2) (1 / 2) prior 0 200 100]
          [0%nat] (Some 0%nat) None true
          [(1%Z, mkPointer 1 400 500 10); (2%Z, mkPointer 2 (400 + distance) 500 12)]
          None [].

Definition crownAsset : Asset := mkAsset "Crown" "img/props/crown.png".
Definition crownImage : Image := mkImage "img/props/crown.png" 400 200 false.
Definition chainAsset : Asset := mkAsset "Chain" "img/props/chain.png".
Definition chainImage : Image := mkImage "img/props/chain.png" 300 300 false.

(** The crown is added, then picked up by a pointer at the centre. *)
Definition dragOut : list Action :=
  [ AddProp crownAsset (Some crownImage) "id-1";
    PointerDown (mkEvent 1 500 500 10) ].

(** The crown is added, picked up at the centre and dragged to 500 pixels
    right of the canvas. *)
Definition dragFar : list Action :=
  [ AddProp crownAsset (Some crownImage) "id-1";
    PointerDown (mkEvent 1 500 500 10);
    PointerMove (mkEvent 1 1500 500 20) ].

(** A 200 by 100 prop centred at (0.5, 0.5) and rotated by PI/2, on the
    1000 by 1000 canvas. *)
Definition rotatedCrown : State :=
  mkState canvas1000 [wideProp (PI / 2) false] [0%nat] None None true [] None [].

(** ** Hit testing, in the words of the specification and of the code *)

(** The specification's test: the pointer, in pixels relative to the prop's
    centre, is rotated back by the prop's rotation and compared with the
    prop's half-width and half-height. *)
Definition specHitTest (c : Canvas) (p : PropObj) (x y : R) : bool :=
  let dx := (x - prop_x p) * offsetWidth c in
  let dy := (y - prop_y p) * offsetHeight c in
  let localX := dx * cos (prop_rotation p) + dy * sin (prop_rotation p) in
  let localY := dy * cos (prop_rotation p) - dx * sin (prop_rotation p) in
  Rleb (Rabs localX) (prop_width p * prop_scale p / 2) &&
  Rleb (Rabs localY) (prop_height p * prop_scale p / 2).

(** The box the code tests: centred at the prop's position, as wide and as
    high as the scaled prop, with sides parallel to the canvas's. *)
Definition axisAlignedBox (c : Canvas) (p : PropObj) (x y : R) : Prop :=
  prop_x p - prop_width p * prop_scale p / 2 / offsetWidth c <= x /\
  x <= prop_x p + prop_width p * prop_scale p / 2 / offsetWidth c /\
  prop_y p - prop_height p * prop_scale p / 2 / offsetHeight c <= y /\
  y <= prop_y p + prop_height p * prop_scale p / 2 / offsetHeight c.

Definition with_rotation (angle : R) (p : PropObj) : PropObj :=
  with_pose p (prop_x p) (prop_y p) (prop_scale p) angle.


(** ** What the compositor is expected to draw *)

(** The state with the draw calls [ds] added to the canvas's record. *)
Definition drawn_more (ds : list DrawCall) (s : State) : State :=
  set_canvas
    (mkCanvas (offsetWidth (canvas s)) (offsetHeight (canvas s))
              (rect_left (canvas s)) (rect_top (canvas s))
              (width (canvas s)) (height (canvas s))
              (ctm (canvas s)) (stack (canvas s)) (drawn (canvas s) ++ ds)) s.

(** The transformation in force when [drawProp] reaches [drawImage],
    starting from the transformation [m] on a [W] by [H] bitmap. *)
Definition propTransform (m : Matrix) (W H : R) (p : PropObj) : Matrix :=
  mscale
    (mrotate
       (mtranslate m
          (prop_x p * W - prop_width p * prop_scale p / 2
           + prop_width p * prop_scale p / 2)
          (prop_y p * H - prop_height p * prop_scale p / 2
           + prop_height p * prop_scale p / 2))
       (prop_rotation p))
    (prop_scale p) (prop_scale p).

Definition propDraw (m : Matrix) (W H : R) (p : PropObj) : DrawCall :=
  mkDraw (prop_img p) (- prop_width p / 2) (- prop_height p / 2)
         (prop_width p) (prop_height p) (propTransform m W H p).

(** The specification's placement of a prop on a [W] by [H] surface: centre
    at (pose.x * W, pose.y * H), scaled by pose.scale, rotated by
    pose.rotation. *)
Definition poseMatrix (W H : R) (p : PropObj) : Matrix :=
  mkMatrix (prop_scale p * cos (prop_rotation p))
           (prop_scale p * sin (prop_rotation p))
           (- (prop_scale p * sin (prop_rotation p)))
           (prop_scale p * cos (prop_rotation p))
           (prop_x p * W)
           (prop_y p * H).

(** The prop's image, centred on the origin of [poseMatrix]. *)
Definition poseDraw (W H : R) (p : PropObj) : DrawCall :=
  mkDraw (prop_img p) (- prop_width p / 2) (- prop_height p / 2)
         (prop_width p) (prop_height p) (poseMatrix W H p).

(** The captured frame at (0, 0), at its own size. *)
Definition photoDraw (photo : Image) : DrawCall :=
  mkDraw photo 0 0 (img_width photo) (img_height photo) identity.

(** The overlay stretched over the [W] by [H] surface, when one is active
    and its image is there to draw. *)
Definition overlayDraws (loadImage : string -> option Image) (s : State) (W H : R)
  : list DrawCall :=
  match currentOverlay s with
  | Some overlay =>
      match loadImage (asset_src overlay) with
      | Some overlayImg =>
          if img_broken overlayImg then [] else [mkDraw overlayImg 0 0 W H identity]
      | None => []
      end
  | None => []
  end.

(** The state once the photo is loaded and drawn on the resized canvas. *)
Definition afterPhoto (photo : Image) (s : State) : State :=
  set_canvas
    (mkCanvas (offsetWidth (canvas s)) (offsetHeight (canvas s))
              (rect_left (canvas s)) (rect_top (canvas s))
              (img_width photo) (img_height photo) identity [] [photoDraw photo]) s.

(** Every reference of [rs] points to the prop object at the same place in
    [ps]. *)
Definition resolves (s : State) (rs : list nat) (ps : list PropObj) : Prop :=
  Forall2 (fun r p => nth_error (heap s) r = Some p) rs ps.

Definition drawable (p : PropObj) : Prop := img_broken (prop_img p) = false.

(** ** Concrete compositions *)

Definition studioPhoto : Image := mkImage "data:photo" 800 600 false.
Definition frameImage : Image := mkImage "img/overlays/frame.png" 1080 1920 false.
Definition frameOverlay : Asset := mkAsset "Frame" "img/overlays/frame.png".
Definition missingOverlay : Asset := mkAsset "Gone" "img/overlays/gone.png".

(** An environment in which the photo and the frame load and nothing else
    does. *)
Definition studio (src : string) : option Image :=
  if String.eqb src "data:photo" then Some studioPhoto
  else if String.eqb src "img/overlays/frame.png" then Some frameImage
  else None.

(** A prop of 200 by 100 pixels at [(px, py)], at scale [sc], turned by
    [rotation]; [broken] says its image cannot be drawn. *)
Definition placed (name : string) (px py sc rotation : R) (broken : bool) : PropObj :=
  mkProp name name "img/props/crown.png"
         (mkImage name 400 200 broken) px py sc rotation 200 100.

(** The frame overlay over two props, the second one enlarged and turned. *)
Definition party : State :=
  mkState canvas1000
          [placed "first" (1 / 4) (1 / 4) 1 0 false;
           placed "second" (1 / 2) (3 / 4) 2 (PI / 2) false]
          [0%nat; 1%nat] (Some 1%nat) (Some frameOverlay) true [] None [].

(** One prop under an overlay whose image does not load. *)
Definition framed : State :=
  mkState canvas1000 [placed "first" (1 / 4) (1 / 4) 1 0 false]
          [0%nat] (Some 0%nat) (Some missingOverlay) true [] None [].

(** Three props along the diagonal; the image of the second is broken. *)
Definition threeProps : State :=
  mkState canvas1000
          [placed "first" (1 / 4) (1 / 4) 1 0 false;
           placed "second" (1 / 2) (1 / 2) 1 0 true;
           placed "third" (3 / 4) (3 / 4) 1 0 false]
          [0%nat; 1%nat; 2%nat] None None true [] None [].

(** ** Invariants of a session *)

(** Every reference of the prop list points into the store, and the
    selection, when there is one, is a prop of the list. *)
Definition well_formed (s : State) : Prop :=
  (forall r, In r (props s) -> (r < List.length (heap s))%nat) /\
  (forall r, selectedProp s = Some r -> In r (props s)).

(** The data model's invariant on poses. *)
Definition pose_in_range (p : PropObj) : Prop :=
  0 <= prop_x p <= 1 /\ 0 <= prop_y p <= 1 /\
  CONFIG.UI.MIN_SCALE <= prop_scale p <= CONFIG.UI.MAX_SCALE.

Definition poses_in_range (s : State) : Prop :=
  forall r p, nth_error (heap s) r = Some p -> pose_in_range p.

(** ** GestureHandler: utility methods and smoothing *)

(** What [getCenter] returns: [{ x, y }]. *)
Record Point := mkPoint {
  pt_x : R;
  pt_y : R
}.

Definition getDistance (p1 p2 : Pointer) : R :=
  let dx := ptr_x p2 - ptr_x p1 in
  let dy := ptr_y p2 - ptr_y p1 in
  Math_sqrt (dx * dx + dy * dy).

Definition getAngle (p1 p2 : Pointer) : R :=
  Math_atan2 (ptr_y p2 - ptr_y p1) (ptr_x p2 - ptr_x p1).

Definition getCenter (p1 p2 : Pointer) : Point :=
  mkPoint ((ptr_x p1 + ptr_x p2) / 2) ((ptr_y p1 + ptr_y p2) / 2).

(** [smoothGesture(gesture, previousGesture, smoothingFactor)];
    [previousGesture] may be [null].  The copy [{ ...gesture }] keeps the
    fields that are not smoothed ([distance] and [angle]). *)
Definition smoothGesture
    (gesture : Gesture) (previousGesture : option Gesture) (smoothingFactor : R)
  : Gesture :=
  match previousGesture with
  | None => gesture
  | Some previous =>
      match gesture, previous with
      | Translate gx gy, Translate px py =>
          Translate (px + (gx - px) * smoothingFactor)
                    (py + (gy - py) * smoothingFactor)
      | Transform cx cy d a sc rot, Transform pcx pcy _ _ psc prot =>
          Transform (pcx + (cx - pcx) * smoothingFactor)
                    (pcy + (cy - pcy) * smoothingFactor)
                    d a
                    (psc + (sc - psc) * smoothingFactor)
                    (prot + (rot - prot) * smoothingFactor)
      | _, _ => gesture
      end
  end.

(** The default of the third parameter of [smoothGesture]. *)
Definition defaultSmoothingFactor : R := 1 / 10.

(** The gesture [updateGesture] derives from the pointers that are down;
    with three or more it keeps the gesture it has. *)
Definition derivedGesture (s : State) : option Gesture :=
  lastGesture (updateGesture s).

(** The rotation of every prop is an angle [Math.atan2] can return. *)
Definition rotations_in_range (s : State) : Prop :=
  forall r p, nth_error (heap s) r = Some p ->
              - PI < prop_rotation p <= PI.

(** The retained gesture is the one the pointers that are down derive. *)
Definition gesture_in_sync (s : State) : Prop :=
  lastGesture s = derivedGesture s.

(** ** What a composition depends on *)

(** The layout box of the canvas, which the compositor never writes. *)
Definition layout (c : Canvas) : R * R * R * R :=
  (offsetWidth c, offsetHeight c, rect_left c, rect_top c).

(** Two states that a composition cannot tell apart: same layout, same prop
    objects, same prop list, same overlay. *)
Definition same_scene (s1 s2 : State) : Prop :=
  layout (canvas s1) = layout (canvas s2) /\
  heap s1 = heap s2 /\ props s1 = props s2 /\
  currentOverlay s1 = currentOverlay s2.

(** Whether [drawImage] goes through for the prop's image. *)
Definition drawableb (p : PropObj) : bool := negb (img_broken (prop_img p)).

(** The entries a composition adds to the error log: one for an active
    overlay that is not drawn, then one for each prop that cannot be drawn. *)
Definition compositeErrors
    (loadImage : string -> option Image) (s : State) (W H : R) (ps : list PropObj)
  : list string :=
  match currentOverlay s, overlayDraws loadImage s W H with
  | Some _, [] => ["PhotoboothController.compositeImage.overlay"%string]
  | _, _ => []
  end
  ++ repeat "PhotoboothController.compositeImage.prop"%string
            (List.length (filter (fun p => img_broken (prop_img p)) ps)).

(** ** More invariants of a session *)

(** The rotation of a retained transform gesture is an angle [Math.atan2]
    can return. *)
Definition gesture_rotation_in_range (s : State) : Prop :=
  match lastGesture s with
  | Some (Transform _ _ _ _ _ rot) => - PI < rot <= PI
  | _ => True
  end.

(** What the handlers keep true besides [well_formed] and
    [poses_in_range]. *)
Definition session_invariant (s : State) : Prop :=
  isActive s = true /\
  gesture_in_sync s /\
  gesture_rotation_in_range s /\
  rotations_in_range s /\
  NoDup (props s).

(** One finger goes down and moves. *)
Definition oneFinger : list Action :=
  [ PointerDown (mkEvent 1 400 500 10);
    PointerMove (mkEvent 1 450 520 15) ].

(** Three fingers are down, the third one since the last event. *)
Definition threeFingers : State :=
  run (initial canvas1000)
      [ PointerDown (mkEvent 1 400 500 10);
        PointerDown (mkEvent 2 600 500 12);
        PointerDown (mkEvent 3 500 700 14) ].

(** The crown is selected and one pointer is down on it. *)
Definition holdingCrown : State :=
  mkState canvas1000 [wideProp 0 false] [0%nat] (Some 0%nat) None true
          [(1%Z, mkPointer 1 500 500 10)]
          (Some (Translate (500 / 1000) (500 / 1000))) [].

(** ** The layout of the canvas *)

(** The canvas is laid out with a size that is not zero.  The quotients by
    [offsetWidth] and [offsetHeight] are then the numbers the code computes;
    on a canvas of size zero the code's quotient is NaN or an infinity,
    which the real numbers do not have. *)
Definition laid_out (c : Canvas) : Prop :=
  0 < offsetWidth c /\ 0 < offsetHeight c.

(** ** Images that loaded *)




(** * Codes, storage and sessions

    The code scanner of [src/js/config.js] (class [QRScanner]) and the
    storage and session managers of [src/js/photobooth.js] (classes
    [StorageManager] and [SessionManager]).

    Modelling conventions.
    - A JavaScript string is the list of its UTF-16 code units, which is what
      [length], [trim], [split] and a regular expression without the [u]
      flag work on.
    - The values these classes pass around and store are JSON values, with
      integers for numbers (time stamps, counts).
    - The browser is a record [Browser]: the texts [localStorage] holds,
      [JSON.stringify] and [JSON.parse] between values and texts
      ([JSON.parse] failing on a text that is not JSON), the length of a
      text, and whether [localStorage.setItem] throws (the quota).  What is
      proved of stored values assumes of the browser that [JSON.parse] gives
      back what [JSON.stringify] was given.
    - [Date.now()] is an argument, read once per call of a method.  A timer
      set with [setTimeout] is kept with the time at which it is due, its
      delay being the 32-bit integer [setTimeout] makes of its argument; its
      callback is a transition of its own, which the browser takes no
      earlier than that.
    - Toasts and the redirection to the login page are effects on the page
      only and are left out. *)

(** ** Strings *)

Definition JsString := list N.

(** The string a literal of the source denotes. *)
Definition js (s : string) : JsString := map N_of_ascii (list_ascii_of_string s).

(** [a === b] on strings. *)
Fixpoint js_eqb (a b : JsString) : bool :=
  match a, b with
  | [], [] => true
  | x :: a', y :: b' => N.eqb x y && js_eqb a' b'
  | _, _ => false
  end.

(** [array.includes(s)] on an array of strings. *)
Definition includes (s : JsString) (array : list JsString) : bool :=
  existsb (js_eqb s) array.

(** The code units [String.prototype.trim] removes: the white space and the
    line terminators of ECMAScript. *)
Definition isWhiteSpace (c : N) : bool :=
  ((9 <=? c) && (c <=? 13) || (c =? 32) || (c =? 160) || (c =? 5760)
   || (8192 <=? c) && (c <=? 8202) || (c =? 8232) || (c =? 8233)
   || (c =? 8239) || (c =? 8287) || (c =? 12288) || (c =? 65279))%N.

Fixpoint trimStart (s : JsString) : JsString :=
  match s with
  | [] => []
  | c :: r => if isWhiteSpace c then trimStart r else s
  end.

Definition trimEnd (s : JsString) : JsString := rev (trimStart (rev s)).

Definition trim (s : JsString) : JsString := trimEnd (trimStart s).

(** [array.join('\n')] on an array of strings. *)
Fixpoint join_lines (array : list JsString) : JsString :=
  match array with
  | [] => []
  | [s] => s
  | s :: rest => s ++ 10%N :: join_lines rest
  end.

(** [s.split(/\r?\n/)]: a line feed, with the carriage return before it if
    there is one, ends a piece. *)
Fixpoint split_lines (s : JsString) : list JsString :=
  match s with
  | [] => [[]]
  | c :: r =>
      if (c =? 10)%N then [] :: split_lines r
      else
        match r with
        | c' :: r' =>
            if (c =? 13)%N && (c' =? 10)%N then [] :: split_lines r'
            else
              match split_lines r with
              | piece :: pieces => (c :: piece) :: pieces
              | [] => [[c]]
              end
        | [] => [[c]]
        end
  end.

(** ** Values *)

#[warnings="-register-all"]
Inductive JSON :=
| JNull
| JBool (b : bool)
| JNumber (n : Z)
| JString (s : JsString)
| JArray (items : list JSON)
| JObject (fields : list (string * JSON)).

(** [a === b].  Two arrays or objects are equal when they are the same
    object; the ones compared here are never the same: one of the two was
    just parsed. *)
Definition strict_equals (a b : JSON) : bool :=
  match a, b with
  | JNull, JNull => true
  | JBool x, JBool y => Bool.eqb x y
  | JNumber x, JNumber y => Z.eqb x y
  | JString x, JString y => js_eqb x y
  | _, _ => false
  end.

(** The outcome of reading a property. *)
Inductive Property :=
| Undefined
| Value (v : JSON)
| TypeError.

(** The value of the field [name] of an object: of the last one, if the
    list has several. *)
Fixpoint field (name : string) (fields : list (string * JSON)) : Property :=
  match fields with
  | [] => Undefined
  | (k, v) :: rest =>
      match field name rest with
      | Undefined => if String.eqb name k then Value v else Undefined
      | found => found
      end
  end.

(** [value.id]: a [TypeError] on [null], undefined on what is not an object
    with that field. *)
Definition get_id (value : JSON) : Property :=
  match value with
  | JNull => TypeError
  | JObject fields => field "id" fields
  | _ => Undefined
  end.

(** ** The code scanner (class [QRScanner] of config.js) *)

Module QRScanner.

(** [code.replace(/<[^>]*>/g, '')].  From a [<] the expression matches up
    to the first [>] after it; a [<] with no [>] after it is kept.  [inTag]
    says that the text read is inside a match. *)
Fixpoint stripTagsFrom (inTag : bool) (s : JsString) : JsString :=
  match s with
  | [] => []
  | c :: r =>
      if inTag then
        if (c =? 62)%N then stripTagsFrom false r else stripTagsFrom true r
      else if (c =? 60)%N && existsb (N.eqb 62) r then stripTagsFrom true r
      else c :: stripTagsFrom false r
  end.

Definition stripTags (s : JsString) : JsString := stripTagsFrom false s.

(** The class [[A-Za-z0-9\-_]]. *)
Definition isCodeChar (c : N) : bool :=
  ((65 <=? c) && (c <=? 90) || (97 <=? c) && (c <=? 122)
   || (48 <=? c) && (c <=? 57) || (c =? 45) || (c =? 95))%N.

(** [/^[A-Za-z0-9\-_]+$/.test(s)]. *)
Definition isCodeText (s : JsString) : bool :=
  match s with
  | [] => false
  | _ => forallb isCodeChar s
  end.

Definition sanitizeCode (code : JSON) : option JsString :=
  match code with
  | JString s =>
      let sanitized := trim (stripTags s) in
      if negb (isCodeText sanitized) then None
      else if (50 <? List.length sanitized)%nat then None
      else Some sanitized
  | _ => None
  end.

End QRScanner.

(** ** The browser *)

Record Browser := mkBrowser {
  Text : Type;
  JSON_stringify : JSON -> Text;
  JSON_parse : Text -> option JSON;
  text_length : Text -> N;
  setItem_throws : list (string * Text) -> string -> Text -> bool
}.

(** [JSON.parse] gives back what [JSON.stringify] was given. *)
Definition faithful (B : Browser) : Prop :=
  forall v : JSON, JSON_parse B (JSON_stringify B v) = Some v.

(** ** The storage manager (class [StorageManager] of photobooth.js) *)

Module Storage.
Section StorageManager.
Context {B : Browser}.

(** [localStorage], the flag the constructor sets and what [Utils.logError]
    was called with. *)
Record Store := mkStore {
  isAvailable : bool;
  localStorage : list (string * Text B);
  storageLog : list string
}.

Definition set_localStorage (l : list (string * Text B)) (st : Store) : Store :=
  mkStore (isAvailable st) l (storageLog st).

Definition logError (context : string) (st : Store) : Store :=
  mkStore (isAvailable st) (localStorage st) (storageLog st ++ [context]).

(** [localStorage.getItem], [setItem] and [removeItem]. *)
Fixpoint ls_getItem (key : string) (l : list (string * Text B)) : option (Text B) :=
  match l with
  | [] => None
  | (k, v) :: rest => if String.eqb key k then Some v else ls_getItem key rest
  end.

Fixpoint ls_setItem (key : string) (v : Text B) (l : list (string * Text B))
  : list (string * Text B) :=
  match l with
  | [] => [(key, v)]
  | (k, v') :: rest =>
      if String.eqb key k then (k, v) :: rest else (k, v') :: ls_setItem key v rest
  end.

Fixpoint ls_removeItem (key : string) (l : list (string * Text B))
  : list (string * Text B) :=
  match l with
  | [] => []
  | (k, v) :: rest =>
      if String.eqb key k then ls_removeItem key rest
      else (k, v) :: ls_removeItem key rest
  end.

Definition getItem (key : string) (defaultValue : JSON) (st : Store) : JSON * Store :=
  if negb (isAvailable st) then (defaultValue, st)
  else
    match ls_getItem key (localStorage st) with
    | Some item =>
        match JSON_parse B item with
        | Some value => (value, st)
        | None => (defaultValue, logError "Storage.getItem" st)
        end
    | None => (defaultValue, st)
    end.

(** The sum the loop of [isStorageFull] computes. *)
Fixpoint totalSize (l : list (string * Text B)) : N :=
  match l with
  | [] => 0%N
  | (k, v) :: rest => (text_length B v + N.of_nat (String.length k) + totalSize rest)%N
  end.

(** [estimatedLimit * 0.9], which is 4718592. *)
Definition fullThreshold : N := 4718592%N.

Definition isStorageFull (st : Store) : bool :=
  if negb (isAvailable st) then true
  else (fullThreshold <? totalSize (localStorage st))%N.

Definition setItem (key : string) (value : JSON) (st : Store) : bool * Store :=
  if negb (isAvailable st) then (false, st)
  else if isStorageFull st then (false, st)
  else
    let text := JSON_stringify B value in
    if setItem_throws B (localStorage st) key text
    then (false, logError "Storage.setItem" st)
    else (true, set_localStorage (ls_setItem key text (localStorage st)) st).

Definition removeItem (key : string) (st : Store) : bool * Store :=
  if negb (isAvailable st) then (false, st)
  else (true, set_localStorage (ls_removeItem key (localStorage st)) st).

Definition clear (st : Store) : bool * Store :=
  if negb (isAvailable st) then (false, st)
  else (true, set_localStorage [] st).

Definition getPhotos (st : Store) : list JSON * Store :=
  let (photos, st1) := getItem CONFIG.STORAGE.KEYS.PHOTOS (JArray []) st in
  (match photos with JArray items => items | _ => [] end, st1).

(** [photos.slice(-n)]: the last [n] items. *)
Definition slice_last (n : nat) (photos : list JSON) : list JSON :=
  skipn (List.length photos - n) photos.

Definition setPhotos (photos : JSON) (st : Store) : bool * Store :=
  match photos with
  | JArray items =>
      let kept :=
        if (CONFIG.STORAGE.MAX_PHOTOS <? List.length items)%nat
        then slice_last CONFIG.STORAGE.CLEANUP_THRESHOLD items
        else items in
      setItem CONFIG.STORAGE.KEYS.PHOTOS (JArray kept) st
  | _ => (false, st)
  end.

Definition addPhoto (photo : JSON) (st : Store) : bool * Store :=
  let (photos, st1) := getPhotos st in
  setPhotos (JArray (photos ++ [photo])) st1.

(** [photo.id === photoId], where reading [photo.id] does not throw. *)
Definition hasId (photoId photo : JSON) : bool :=
  match get_id photo with
  | Value v => strict_equals v photoId
  | _ => false
  end.

(** [photos.filter(photo => photo.id !== photoId)]; [None] when reading
    [photo.id] throws. *)
Fixpoint filter_other_ids (photoId : JSON) (photos : list JSON) : option (list JSON) :=
  match photos with
  | [] => Some []
  | photo :: rest =>
      match get_id photo with
      | TypeError => None
      | _ =>
          match filter_other_ids photoId rest with
          | None => None
          | Some kept => Some (if hasId photoId photo then kept else photo :: kept)
          end
      end
  end.

(** [None]: the [TypeError] leaves the method. *)
Definition removePhoto (photoId : JSON) (st : Store) : option (bool * Store) :=
  let (photos, st1) := getPhotos st in
  match filter_other_ids photoId photos with
  | None => None
  | Some filteredPhotos => Some (setPhotos (JArray filteredPhotos) st1)
  end.

Definition getPin (st : Store) : JSON * Store :=
  getItem CONFIG.STORAGE.KEYS.SETTINGS_PIN (JString (js CONFIG.SECURITY.DEFAULT_PIN)) st.

Definition setPin (pin : JSON) (st : Store) : bool * Store :=
  match pin with
  | JString s =>
      if negb (Nat.eqb (List.length s) CONFIG.SECURITY.PIN_LENGTH) then (false, st)
      else setItem CONFIG.STORAGE.KEYS.SETTINGS_PIN pin st
  | _ => (false, st)
  end.

Definition isEmpty (s : JsString) : bool :=
  match s with [] => true | _ => false end.

Definition getApprovedCodes (st : Store) : list JsString * Store :=
  let (codes, st1) := getItem CONFIG.STORAGE.KEYS.APPROVED_CODES JNull st in
  match codes with
  | JString s =>
      if negb (isEmpty s)
      then (filter (fun c => negb (isEmpty c)) (map trim (split_lines s)), st1)
      else (map js CONFIG.QR.DEFAULT_APPROVED_CODES, st1)
  | _ => (map js CONFIG.QR.DEFAULT_APPROVED_CODES, st1)
  end.

(** The argument is an array of strings. *)
Definition setApprovedCodes (codes : list JsString) (st : Store) : bool * Store :=
  let codesString := join_lines codes in
  setItem CONFIG.STORAGE.KEYS.APPROVED_CODES (JString codesString) st.

Definition getSession (st : Store) : JSON * Store :=
  getItem CONFIG.STORAGE.KEYS.SESSION JNull st.

Definition setSession (session : JSON) (st : Store) : bool * Store :=
  setItem CONFIG.STORAGE.KEYS.SESSION session st.

Definition clearSession (st : Store) : bool * Store :=
  let (removed, st1) := removeItem CONFIG.STORAGE.KEYS.SESSION st in
  if removed then removeItem CONFIG.STORAGE.KEYS.PENDING_SESSION st1
  else (false, st1).

(** Two stores with the same [localStorage] and the same flag. *)
Definition same_storage (st st' : Store) : Prop :=
  isAvailable st' = isAvailable st /\
  localStorage st' = localStorage st.

End StorageManager.
Arguments Store : clear implicits.
End Storage.

(** A browser whose texts are the values themselves, each of length 10, and
    which accepts every write; one whose texts are long enough for a single
    item to pass the threshold of [isStorageFull]. *)
Definition plainBrowser : Browser :=
  mkBrowser JSON (fun v => v) Some (fun _ => 10%N) (fun _ _ _ => false).

Definition bulkyBrowser : Browser :=
  mkBrowser JSON (fun v => v) Some (fun _ => 5000000%N) (fun _ _ _ => false).

Definition emptyStore : Storage.Store plainBrowser :=
  @Storage.mkStore plainBrowser true [] [].

Definition photoWithId (name : string) : JSON :=
  JObject [("id"%string, JString (js name))].

(** Three photos are stored, two of them under the same [id]. *)
Definition threePhotos : Storage.Store plainBrowser :=
  @Storage.mkStore plainBrowser true
    [("photos"%string, JArray [photoWithId "a"; photoWithId "b"; photoWithId "a"])] [].

(** One photo is stored, in a store that is past the threshold. *)
Definition fullStore : Storage.Store bulkyBrowser :=
  @Storage.mkStore bulkyBrowser true
    [("photos"%string, JArray [photoWithId "a"])] [].


(** ** The session manager (class [SessionManager] of photobooth.js) *)

Module Session.
Section SessionManager.
Context {B : Browser}.

(** The object [createSession] builds.  [endedAt] is the field [endSession]
    adds. *)
Record SessionObject := mkSession {
  id : JsString;
  type : JsString;
  createdAt : Z;
  lastActivity : Z;
  expiresAt : Z;
  data : list (string * JSON);
  isActive : bool;
  endedAt : option Z
}.

(** The session as [JSON.stringify] sees it. *)
Definition toJSON (session : SessionObject) : JSON :=
  JObject
    ([ ("id"%string, JString (id session));
       ("type"%string, JString (type session));
       ("createdAt"%string, JNumber (createdAt session));
       ("lastActivity"%string, JNumber (lastActivity session));
       ("expiresAt"%string, JNumber (expiresAt session));
       ("data"%string, JObject (data session));
       ("isActive"%string, JBool (isActive session)) ]
     ++ match endedAt session with
        | Some t => [("endedAt"%string, JNumber t)]
        | None => []
        end).

(** The fields of the manager, the times at which the timers of
    [validatePin] are due, and the store of the global [Storage].
    [timeoutId] holds the time at which the session timer is due. *)
Record Manager := mkManager {
  currentSession : option SessionObject;
  timeoutId : option Z;
  loginAttempts : Z;
  this_lastActivity : Z;
  attemptTimers : list Z;
  storage : Storage.Store B
}.

Definition set_currentSession (c : option SessionObject) (m : Manager) : Manager :=
  mkManager c (timeoutId m) (loginAttempts m) (this_lastActivity m)
            (attemptTimers m) (storage m).

Definition set_timeoutId (t : option Z) (m : Manager) : Manager :=
  mkManager (currentSession m) t (loginAttempts m) (this_lastActivity m)
            (attemptTimers m) (storage m).

Definition set_loginAttempts (n : Z) (m : Manager) : Manager :=
  mkManager (currentSession m) (timeoutId m) n (this_lastActivity m)
            (attemptTimers m) (storage m).

Definition set_lastActivity (t : Z) (m : Manager) : Manager :=
  mkManager (currentSession m) (timeoutId m) (loginAttempts m) t
            (attemptTimers m) (storage m).

Definition set_attemptTimers (l : list Z) (m : Manager) : Manager :=
  mkManager (currentSession m) (timeoutId m) (loginAttempts m)
            (this_lastActivity m) l (storage m).

Definition set_storage (st : Storage.Store B) (m : Manager) : Manager :=
  mkManager (currentSession m) (timeoutId m) (loginAttempts m)
            (this_lastActivity m) (attemptTimers m) st.

Definition constructor (now : Z) (st : Storage.Store B) : Manager :=
  mkManager None None 0%Z now [] st.

Definition saveSession (m : Manager) : Manager :=
  match currentSession m with
  | Some session => set_storage (snd (Storage.setSession (toJSON session) (storage m))) m
  | None => m
  end.

Definition isValidSession (now : Z) (session : SessionObject) : bool :=
  if Storage.isEmpty (id session) || Storage.isEmpty (type session)
     || Z.eqb (createdAt session) 0
  then false
  else if negb (Z.eqb (expiresAt session) 0) && Z.ltb (expiresAt session) now
  then false
  else if negb (isActive session) then false
  else true.

Definition getCurrentSession (now : Z) (m : Manager) : option SessionObject :=
  match currentSession m with
  | Some session => if isValidSession now session then Some session else None
  | None => None
  end.

Definition isAuthenticated (now : Z) (m : Manager) : bool :=
  match getCurrentSession now m with
  | Some _ => true
  | None => false
  end.

Definition clearTimeout (m : Manager) : Manager := set_timeoutId None m.

Definition clearSession (m : Manager) : Manager :=
  let m1 := set_currentSession None m in
  let m2 := set_storage (snd (Storage.clearSession (storage m1))) m1 in
  clearTimeout m2.

Definition endSession (now : Z) (m : Manager) : Manager :=
  let m1 :=
    match currentSession m with
    | Some s =>
        let ended :=
          mkSession (id s) (type s) (createdAt s) (lastActivity s) (expiresAt s)
                    (data s) false (Some now) in
        saveSession (set_currentSession (Some ended) m)
    | None => m
    end in
  clearSession m1.

Definition handleSessionTimeout (now : Z) (m : Manager) : Manager :=
  endSession now m.

(** The delay [setTimeout] waits for: its argument converted to a 32-bit
    signed integer, as the browser converts it, and 0 when that is
    negative.  From 2^31 ms on it is not the delay that was asked for. *)
Definition toInt32 (d : Z) : Z := ((d + 2 ^ 31) mod 2 ^ 32 - 2 ^ 31)%Z.

Definition timerDelay (d : Z) : Z := Z.max 0 (toInt32 d).

Definition resetTimeout (now : Z) (m : Manager) : Manager :=
  let m1 := clearTimeout m in
  match currentSession m1 with
  | Some session =>
      let timeUntilExpiry := (expiresAt session - now)%Z in
      if Z.ltb 0 timeUntilExpiry
      then set_timeoutId (Some (now + timerDelay timeUntilExpiry)%Z) m1
      else handleSessionTimeout now m1
  | None => m1
  end.

Definition createSession (now : Z) (uuid : JsString) (type : JsString)
    (data : list (string * JSON)) (m : Manager) : SessionObject * Manager :=
  let session :=
    mkSession uuid type now now (now + CONFIG.SECURITY.SESSION_TIMEOUT)%Z
              data true None in
  let m1 := set_currentSession (Some session) m in
  let m2 := saveSession m1 in
  (session, resetTimeout now m2).

Definition updateActivity (now : Z) (m : Manager) : Manager :=
  let m1 := set_lastActivity now m in
  match currentSession m1 with
  | Some s =>
      let touched :=
        mkSession (id s) (type s) (createdAt s) (this_lastActivity m1)
                  (this_lastActivity m1 + CONFIG.SECURITY.SESSION_TIMEOUT)%Z
                  (data s) (isActive s) (endedAt s) in
      resetTimeout now (saveSession (set_currentSession (Some touched) m1))
  | None => m1
  end.

Definition extendSession (now : Z) (additionalTime : Z) (m : Manager) : Manager :=
  match currentSession m with
  | Some s =>
      let extended :=
        mkSession (id s) (type s) (createdAt s) (lastActivity s)
                  (now + additionalTime)%Z (data s) (isActive s) (endedAt s) in
      resetTimeout now (saveSession (set_currentSession (Some extended) m))
  | None => m
  end.

Definition validatePin (now : Z) (pin : JSON) (m : Manager) : bool * Manager :=
  if Z.leb CONFIG.SECURITY.MAX_LOGIN_ATTEMPTS (loginAttempts m) then (false, m)
  else
    let (storedPin, st1) := Storage.getPin (storage m) in
    let m1 := set_storage st1 m in
    let isValid := strict_equals pin storedPin in
    if negb isValid
    then
      let m2 := set_loginAttempts (loginAttempts m1 + 1)%Z m1 in
      (isValid, set_attemptTimers (attemptTimers m2 ++ [(now + 60000)%Z]) m2)
    else (isValid, set_loginAttempts 0%Z m1).

Definition destroy (m : Manager) : Manager :=
  set_currentSession None (clearTimeout m).

(** The callback of the session timer, when the browser runs it. *)
Definition sessionTimerFires (now : Z) (m : Manager) : Manager :=
  match timeoutId m with
  | Some due => if Z.leb due now then handleSessionTimeout now m else m
  | None => m
  end.

Fixpoint remove_nth (i : nat) (l : list Z) : list Z :=
  match i, l with
  | _, [] => []
  | O, _ :: rest => rest
  | S i', x :: rest => x :: remove_nth i' rest
  end.

(** The callback of the [i]-th pending timer of [validatePin], when the
    browser runs it. *)
Definition attemptTimerFires (now : Z) (i : nat) (m : Manager) : Manager :=
  match nth_error (attemptTimers m) i with
  | Some due =>
      if Z.leb due now
      then set_attemptTimers (remove_nth i (attemptTimers m))
             (set_loginAttempts (Z.max 0 (loginAttempts m - 1)) m)
      else m
  | None => m
  end.

(** What happens to a manager: the calls of its methods, the callbacks of
    its timers, and a change of the PIN in the store. *)
Inductive Event :=
| CreateSession (now : Z) (uuid type : JsString) (data : list (string * JSON))
| UpdateActivity (now : Z)
| ExtendSession (now additionalTime : Z)
| EndSession (now : Z)
| Destroy
| ValidatePin (now : Z) (pin : JSON)
| SetPin (pin : JSON)
| SessionTimerFires (now : Z)
| AttemptTimerFires (now : Z) (i : nat).

Definition handle (m : Manager) (e : Event) : Manager :=
  match e with
  | CreateSession now uuid type data => snd (createSession now uuid type data m)
  | UpdateActivity now => updateActivity now m
  | ExtendSession now additionalTime => extendSession now additionalTime m
  | EndSession now => endSession now m
  | Destroy => destroy m
  | ValidatePin now pin => snd (validatePin now pin m)
  | SetPin pin => set_storage (snd (Storage.setPin pin (storage m))) m
  | SessionTimerFires now => sessionTimerFires now m
  | AttemptTimerFires now i => attemptTimerFires now i m
  end.

Definition handleAll (m : Manager) (events : list Event) : Manager :=
  fold_left handle events m.

(** The failed attempts counted are between 0 and the maximum, and each
    still has its timer pending. *)
Definition attempts_in_check (m : Manager) : Prop :=
  (0 <= loginAttempts m <= CONFIG.SECURITY.MAX_LOGIN_ATTEMPTS)%Z /\
  (loginAttempts m <= Z.of_nat (List.length (attemptTimers m)))%Z.

(** The session timer is pending exactly while a session is held, and is
    due no later than that session expires; the session held was not
    ended. *)
Definition timer_follows_session (m : Manager) : Prop :=
  match currentSession m with
  | Some session =>
      (exists due, timeoutId m = Some due /\ (due <= expiresAt session)%Z) /\
      isActive session = true /\ endedAt session = None
  | None => timeoutId m = None
  end.

(** The session timer is due at the very time the session held expires. *)
Definition timer_due_at_expiry (m : Manager) : Prop :=
  match currentSession m with
  | Some session => timeoutId m = Some (expiresAt session)
  | None => timeoutId m = None
  end.

(** An extension by less than 2^31 ms, which [setTimeout] takes as it
    is. *)
Definition shortExtension (e : Event) : Prop :=
  match e with
  | ExtendSession _ additionalTime => (additionalTime < 2 ^ 31)%Z
  | _ => True
  end.

End SessionManager.
Arguments Manager : clear implicits.
End Session.

(** A manager just built, over an empty store. *)
Definition freshManager : Session.Manager plainBrowser :=
  Session.constructor 1000%Z emptyStore.

(** A session is created and then extended by five seconds. *)
Definition extendedBriefly : list Session.Event :=
  [ Session.CreateSession 1000%Z (js "id-1") (js "qr") [];
    Session.ExtendSession 2000%Z 5000%Z ].

(** A manager whose session, created at 1000, is held past its expiry. *)
Definition expiredManager : Session.Manager plainBrowser :=
  snd (Session.createSession 1000%Z (js "id-1") (js "qr") [] freshManager).

(** A code that is stored and read back as it is: not empty, on one line,
    and without white space at its ends. *)
Definition isStorableCode (c : JsString) : bool :=
  negb (Storage.isEmpty c)
  && forallb (fun u => negb (u =? 10)%N && negb (u =? 13)%N) c
  && js_eqb (trim c) c.

(** [verifyManualCode] of the scanner: the code as entered, after
    [sanitizeCode], against the approved codes of the store. *)
Record Verification := mkVerification {
  valid : bool;
  approved : bool;
  verified_code : option JsString;
  verification_error : option string
}.

Definition verifyManualCode {B : Browser} (code : JSON) (st : Storage.Store B)
  : Verification * Storage.Store B :=
  match QRScanner.sanitizeCode code with
  | None => (mkVerification false false None (Some "Invalid code format"%string), st)
  | Some sanitizedCode =>
      let (approvedCodes, st1) := Storage.getApprovedCodes st in
      let isApproved := includes sanitizedCode approvedCodes in
      (mkVerification true isApproved (Some sanitizedCode) None, st1)
  end.
(** * Properties *)

(** ** Deciding comparisons of constants *)

Ltac no_decision t :=
  lazymatch t with
  | context [Rle_dec _ _] => fail
  | context [Rlt_dec _ _] => fail
  | _ => idtac
  end.

Ltac rdecide :=
  unfold clamp, Math_max, Math_min, Rmax, Rmin, Rgeb, Rleb, Rltb in *;
  repeat match goal with
         | |- context [Rle_dec ?a ?b] =>
             no_decision a; no_decision b;
             destruct (Rle_dec a b); try (exfalso; lra)
         | |- context [Rlt_dec ?a ?b] =>
             no_decision a; no_decision b;
             destruct (Rlt_dec a b); try (exfalso; lra)
         end.

Lemma max_min_is_clamp (lo hi v : R) :
  lo <= hi -> Math_max lo (Math_min hi v) = clamp lo hi v.
Proof.
  intros Hle. rdecide; try reflexivity; lra.
Qed.

Lemma clamp_in_range (lo hi v : R) :
  lo <= hi -> lo <= clamp lo hi v <= hi.
Proof.
  intros Hle. rdecide; lra.
Qed.

Lemma config_scale_bounds : CONFIG.UI.MIN_SCALE <= CONFIG.UI.MAX_SCALE.
Proof. unfold CONFIG.UI.MIN_SCALE, CONFIG.UI.MAX_SCALE. lra. Qed.

(** ** The store *)

Lemma store_update_same (h : list PropObj) (r : nat) (p q : PropObj) :
  nth_error h r = Some q -> nth_error (store_update r p h) r = Some p.
Proof.
  revert r. induction h as [|a h IH]; intros [|r] Hq; simpl in *;
    try discriminate; auto.
Qed.

Lemma store_update_other (h : list PropObj) (r r' : nat) (p : PropObj) :
  r <> r' -> nth_error (store_update r p h) r' = nth_error h r'.
Proof.
  revert r r'. induction h as [|a h IH]; intros [|r] [|r'] Hne; simpl;
    try reflexivity; try congruence.
  apply IH. congruence.
Qed.

Lemma store_update_length (h : list PropObj) (r : nat) (p : PropObj) :
  List.length (store_update r p h) = List.length h.
Proof.
  revert r. induction h as [|a h IH]; intros [|r]; simpl; auto.
Qed.

(** ** What each handler writes *)

Lemma updateGesture_shape (s : State) :
  updateGesture s = set_lastGesture (lastGesture (updateGesture s)) s.
Proof.
  unfold updateGesture.
  destruct (map_values (pointers s)) as [|p [|q [|x l]]]; try reflexivity.
  destruct s; reflexivity.
Qed.

Lemma handleSinglePointerDown_shape (s : State) (p : Pointer) :
  handleSinglePointerDown s p =
  set_selectedProp (selectedProp (handleSinglePointerDown s p)) s.
Proof.
  unfold handleSinglePointerDown.
  destruct (findPropAtPosition s _ _); reflexivity.
Qed.

Lemma applyGesture_shape (s : State) :
  applyGesture s = set_heap (heap (applyGesture s)) s.
Proof.
  unfold applyGesture.
  destruct (lastGesture s) as [g|]; [|destruct s; reflexivity].
  destruct (selectedProp s) as [r|]; [|destruct s; reflexivity].
  destruct (nth_error (heap s) r); [|destruct s; reflexivity].
  destruct g; reflexivity.
Qed.

Lemma handlePointerDown_shape (s : State) (e : PointerEvent) :
  handlePointerDown s e =
  set_lastGesture (lastGesture (handlePointerDown s e))
    (set_selectedProp (selectedProp (handlePointerDown s e))
       (set_pointers (pointers (handlePointerDown s e)) s)).
Proof.
  unfold handlePointerDown.
  destruct (isActive s); simpl; [|destruct s; reflexivity].
  rewrite updateGesture_shape.
  destruct (Nat.eqb _ 1).
  - rewrite handleSinglePointerDown_shape. reflexivity.
  - reflexivity.
Qed.

Lemma handlePointerUp_shape (s : State) (e : PointerEvent) :
  handlePointerUp s e =
  set_lastGesture (lastGesture (handlePointerUp s e))
    (set_pointers (pointers (handlePointerUp s e)) s).
Proof.
  unfold handlePointerUp.
  destruct (isActive s); simpl; [|destruct s; reflexivity].
  destruct (Nat.eqb _ 0).
  - reflexivity.
  - rewrite updateGesture_shape. reflexivity.
Qed.

Lemma handlePointerMove_shape (s : State) (e : PointerEvent) :
  handlePointerMove s e =
  set_heap (heap (handlePointerMove s e))
    (set_lastGesture (lastGesture (handlePointerMove s e))
       (set_pointers (pointers (handlePointerMove s e)) s)).
Proof.
  unfold handlePointerMove.
  destruct (negb (isActive s) || negb (map_has (pointerId e) (pointers s)));
    [destruct s; reflexivity|].
  rewrite applyGesture_shape, updateGesture_shape. reflexivity.
Qed.

Lemma applyGesture_other (s : State) (r : nat) :
  selectedProp s <> Some r ->
  nth_error (heap (applyGesture s)) r = nth_error (heap s) r.
Proof.
  intros Hsel. unfold applyGesture.
  destruct (lastGesture s) as [g|]; [|reflexivity].
  destruct (selectedProp s) as [r0|]; [|reflexivity].
  destruct (nth_error (heap s) r0); [|reflexivity].
  assert (r0 <> r) by congruence.
  destruct g; simpl; apply store_update_other; assumption.
Qed.

Lemma applyGesture_selected (s : State) (r : nat) (prop : PropObj) (g : Gesture) :
  lastGesture s = Some g ->
  selectedProp s = Some r ->
  nth_error (heap s) r = Some prop ->
  nth_error (heap (applyGesture s)) r =
  Some match g with
       | Translate gx gy =>
           with_position prop (Math_max 0 (Math_min 1 gx)) (Math_max 0 (Math_min 1 gy))
       | Transform cx cy _ _ sc rot =>
           with_pose prop (Math_max 0 (Math_min 1 cx)) (Math_max 0 (Math_min 1 cy))
             (Math_max CONFIG.UI.MIN_SCALE (Math_min CONFIG.UI.MAX_SCALE sc)) rot
       end.
Proof.
  intros Hg Hsel Hp. unfold applyGesture. rewrite Hg, Hsel, Hp.
  destruct g; simpl; eapply store_update_same; eassumption.
Qed.

Lemma map_set_not_nil (k : Z) (v : Pointer) (m : list (Z * Pointer)) :
  map_set k v m <> [].
Proof.
  destruct m as [|[k' v'] m]; simpl; [discriminate|].
  destruct (Z.eqb k k'); discriminate.
Qed.

(** ** Frame of the pointer handlers *)

(** C10. A pointer-down, pointer-up or pointer-cancel event never writes a
    pose: pointer-down writes only the pointer map, the selection and the
    retained gesture, pointer-up and pointer-cancel only the pointer map and
    the retained gesture, so every prop keeps its x, y, scale and rotation.
    A pose is written only by pointer-move, and then only the pose of the
    selected prop. *)
Theorem pose_written_only_by_pointer_move (s : State) (e : PointerEvent) :
  (exists m sel g,
      handlePointerDown s e = set_lastGesture g (set_selectedProp sel (set_pointers m s))) /\
  (exists m g, handlePointerUp s e = set_lastGesture g (set_pointers m s)) /\
  (exists m g, handlePointerCancel s e = set_lastGesture g (set_pointers m s)) /\
  (forall r, pose (heap (handlePointerDown s e)) r = pose (heap s) r) /\
  (forall r, pose (heap (handlePointerUp s e)) r = pose (heap s) r) /\
  (forall r, pose (heap (handlePointerCancel s e)) r = pose (heap s) r) /\
  (forall r, pose (heap (handlePointerMove s e)) r = pose (heap s) r \/
             selectedProp s = Some r).
Proof.
  repeat split.
  - do 3 eexists. apply handlePointerDown_shape.
  - do 2 eexists. apply handlePointerUp_shape.
  - do 2 eexists. apply handlePointerUp_shape.
  - intros r. rewrite handlePointerDown_shape. reflexivity.
  - intros r. rewrite handlePointerUp_shape. reflexivity.
  - intros r. unfold handlePointerCancel. rewrite handlePointerUp_shape. reflexivity.
  - intros r.
    assert (Hdec : selectedProp s = Some r \/ selectedProp s <> Some r).
    { destruct (selectedProp s) as [r0|]; [|right; discriminate].
      destruct (Nat.eq_dec r0 r); [left|right]; congruence. }
    destruct Hdec as [Heq|Hne].
    + right. exact Heq.
    + left. unfold pose, handlePointerMove.
      destruct (negb (isActive s) || negb (map_has (pointerId e) (pointers s)));
        [reflexivity|].
      rewrite applyGesture_other; [rewrite updateGesture_shape; reflexivity|].
      rewrite updateGesture_shape. simpl. congruence.
Qed.

(** ** The compositor writes the canvas and the error log only *)

Lemma keeps_session_refl (s : State) : keeps_session s s.
Proof. repeat split. Qed.

Lemma keeps_session_trans (s1 s2 s3 : State) :
  keeps_session s1 s2 -> keeps_session s2 s3 -> keeps_session s1 s3.
Proof.
  unfold keeps_session. intros H12 H23.
  repeat match goal with H : _ /\ _ |- _ => destruct H end.
  repeat split; congruence.
Qed.

Section Preserved.

Variable rel : State -> State -> Prop.
Hypothesis rel_refl : forall s, rel s s.
Hypothesis rel_trans : forall s1 s2 s3, rel s1 s2 -> rel s2 s3 -> rel s1 s3.
Hypothesis rel_canvas : forall s c, rel s (set_canvas c s).
Hypothesis rel_log : forall s context, rel s (logError context s).

Lemma preserved_ret {A} (a : A) : preserved rel (ret a).
Proof. intros s. apply rel_refl. Qed.

Lemma preserved_throw {A} (err : string) : preserved rel (@throw A err).
Proof. intros s. apply rel_refl. Qed.

Lemma preserved_get : preserved rel get.
Proof. intros s. apply rel_refl. Qed.

Lemma preserved_bind {A B} (m : M A) (k : A -> M B) :
  preserved rel m -> (forall a, preserved rel (k a)) -> preserved rel (bind m k).
Proof.
  intros Hm Hk s. unfold bind. specialize (Hm s).
  destruct (m s) as [s' [a|err]]; simpl in *; [|exact Hm].
  eapply rel_trans; [exact Hm | apply Hk].
Qed.

Lemma preserved_try_catch {A} (body : M A) (handler : string -> M A) :
  preserved rel body -> (forall err, preserved rel (handler err)) ->
  preserved rel (try_catch body handler).
Proof.
  intros Hb Hh s. unfold try_catch. specialize (Hb s).
  destruct (body s) as [s' [a|err]]; simpl in *; [exact Hb|].
  eapply rel_trans; [exact Hb | apply Hh].
Qed.

Lemma preserved_on_canvas (f : Canvas -> Canvas) : preserved rel (on_canvas f).
Proof. intros s. apply rel_canvas. Qed.

Lemma preserved_log (context : string) : preserved rel (modify (logError context)).
Proof. intros s. apply rel_log. Qed.

Lemma preserved_drawImage (image : Image) (dx dy dw dh : R) :
  preserved rel (drawImage image dx dy dw dh).
Proof.
  unfold drawImage. destruct (img_broken image);
    [apply preserved_throw | apply preserved_on_canvas].
Qed.

Lemma preserved_await (loadImage : string -> option Image) (src : string) :
  preserved rel (await_loadImage loadImage src).
Proof.
  unfold await_loadImage. destruct (loadImage src);
    [apply preserved_ret | apply preserved_throw].
Qed.

Lemma preserved_drawProp (prop : PropObj) : preserved rel (drawProp prop).
Proof.
  unfold drawProp, save, translate, rotate, scale, restore.
  repeat first
    [ apply preserved_bind; [|intros ?]
    | apply preserved_get
    | apply preserved_on_canvas
    | apply preserved_drawImage ].
Qed.

Lemma preserved_drawProps (rs : list nat) : preserved rel (drawProps rs).
Proof.
  induction rs as [|r rs IH]; simpl; [apply preserved_ret|].
  apply preserved_bind; [apply preserved_get|]. intros s0.
  apply preserved_bind; [|intros ?; exact IH].
  destruct (nth_error (heap s0) r); [|apply preserved_ret].
  apply preserved_try_catch; [apply preserved_drawProp | intros ?; apply preserved_log].
Qed.

Lemma preserved_drawOverlay (loadImage : string -> option Image) :
  preserved rel (drawOverlay loadImage).
Proof.
  unfold drawOverlay. apply preserved_bind; [apply preserved_get|]. intros s0.
  destruct (currentOverlay s0); [|apply preserved_ret].
  apply preserved_try_catch; [|intros ?; apply preserved_log].
  apply preserved_bind; [apply preserved_await|]. intros img.
  apply preserved_bind; [apply preserved_get|]. intros c.
  apply preserved_drawImage.
Qed.

Lemma preserved_compositeImage (loadImage : string -> option Image) (url : string) :
  preserved rel (compositeImage loadImage url).
Proof.
  unfold compositeImage, setWidth, setHeight, drawImage3.
  apply preserved_bind; [apply preserved_await|]. intros photo.
  apply preserved_bind; [apply preserved_on_canvas|]. intros _.
  apply preserved_bind; [apply preserved_on_canvas|]. intros _.
  apply preserved_bind; [apply preserved_drawImage|]. intros _.
  apply preserved_bind; [apply preserved_drawOverlay|]. intros _.
  apply preserved_bind; [apply preserved_get|]. intros s0.
  apply preserved_drawProps.
Qed.

End Preserved.

Lemma keeps_log_refl (s : State) : keeps_log s s.
Proof. intros x H. exact H. Qed.

Lemma keeps_log_trans (s1 s2 s3 : State) :
  keeps_log s1 s2 -> keeps_log s2 s3 -> keeps_log s1 s3.
Proof. intros H12 H23 x H. apply H23, H12, H. Qed.

Lemma frames_compositeImage (loadImage : string -> option Image) (url : string) (s : State) :
  keeps_session s (fst (compositeImage loadImage url s)).
Proof.
  apply (preserved_compositeImage keeps_session keeps_session_refl keeps_session_trans).
  - intros s0 c. repeat split.
  - intros s0 context. repeat split.
Qed.

Lemma log_kept_drawProps (rs : list nat) (s : State) :
  keeps_log s (fst (drawProps rs s)).
Proof.
  apply (preserved_drawProps keeps_log keeps_log_refl keeps_log_trans).
  - intros s0 c x H. exact H.
  - intros s0 context x H. simpl. apply in_or_app. left. exact H.
Qed.

(** ** The retained gesture *)

Lemma updateGesture_pointers (s : State) : pointers (updateGesture s) = pointers s.
Proof. rewrite updateGesture_shape. reflexivity. Qed.

Lemma step_idle_clean (s : State) (a : Action) :
  idle_clean s -> idle_clean (step s a).
Proof.
  intros [Hact Hclean]. destruct a as [e|e|e|e|prop loaded uuid| |overlay|loadImage url];
    simpl.
  - (* pointer down *)
    split.
    + rewrite handlePointerDown_shape. exact Hact.
    + unfold handlePointerDown. rewrite Hact. simpl.
      rewrite updateGesture_pointers. intros Hnil. exfalso.
      destruct (Nat.eqb _ 1);
        [rewrite handleSinglePointerDown_shape in Hnil|];
        simpl in Hnil; eapply map_set_not_nil; exact Hnil.
  - (* pointer move *)
    unfold handlePointerMove. rewrite Hact. simpl.
    destruct (map_has (pointerId e) (pointers s)); simpl; [|split; assumption].
    split.
    + rewrite applyGesture_shape, updateGesture_shape. exact Hact.
    + rewrite applyGesture_shape. simpl. rewrite updateGesture_pointers. simpl.
      intros Hnil. exfalso. eapply map_set_not_nil; exact Hnil.
  - (* pointer up *)
    split.
    + rewrite handlePointerUp_shape. exact Hact.
    + unfold handlePointerUp. rewrite Hact. simpl.
      destruct (map_delete (pointerId e) (pointers s)) as [|kv m] eqn:Hdel; simpl.
      * reflexivity.
      * rewrite updateGesture_pointers. simpl. discriminate.
  - (* pointer cancel *)
    split.
    + unfold handlePointerCancel. rewrite handlePointerUp_shape. exact Hact.
    + unfold handlePointerCancel, handlePointerUp. rewrite Hact. simpl.
      destruct (map_delete (pointerId e) (pointers s)) as [|kv m] eqn:Hdel; simpl.
      * reflexivity.
      * rewrite updateGesture_pointers. simpl. discriminate.
  - (* addProp *)
    destruct loaded; split; simpl; assumption.
  - (* Delete key *)
    unfold deleteSelectedProp, removeProp.
    destruct (selectedProp s) as [r|]; [|split; assumption].
    destruct (existsb (Nat.eqb r) (props s)); [|split; assumption].
    simpl. destruct (selectedProp s) as [r'|]; [destruct (Nat.eqb r' r)|];
      split; assumption.
  - (* selectOverlay *)
    split; assumption.
  - (* compositeImage *)
    destruct (frames_compositeImage loadImage url s)
      as (_ & _ & _ & _ & Ha & Hp & Hg).
    split; [congruence|]. rewrite Hp, Hg. exact Hclean.
Qed.

Lemma run_idle_clean (actions : list Action) (s : State) :
  idle_clean s -> idle_clean (run s actions).
Proof.
  revert s. induction actions as [|a actions IH]; intros s Hs; simpl.
  - exact Hs.
  - apply IH. apply step_idle_clean. exact Hs.
Qed.

Lemma first_pointer_down_translates (s : State) (e : PointerEvent) :
  isActive s = true -> pointers s = [] ->
  lastGesture (handlePointerDown s e) =
  Some (Translate ((clientX e - rect_left (canvas s)) / offsetWidth (canvas s))
                  ((clientY e - rect_top (canvas s)) / offsetHeight (canvas s))).
Proof.
  intros Hact Hnil. unfold handlePointerDown. rewrite Hact, Hnil. simpl.
  rewrite handleSinglePointerDown_shape. reflexivity.
Qed.

(** C9. In every state a session reaches from the initial one, if no pointer
    is active then no gesture is retained, and the next pointer-down derives
    a translate gesture at the normalized position of that pointer. *)
Theorem no_pointer_no_retained_gesture (c : Canvas) (actions : list Action) :
  pointers (run (initial c) actions) = [] ->
  lastGesture (run (initial c) actions) = None /\
  forall e,
    lastGesture (handlePointerDown (run (initial c) actions) e) =
    Some (Translate
            ((clientX e - rect_left (canvas (run (initial c) actions)))
             / offsetWidth (canvas (run (initial c) actions)))
            ((clientY e - rect_top (canvas (run (initial c) actions)))
             / offsetHeight (canvas (run (initial c) actions)))).
Proof.
  intros Hnil.
  destruct (run_idle_clean actions (initial c)) as [Hact Hclean].
  { split; reflexivity. }
  split.
  - apply Hclean. exact Hnil.
  - intros e. apply first_pointer_down_translates; assumption.
Qed.

Lemma no_pointer_no_retained_gesture_witness :
  pointers (run (initial canvas1000) pinch_and_lift) = [] /\
  lastGesture (run (initial canvas1000) pinch_and_lift) = None /\
  lastGesture
    (handlePointerDown (run (initial canvas1000) pinch_and_lift) (mkEvent 3 250 750 40)) =
  Some (Translate ((250 - 0) / 1000) ((750 - 0) / 1000)).
Proof.
  split; [reflexivity|].
  split.
  - exact (proj1 (no_pointer_no_retained_gesture canvas1000 pinch_and_lift eq_refl)).
  - exact (proj2 (no_pointer_no_retained_gesture canvas1000 pinch_and_lift eq_refl)
             (mkEvent 3 250 750 40)).
Defined.

(** ** Applying a gesture *)

(** C7. When a gesture is applied to the selected prop: a translate gesture
    sets the prop's x and y to the gesture's position clamped into [0, 1],
    whatever the position, and keeps scale and rotation; a transform gesture
    sets x and y to the clamped centre, the scale to the gesture's scale
    clamped into [MIN_SCALE, MAX_SCALE] and the rotation to the gesture's
    rotation as it is.  MIN_SCALE is 0.2, so a raw scale of 0.1 gives 0.2. *)
Theorem gesture_applied_with_clamping
    (s : State) (r : nat) (prop : PropObj) (g : Gesture) :
  lastGesture s = Some g ->
  selectedProp s = Some r ->
  nth_error (heap s) r = Some prop ->
  match g with
  | Translate gx gy =>
      pose (heap (applyGesture s)) r =
      Some (clamp 0 1 gx, clamp 0 1 gy, prop_scale prop, prop_rotation prop)
  | Transform cx cy _ _ sc rot =>
      pose (heap (applyGesture s)) r =
      Some (clamp 0 1 cx, clamp 0 1 cy,
            clamp CONFIG.UI.MIN_SCALE CONFIG.UI.MAX_SCALE sc, rot) /\
      CONFIG.UI.MIN_SCALE = 2 / 10 /\
      clamp CONFIG.UI.MIN_SCALE CONFIG.UI.MAX_SCALE (1 / 10) = 2 / 10
  end.
Proof.
  intros Hg Hsel Hp. unfold pose.
  rewrite (applyGesture_selected s r prop g Hg Hsel Hp).
  destruct g as [gx gy|cx cy d a sc rot]; simpl.
  - rewrite !max_min_is_clamp by lra. reflexivity.
  - rewrite !max_min_is_clamp by (try apply config_scale_bounds; lra).
    split; [reflexivity|]. split; [reflexivity|].
    unfold CONFIG.UI.MIN_SCALE, CONFIG.UI.MAX_SCALE. rdecide. reflexivity.
Qed.

Lemma gesture_applied_with_clamping_witness :
  pose (heap (applyGesture (selectedWith (Transform (3 / 2) (1 / 4) 10 1 (1 / 10) 1))))
       0 =
  Some (1, 1 / 4, 2 / 10, 1) /\
  pose (heap (applyGesture (selectedWith (Translate (-1) (1 / 3))))) 0 =
  Some (0, 1 / 3, 1, 0).
Proof.
  split.
  - destruct (gesture_applied_with_clamping
                (selectedWith (Transform (3 / 2) (1 / 4) 10 1 (1 / 10) 1))
                0 (wideProp 0 false) _ eq_refl eq_refl eq_refl) as (H & _ & Hmin).
    rewrite H, Hmin. repeat f_equal; rdecide; lra.
  - rewrite (gesture_applied_with_clamping
               (selectedWith (Translate (-1) (1 / 3)))
               0 (wideProp 0 false) _ eq_refl eq_refl eq_refl).
    simpl. repeat f_equal; rdecide; lra.
Defined.

(** ** The two-pointer gesture *)

Lemma euclidean_doubles (p1 p2 q1 q2 : Pointer) :
  ptr_x q2 - ptr_x q1 = 2 * (ptr_x p2 - ptr_x p1) ->
  ptr_y q2 - ptr_y q1 = 2 * (ptr_y p2 - ptr_y p1) ->
  euclidean q1 q2 = 2 * euclidean p1 p2.
Proof.
  intros Hx Hy. unfold euclidean. rewrite Hx, Hy.
  set (dx := ptr_x p2 - ptr_x p1). set (dy := ptr_y p2 - ptr_y p1).
  replace ((2 * dx) ^ 2 + (2 * dy) ^ 2) with (2 ^ 2 * (dx ^ 2 + dy ^ 2)) by ring.
  rewrite sqrt_mult.
  - rewrite sqrt_pow2 by lra. reflexivity.
  - lra.
  - pose proof (pow2_ge_0 dx). pose proof (pow2_ge_0 dy). lra.
Qed.

Lemma computeTwoPointerGesture_scale (s : State) (p1 p2 : Pointer) :
  rawScale (Some (computeTwoPointerGesture s p1 p2)) = Some (euclidean p1 p2 / 100).
Proof.
  unfold computeTwoPointerGesture, euclidean, Math_sqrt. simpl.
  do 3 f_equal. ring.
Qed.

(** C8. With exactly two active pointers, the scale of the derived gesture
    is the Euclidean pixel distance between them divided by 100; so in any
    other state, whatever its props and their scales, two pointers twice as
    far apart derive exactly twice that scale. *)
Theorem two_pointer_scale_linear (s : State) (p1 p2 : Pointer) :
  map_values (pointers s) = [p1; p2] ->
  rawScale (lastGesture (updateGesture s)) = Some (euclidean p1 p2 / 100) /\
  forall s' q1 q2,
    map_values (pointers s') = [q1; q2] ->
    euclidean q1 q2 = 2 * euclidean p1 p2 ->
    rawScale (lastGesture (updateGesture s')) = Some (2 * (euclidean p1 p2 / 100)).
Proof.
  intros Hs. split.
  - unfold updateGesture. rewrite Hs. apply computeTwoPointerGesture_scale.
  - intros s' q1 q2 Hs' Hd. unfold updateGesture. rewrite Hs'.
    cbn [lastGesture set_lastGesture].
    rewrite computeTwoPointerGesture_scale, Hd. f_equal. lra.
Qed.

Lemma two_pointer_scale_linear_witness :
  rawScale (lastGesture (updateGesture (pinchAt 100 1))) =
  Some (euclidean (mkPointer 1 400 500 10) (mkPointer 2 (400 + 100) 500 12) / 100) /\
  rawScale (lastGesture (updateGesture (pinchAt 200 3))) =
  Some (2 * (euclidean (mkPointer 1 400 500 10) (mkPointer 2 (400 + 100) 500 12) / 100)).
Proof.
  destruct (two_pointer_scale_linear (pinchAt 100 1) _ _ eq_refl) as [H1 H2].
  split; [exact H1|].
  apply (H2 (pinchAt 200 3) _ _ eq_refl).
  apply euclidean_doubles; simpl; lra.
Defined.

(** ** Evaluating a session *)

Lemma Rleb_true (a b : R) : a <= b -> Rleb a b = true.
Proof.
  intros H. unfold Rleb. destruct (Rle_dec a b); [reflexivity|contradiction].
Qed.

Lemma Rleb_false (a b : R) : b < a -> Rleb a b = false.
Proof.
  intros H. unfold Rleb. destruct (Rle_dec a b); [lra|reflexivity].
Qed.

Lemma Rltb_true (a b : R) : a < b -> Rltb a b = true.
Proof.
  intros H. unfold Rltb. destruct (Rlt_dec a b); [reflexivity|contradiction].
Qed.

Lemma Rltb_false (a b : R) : b <= a -> Rltb a b = false.
Proof.
  intros H. unfold Rltb. destruct (Rlt_dec a b); [lra|reflexivity].
Qed.

Ltac decide_R :=
  repeat match goal with
         | |- context [Rleb ?a ?b] =>
             first [ rewrite (Rleb_true a b) by lra | rewrite (Rleb_false a b) by lra ]
         | |- context [Rltb ?a ?b] =>
             first [ rewrite (Rltb_true a b) by lra | rewrite (Rltb_false a b) by lra ]
         | |- context [Rmax ?a ?b] =>
             first [ rewrite (Rmax_left a b) by lra | rewrite (Rmax_right a b) by lra ]
         | |- context [Rmin ?a ?b] =>
             first [ rewrite (Rmin_left a b) by lra | rewrite (Rmin_right a b) by lra ]
         end.

Ltac unfold_model :=
  cbv [run fold_left step initial
       handlePointerDown handlePointerMove handlePointerUp handlePointerCancel
       handleSinglePointerDown findPropAtPosition findPropIn inBounds
       updateGesture applyGesture computeTwoPointerGesture getPointerFromEvent
       isValidGesture addProp removeProp deleteSelectedProp selectOverlay splice_first
       set_canvas set_heap set_props set_selectedProp set_currentOverlay
       set_pointers set_lastGesture logError
       canvas heap props selectedProp currentOverlay isActive pointers lastGesture errorLog
       offsetWidth offsetHeight rect_left rect_top width height ctm stack drawn
       prop_id prop_name prop_src prop_img prop_x prop_y prop_scale prop_rotation
       prop_width prop_height img_src img_width img_height img_broken
       asset_name asset_src ptr_id ptr_x ptr_y ptr_timestamp
       pointerId clientX clientY now
       map_has map_set map_delete map_values map_size store_update
       with_position with_pose with_rotation pose rawScale
       Rgeb Math_max Math_min Math_sqrt
       nth_error rev app map snd fst List.length existsb negb orb andb
       Nat.eqb Z.eqb Pos.eqb
       CONFIG.UI.STICKER_BASE_SIZE CONFIG.UI.MIN_SCALE CONFIG.UI.MAX_SCALE].

Ltac evaluate := repeat (progress (unfold_model; decide_R)).

(** Runs a session one action at a time, deciding the comparisons of each
    step before the next one reads the state. *)
Ltac eval_run :=
  repeat match goal with
         | |- context [run ?s (?a :: ?rest)] =>
             let H := fresh in
             eassert (H : step s a = _) by (evaluate; reflexivity);
             change (run s (a :: rest)) with (run (step s a) rest);
             rewrite H; clear H
         | |- context [run ?s []] => change (run s []) with s
         end.

(** Equal data up to equal real numbers. *)
Ltac same_numbers :=
  repeat match goal with
         | |- @eq R _ _ => lra
         | |- Some _ = Some _ => apply f_equal
         | |- (_, _) = (_, _) => apply f_equal2
         | |- _ :: _ = _ :: _ => apply f_equal2
         | |- mkDraw _ _ _ _ _ _ = mkDraw _ _ _ _ _ _ => f_equal
         | |- mkMatrix _ _ _ _ _ _ = mkMatrix _ _ _ _ _ _ => f_equal
         end;
  try reflexivity.

(** ** Out-of-range gestures *)

Lemma applyGesture_lastGesture (s : State) :
  lastGesture (applyGesture s) = lastGesture s.
Proof. rewrite applyGesture_shape. reflexivity. Qed.

Lemma isValidGesture_false_clamps (g : Gesture) :
  isValidGesture (Some g) = false ->
  match g with
  | Translate gx gy => clamp 0 1 gx <> gx \/ clamp 0 1 gy <> gy
  | Transform _ _ _ _ sc _ => clamp CONFIG.UI.MIN_SCALE CONFIG.UI.MAX_SCALE sc <> sc
  end.
Proof.
  destruct g as [gx gy|cx cy d a sc rot]; simpl;
    unfold CONFIG.UI.MIN_SCALE, CONFIG.UI.MAX_SCALE, Rgeb, Rleb, clamp, Rltb;
    repeat match goal with
           | |- context [Rle_dec ?a ?b] => destruct (Rle_dec a b)
           | |- context [Rlt_dec ?a ?b] => destruct (Rlt_dec a b)
           end; simpl; intros H; try discriminate; try lra;
    try (left; lra); try (right; lra).
Qed.

(** C4, as the code has it.  A gesture update is never discarded: on a
    pointer-move of a tracked pointer with a prop selected, the retained
    gesture is applied whether or not [isValidGesture] accepts it, with its
    coordinates clamped into [0, 1] and its scale clamped into
    [MIN_SCALE, MAX_SCALE]; when [isValidGesture] rejects the gesture, some
    value written is the clamped one and not the raw one. *)
Theorem out_of_range_gesture_is_clamped
    (s : State) (e : PointerEvent) (r : nat) (prop : PropObj) (g : Gesture) :
  isActive s = true ->
  map_has (pointerId e) (pointers s) = true ->
  selectedProp s = Some r ->
  nth_error (heap s) r = Some prop ->
  lastGesture (handlePointerMove s e) = Some g ->
  pose (heap (handlePointerMove s e)) r =
  Some match g with
       | Translate gx gy =>
           (clamp 0 1 gx, clamp 0 1 gy, prop_scale prop, prop_rotation prop)
       | Transform cx cy _ _ sc rot =>
           (clamp 0 1 cx, clamp 0 1 cy,
            clamp CONFIG.UI.MIN_SCALE CONFIG.UI.MAX_SCALE sc, rot)
       end /\
  (isValidGesture (Some g) = false ->
   match g with
   | Translate gx gy => clamp 0 1 gx <> gx \/ clamp 0 1 gy <> gy
   | Transform _ _ _ _ sc _ => clamp CONFIG.UI.MIN_SCALE CONFIG.UI.MAX_SCALE sc <> sc
   end).
Proof.
  intros Hact Hhas Hsel Hp Hg. split; [|apply isValidGesture_false_clamps].
  unfold handlePointerMove in *. rewrite Hact, Hhas in *. cbn [negb orb] in *.
  rewrite applyGesture_lastGesture in Hg.
  set (s2 := updateGesture _) in *.
  assert (Hsel2 : selectedProp s2 = Some r).
  { unfold s2. rewrite updateGesture_shape. exact Hsel. }
  assert (Hp2 : nth_error (heap s2) r = Some prop).
  { unfold s2. rewrite updateGesture_shape. exact Hp. }
  unfold pose. rewrite (applyGesture_selected s2 r prop g Hg Hsel2 Hp2).
  destruct g as [gx gy|cx cy d a sc rot]; simpl;
    rewrite !max_min_is_clamp by (try apply config_scale_bounds; lra);
    reflexivity.
Qed.

Lemma out_of_range_gesture_is_clamped_witness :
  pose (heap (handlePointerMove (run (initial canvas1000) dragOut)
                                (mkEvent 1 1500 500 20))) 0 =
  Some (clamp 0 1 ((1500 - 0) / 1000), clamp 0 1 ((500 - 0) / 1000), 1, 0).
Proof.
  eassert (Hrun : run (initial canvas1000) dragOut = _).
  { unfold dragOut, canvas1000, crownAsset, crownImage. eval_run. reflexivity. }
  rewrite Hrun.
  match goal with
  | |- pose (heap (handlePointerMove ?s0 ?e0)) _ = _ =>
      exact (proj1 (out_of_range_gesture_is_clamped s0 e0 0 _
                      (Translate ((1500 - 0) / 1000) ((500 - 0) / 1000))
                      eq_refl eq_refl eq_refl eq_refl eq_refl))
  end.
Defined.

(** C4 fails as stated: the crown is picked up at the centre and dragged to
    500 pixels right of the canvas; [isValidGesture] rejects the gesture
    derived, and the crown's x moves from 0.5 to 1 all the same. *)
Lemma out_of_range_drag_moves_prop :
  pose (heap (run (initial canvas1000) dragOut)) 0 = Some (1 / 2, 1 / 2, 1, 0) /\
  isValidGesture
    (lastGesture
       (handlePointerMove (run (initial canvas1000) dragOut) (mkEvent 1 1500 500 20))) =
  false /\
  pose (heap (handlePointerMove (run (initial canvas1000) dragOut)
                                (mkEvent 1 1500 500 20))) 0 =
  Some (1, 1 / 2, 1, 0).
Proof.
  eassert (Hrun : run (initial canvas1000) dragOut = _).
  { unfold dragOut, canvas1000, crownAsset, crownImage. eval_run. reflexivity. }
  rewrite Hrun. repeat split; evaluate; try reflexivity; same_numbers.
Qed.

(** ** Hit testing *)

Lemma inBounds_iff (c : Canvas) (p : PropObj) (x y : R) :
  inBounds c p x y = true <-> axisAlignedBox c p x y.
Proof.
  unfold inBounds, axisAlignedBox, Rgeb, Rleb.
  repeat match goal with
         | |- context [Rle_dec ?a ?b] => destruct (Rle_dec a b)
         end; simpl; split; intros H; try discriminate; try reflexivity;
    try (repeat split; assumption); destruct H as (H1 & H2 & H3 & H4);
    contradiction.
Qed.

Lemma inBounds_false_iff (c : Canvas) (p : PropObj) (x y : R) :
  inBounds c p x y = false <-> ~ axisAlignedBox c p x y.
Proof.
  rewrite <- inBounds_iff. destruct (inBounds c p x y); split; intros H;
    try reflexivity; try discriminate; try (intros H'; discriminate).
  exfalso. apply H. reflexivity.
Qed.

Lemma inBounds_with_rotation (c : Canvas) (p : PropObj) (angle x y : R) :
  inBounds c (with_rotation angle p) x y = inBounds c p x y.
Proof. reflexivity. Qed.

Lemma findPropIn_found (c : Canvas) (h : list PropObj) (x y : R) (visit : list nat) :
  match findPropIn c h x y visit with
  | Some r =>
      exists before after p,
        visit = before ++ r :: after /\
        nth_error h r = Some p /\
        inBounds c p x y = true /\
        forall r' p', In r' before -> nth_error h r' = Some p' ->
                      inBounds c p' x y = false
  | None =>
      forall r p, In r visit -> nth_error h r = Some p -> inBounds c p x y = false
  end.
Proof.
  induction visit as [|r0 visit IH]; simpl.
  - intros r p [].
  - destruct (nth_error h r0) as [p0|] eqn:Hp0.
    + destruct (inBounds c p0 x y) eqn:Hin.
      * exists [], visit, p0. repeat split; try assumption. intros r' p' [].
      * destruct (findPropIn c h x y visit) as [r|].
        -- destruct IH as (before & after & p & Hv & Hp & Hhit & Hmiss).
           exists (r0 :: before), after, p. subst visit.
           repeat split; try assumption.
           intros r' p' [Heq|Hin'] Hp'.
           ++ subst r'. congruence.
           ++ eapply Hmiss; eassumption.
        -- intros r p [Heq|Hin'] Hp.
           ++ subst r. congruence.
           ++ eapply IH; eassumption.
    + destruct (findPropIn c h x y visit) as [r|].
      * destruct IH as (before & after & p & Hv & Hp & Hhit & Hmiss).
        exists (r0 :: before), after, p. subst visit.
        repeat split; try assumption.
        intros r' p' [Heq|Hin'] Hp'.
        -- subst r'. congruence.
        -- eapply Hmiss; eassumption.
      * intros r p [Heq|Hin'] Hp.
        -- subst r. congruence.
        -- eapply IH; eassumption.
Qed.

Lemma findPropIn_turned
    (c : Canvas) (h : list PropObj) (turn : PropObj -> R) (x y : R) (visit : list nat) :
  findPropIn c (map (fun p => with_rotation (turn p) p) h) x y visit =
  findPropIn c h x y visit.
Proof.
  induction visit as [|r visit IH]; simpl; [reflexivity|].
  rewrite nth_error_map. destruct (nth_error h r) as [p|]; simpl.
  - rewrite inBounds_with_rotation, IH. reflexivity.
  - exact IH.
Qed.

Lemma rotatedCrown_found :
  findPropAtPosition rotatedCrown (1 / 2) (59 / 100) = None /\
  findPropAtPosition rotatedCrown (59 / 100) (1 / 2) = Some 0%nat.
Proof.
  unfold rotatedCrown, wideProp, canvas1000. split; evaluate; reflexivity.
Qed.

(** C1, as the code has it.  The hit test ignores rotation: whatever the
    props' rotations are set to, the same prop is found.  A prop is found
    exactly when the point lies in its axis-aligned box, centred at the
    prop's position and as wide and high as the scaled prop; the prop found
    is the topmost such prop, and none is found when no box holds the
    point.  So on a 1000 by 1000 canvas the 200 by 100 prop centred at
    (0.5, 0.5) and rotated by PI/2 is missed at (0.5, 0.59) and hit at
    (0.59, 0.5). *)
Theorem hit_test_is_axis_aligned (s : State) (x y : R) :
  (forall turn : PropObj -> R,
      findPropAtPosition
        (set_heap (map (fun p => with_rotation (turn p) p) (heap s)) s) x y =
      findPropAtPosition s x y) /\
  match findPropAtPosition s x y with
  | Some r =>
      exists below above p,
        props s = below ++ r :: above /\
        nth_error (heap s) r = Some p /\
        axisAlignedBox (canvas s) p x y /\
        forall r' p', In r' above -> nth_error (heap s) r' = Some p' ->
                      ~ axisAlignedBox (canvas s) p' x y
  | None =>
      forall r p, In r (props s) -> nth_error (heap s) r = Some p ->
                  ~ axisAlignedBox (canvas s) p x y
  end /\
  (findPropAtPosition rotatedCrown (1 / 2) (59 / 100) = None /\
   findPropAtPosition rotatedCrown (59 / 100) (1 / 2) = Some 0%nat).
Proof.
  split; [|split; [|exact rotatedCrown_found]].
  - intros turn. unfold findPropAtPosition. simpl. apply findPropIn_turned.
  - unfold findPropAtPosition.
    pose proof (findPropIn_found (canvas s) (heap s) x y (rev (props s))) as H.
    destruct (findPropIn (canvas s) (heap s) x y (rev (props s))) as [r|].
    + destruct H as (before & after & p & Hv & Hp & Hhit & Hmiss).
      exists (rev after), (rev before), p.
      split; [|split; [exact Hp|split; [apply inBounds_iff; exact Hhit|]]].
      * rewrite <- (rev_involutive (props s)), Hv, rev_app_distr. simpl.
        rewrite <- app_assoc. reflexivity.
      * intros r' p' Hin Hp'. apply inBounds_false_iff.
        eapply Hmiss; [|exact Hp']. apply in_rev. exact Hin.
    + intros r p Hin Hp. apply inBounds_false_iff.
      eapply H; [|exact Hp]. apply in_rev. rewrite rev_involutive. exact Hin.
Qed.

Lemma Rabs_le_of (a b : R) : - b <= a <= b -> Rabs a <= b.
Proof. intros H. unfold Rabs. destruct (Rcase_abs a); lra. Qed.

Lemma Rabs_gt_of (a b : R) : b < a \/ a < - b -> b < Rabs a.
Proof. intros H. unfold Rabs. destruct (Rcase_abs a); lra. Qed.

(** C1 fails as stated: on a 1000 by 1000 canvas, the 200 by 100 prop
    centred at (0.5, 0.5) and rotated by PI/2 is missed at (0.5, 0.59) and
    hit at (0.59, 0.5), where the rotation-aware test of the specification
    says hit and miss. *)
Lemma rotated_prop_hit_as_unrotated :
  findPropAtPosition rotatedCrown (1 / 2) (59 / 100) = None /\
  findPropAtPosition rotatedCrown (59 / 100) (1 / 2) = Some 0%nat /\
  specHitTest canvas1000 (wideProp (PI / 2) false) (1 / 2) (59 / 100) = true /\
  specHitTest canvas1000 (wideProp (PI / 2) false) (59 / 100) (1 / 2) = false.
Proof.
  split; [apply rotatedCrown_found|]. split; [apply rotatedCrown_found|].
  unfold wideProp, canvas1000. split.
  - unfold specHitTest. cbn [prop_x prop_y prop_rotation prop_width prop_height
                             prop_scale offsetWidth offsetHeight].
    rewrite cos_PI2, sin_PI2.
    rewrite !Rleb_true; [reflexivity| |]; apply Rabs_le_of; lra.
  - unfold specHitTest. cbn [prop_x prop_y prop_rotation prop_width prop_height
                             prop_scale offsetWidth offsetHeight].
    rewrite cos_PI2, sin_PI2.
    rewrite (Rleb_false (Rabs (_ - _))); [apply andb_false_r|].
    apply Rabs_gt_of. right. lra.
Qed.

(** ** Selection *)

Lemma nth_error_app_new (h : list PropObj) (p : PropObj) :
  nth_error (h ++ [p]) (List.length h) = Some p.
Proof. induction h as [|a h IH]; simpl; auto. Qed.

(** C2, as the code has it.  Adding a prop whose image loads makes the new
    prop the selection, in place of the prop selected before; it is added on
    top, centred, at unit scale and unrotated.  When the image fails to load
    the selection stays.  Besides that the selection changes on the
    pointer-down of a first pointer, to the topmost prop hit or to none on a
    miss, and is cleared when the selected prop is deleted; no other action
    changes it. *)
Theorem selection_after_each_action (s : State) (a : Action) :
  selectedProp (step s a) =
  match a with
  | AddProp _ (Some _) _ => Some (List.length (heap s))
  | PointerDown e =>
      if isActive s &&
         Nat.eqb (map_size (map_set (pointerId e) (getPointerFromEvent s e) (pointers s))) 1
      then findPropAtPosition s
             ((clientX e - rect_left (canvas s)) / offsetWidth (canvas s))
             ((clientY e - rect_top (canvas s)) / offsetHeight (canvas s))
      else selectedProp s
  | DeleteKey =>
      match selectedProp s with
      | Some r => if existsb (Nat.eqb r) (props s) then None else Some r
      | None => None
      end
  | _ => selectedProp s
  end /\
  match a with
  | AddProp _ (Some _) _ =>
      props (step s a) = props s ++ [List.length (heap s)] /\
      pose (heap (step s a)) (List.length (heap s)) = Some (1 / 2, 1 / 2, 1, 0)
  | _ => True
  end.
Proof.
  split.
  - destruct a as [e|e|e|e|prop loaded uuid| |overlay|loadImage url]; simpl.
    + unfold handlePointerDown. destruct (isActive s); simpl; [|reflexivity].
      rewrite updateGesture_shape. simpl.
      destruct (Nat.eqb _ 1); [|reflexivity].
      unfold handleSinglePointerDown.
      change (findPropAtPosition (set_pointers ?m s)) with (findPropAtPosition s).
      simpl. destruct (findPropAtPosition s _ _); reflexivity.
    + rewrite handlePointerMove_shape. reflexivity.
    + rewrite handlePointerUp_shape. reflexivity.
    + unfold handlePointerCancel. rewrite handlePointerUp_shape. reflexivity.
    + destruct loaded; reflexivity.
    + unfold deleteSelectedProp, removeProp.
      destruct (selectedProp s) as [r|] eqn:Hsel; [|exact Hsel].
      destruct (existsb (Nat.eqb r) (props s)); [|exact Hsel].
      simpl. rewrite Hsel, Nat.eqb_refl. reflexivity.
    + reflexivity.
    + destruct (frames_compositeImage loadImage url s) as (_ & _ & H & _).
      exact H.
  - destruct a as [e|e|e|e|prop [img|] uuid| |overlay|loadImage url]; try exact I.
    split; [reflexivity|]. simpl. unfold pose. rewrite nth_error_app_new. reflexivity.
Qed.

(** C2 fails as stated: the crown is added and so selected; adding the
    chain then moves the selection from the crown to the chain. *)
Lemma adding_a_prop_moves_selection :
  selectedProp (run (initial canvas1000) [AddProp crownAsset (Some crownImage) "id-1"]) =
  Some 0%nat /\
  selectedProp (run (initial canvas1000)
                    [AddProp crownAsset (Some crownImage) "id-1";
                     AddProp chainAsset (Some chainImage) "id-2"]) =
  Some 1%nat.
Proof. split; reflexivity. Qed.

(** ** Compositing *)

Lemma drawn_more_nil (s : State) : drawn_more [] s = s.
Proof.
  destruct s as [c h p sel o a m g l]. destruct c. unfold drawn_more. simpl.
  rewrite app_nil_r. reflexivity.
Qed.

Lemma drawn_more_more (ds1 ds2 : list DrawCall) (s : State) :
  drawn_more ds2 (drawn_more ds1 s) = drawn_more (ds1 ++ ds2) s.
Proof.
  unfold drawn_more. simpl. rewrite app_assoc. reflexivity.
Qed.

Lemma drawProp_drawable (prop : PropObj) (s : State) :
  drawable prop ->
  drawProp prop s =
  (drawn_more [propDraw (ctm (canvas s)) (width (canvas s)) (height (canvas s)) prop] s,
   Returned tt).
Proof.
  intros Hok. unfold drawable in Hok.
  unfold drawProp, bind, get, save, translate, rotate, scale, restore, drawImage,
    on_canvas, modify.
  rewrite Hok. destruct s as [c h p sel o a m g l]. destruct c. reflexivity.
Qed.

Lemma drawProp_broken (prop : PropObj) (s : State) :
  img_broken (prop_img prop) = true ->
  drawProp prop s =
  (set_canvas
     (with_ctm (canvas s)
        (propTransform (ctm (canvas s)) (width (canvas s)) (height (canvas s)) prop)
        (ctm (canvas s) :: stack (canvas s))) s,
   Thrown "InvalidStateError").
Proof.
  intros Hbroken.
  unfold drawProp, bind, get, save, translate, rotate, scale, restore, drawImage,
    on_canvas, modify, throw.
  rewrite Hbroken. destruct s as [c h p sel o a m g l]. destruct c. reflexivity.
Qed.

Lemma drawProps_cons (r : nat) (rest : list nat) (prop : PropObj) (s : State) :
  nth_error (heap s) r = Some prop ->
  drawProps (r :: rest) s =
  drawProps rest
    (fst (try_catch (drawProp prop)
            (fun _ => modify (logError "PhotoboothController.compositeImage.prop")) s)).
Proof.
  intros Hp. simpl. unfold bind at 1. unfold get. unfold bind at 1. rewrite Hp.
  unfold try_catch.
  destruct (drawProp prop s) as [s' [[]|err]]; reflexivity.
Qed.

Lemma drawProps_drawable (rs : list nat) (ps : list PropObj) (s : State) :
  resolves s rs ps ->
  Forall drawable ps ->
  drawProps rs s =
  (drawn_more
     (map (propDraw (ctm (canvas s)) (width (canvas s)) (height (canvas s))) ps) s,
   Returned tt).
Proof.
  unfold resolves. revert ps s.
  induction rs as [|r rs IH]; intros ps s Hres Hok;
    inversion Hres as [|r0 p rs0 ps0 Hp Hrest]; subst.
  - simpl. rewrite drawn_more_nil. reflexivity.
  - inversion Hok as [|p0 ps1 Hp_ok Hps_ok]; subst.
    rewrite (drawProps_cons r rs p s Hp).
    unfold try_catch. rewrite (drawProp_drawable p s Hp_ok). cbn [fst].
    match goal with
    | |- drawProps rs ?s1 = _ => rewrite (IH ps0 s1 Hrest Hps_ok)
    end.
    rewrite drawn_more_more. reflexivity.
Qed.

Lemma propTransform_identity (W H : R) (p : PropObj) :
  propTransform identity W H p = poseMatrix W H p.
Proof.
  unfold propTransform, poseMatrix, mscale, mrotate, mtranslate, identity. simpl.
  f_equal; field.
Qed.

Lemma propDraw_identity (W H : R) (p : PropObj) :
  propDraw identity W H p = poseDraw W H p.
Proof.
  unfold propDraw, poseDraw. rewrite propTransform_identity. reflexivity.
Qed.

Lemma drawProps_returns (rs : list nat) (s : State) :
  snd (drawProps rs s) = Returned tt.
Proof.
  revert s. induction rs as [|r rs IH]; intros s; simpl; [reflexivity|].
  unfold bind at 1. unfold get. unfold bind at 1.
  destruct (nth_error (heap s) r) as [prop|].
  - unfold try_catch. destruct (drawProp prop s) as [s' [[]|err]]; apply IH.
  - apply IH.
Qed.

Lemma compositeImage_photo
    (loadImage : string -> option Image) (url : string) (photo : Image) (s : State) :
  loadImage url = Some photo ->
  img_broken photo = false ->
  compositeImage loadImage url s =
  (drawOverlay loadImage ;; s0 <- get ;; drawProps (props s0)) (afterPhoto photo s).
Proof.
  intros Hload Hok.
  cbv beta delta [compositeImage await_loadImage setWidth setHeight drawImage3
                  drawImage bind ret on_canvas modify].
  rewrite Hload. cbv beta iota. rewrite Hok. reflexivity.
Qed.

Lemma compositeImage_no_photo
    (loadImage : string -> option Image) (url : string) (s : State) :
  loadImage url = None ->
  compositeImage loadImage url s = (s, Thrown ("Failed to load image: " ++ url)%string).
Proof.
  intros Hload. unfold compositeImage, await_loadImage. rewrite Hload. reflexivity.
Qed.

Lemma drawOverlay_result (loadImage : string -> option Image) (s : State) :
  ctm (canvas s) = identity ->
  drawOverlay loadImage s =
  (match currentOverlay s with
   | Some overlay =>
       match overlayDraws loadImage s (width (canvas s)) (height (canvas s)) with
       | [] => logError "PhotoboothController.compositeImage.overlay" s
       | ds => drawn_more ds s
       end
   | None => s
   end, Returned tt).
Proof.
  intros Hctm.
  unfold drawOverlay, overlayDraws, bind, get, try_catch, await_loadImage, drawImage.
  destruct (currentOverlay s) as [overlay|]; [|reflexivity].
  destruct (loadImage (asset_src overlay)) as [img|]; [|reflexivity].
  simpl. destruct (img_broken img); [reflexivity|].
  destruct s as [c h p sel o a m g l]. destruct c. simpl in Hctm. subst.
  reflexivity.
Qed.

(** C5. When the photo loads and every prop's image can be drawn,
    composition returns normally on a surface of the photo's size and has
    drawn, in this order: the photo at (0, 0) at its own size; the overlay,
    if one is active and its image is there, stretched from (0, 0) over the
    whole surface; each prop in the order of the prop list, its image centred
    on the origin of a frame placed at (pose.x * width, pose.y * height),
    scaled by pose.scale and rotated by pose.rotation.  The photo and the
    overlay are drawn under the identity transformation, and the
    transformation is the identity again, with nothing saved, at the end. *)
Theorem composite_draws_in_order
    (loadImage : string -> option Image) (url : string) (s : State)
    (photo : Image) (ps : list PropObj) :
  loadImage url = Some photo ->
  img_broken photo = false ->
  resolves s (props s) ps ->
  Forall drawable ps ->
  exists s',
    compositeImage loadImage url s = (s', Returned tt) /\
    width (canvas s') = img_width photo /\
    height (canvas s') = img_height photo /\
    drawn (canvas s') =
      photoDraw photo
      :: overlayDraws loadImage s (img_width photo) (img_height photo)
      ++ map (poseDraw (img_width photo) (img_height photo)) ps /\
    ctm (canvas s') = identity /\
    stack (canvas s') = [].
Proof.
  intros Hload Hphoto Hres Hok.
  rewrite (compositeImage_photo loadImage url photo s Hload Hphoto).
  unfold bind at 1. rewrite drawOverlay_result by reflexivity.
  unfold bind at 1. unfold get.
  assert (Hdraws :
            map (propDraw identity (img_width photo) (img_height photo)) ps =
            map (poseDraw (img_width photo) (img_height photo)) ps).
  { apply map_ext. intros p. apply propDraw_identity. }
  unfold overlayDraws.
  change (currentOverlay (afterPhoto photo s)) with (currentOverlay s).
  destruct (currentOverlay s) as [overlay|].
  - destruct (loadImage (asset_src overlay)) as [img|].
    + destruct (img_broken img).
      * match goal with
        | |- context [drawProps ?rs ?s1] => rewrite (drawProps_drawable rs ps s1 Hres Hok)
        end.
        eexists. split; [reflexivity|]. simpl. rewrite Hdraws. repeat split.
      * match goal with
        | |- context [drawProps ?rs ?s1] => rewrite (drawProps_drawable rs ps s1 Hres Hok)
        end.
        eexists. split; [reflexivity|]. simpl. rewrite Hdraws. repeat split.
    + match goal with
      | |- context [drawProps ?rs ?s1] => rewrite (drawProps_drawable rs ps s1 Hres Hok)
      end.
      eexists. split; [reflexivity|]. simpl. rewrite Hdraws. repeat split.
  - match goal with
    | |- context [drawProps ?rs ?s1] => rewrite (drawProps_drawable rs ps s1 Hres Hok)
    end.
    eexists. split; [reflexivity|]. simpl. rewrite Hdraws. repeat split.
Qed.

Lemma composite_draws_in_order_witness :
  exists s',
    compositeImage studio "data:photo" party = (s', Returned tt) /\
    width (canvas s') = img_width studioPhoto /\
    height (canvas s') = img_height studioPhoto /\
    drawn (canvas s') =
      photoDraw studioPhoto
      :: overlayDraws studio party (img_width studioPhoto) (img_height studioPhoto)
      ++ map (poseDraw (img_width studioPhoto) (img_height studioPhoto))
             [placed "first" (1 / 4) (1 / 4) 1 0 false;
              placed "second" (1 / 2) (3 / 4) 2 (PI / 2) false] /\
    ctm (canvas s') = identity /\
    stack (canvas s') = [].
Proof.
  apply (composite_draws_in_order studio "data:photo" party studioPhoto
           [placed "first" (1 / 4) (1 / 4) 1 0 false;
            placed "second" (1 / 2) (3 / 4) 2 (PI / 2) false]
           eq_refl eq_refl).
  - repeat constructor.
  - repeat constructor.
Defined.

(** ** Failures while compositing *)

Lemma try_drawProp (prop : PropObj) (s : State) :
  fst (try_catch (drawProp prop)
         (fun _ => modify (logError "PhotoboothController.compositeImage.prop")) s) =
  if img_broken (prop_img prop)
  then
    logError "PhotoboothController.compositeImage.prop"
      (set_canvas
         (with_ctm (canvas s)
            (propTransform (ctm (canvas s)) (width (canvas s)) (height (canvas s)) prop)
            (ctm (canvas s) :: stack (canvas s))) s)
  else
    drawn_more [propDraw (ctm (canvas s)) (width (canvas s)) (height (canvas s)) prop] s.
Proof.
  unfold try_catch. destruct (img_broken (prop_img prop)) eqn:Hb.
  - rewrite (drawProp_broken prop s Hb). reflexivity.
  - rewrite (drawProp_drawable prop s Hb). reflexivity.
Qed.

Lemma drawProps_dangling (r : nat) (rest : list nat) (s : State) :
  nth_error (heap s) r = None ->
  drawProps (r :: rest) s = drawProps rest s.
Proof.
  intros Hp. simpl. unfold bind at 1. unfold get. unfold bind at 1. rewrite Hp.
  reflexivity.
Qed.

Lemma drawProps_same_canvas (rs : list nat) (s1 s2 : State) :
  canvas s1 = canvas s2 ->
  heap s1 = heap s2 ->
  canvas (fst (drawProps rs s1)) = canvas (fst (drawProps rs s2)).
Proof.
  revert s1 s2. induction rs as [|r rs IH]; intros s1 s2 Hc Hh; [exact Hc|].
  destruct (nth_error (heap s1) r) as [prop|] eqn:Hp.
  - rewrite (drawProps_cons r rs prop s1 Hp).
    rewrite Hh in Hp. rewrite (drawProps_cons r rs prop s2 Hp).
    rewrite !try_drawProp.
    apply IH; destruct (img_broken (prop_img prop)); simpl; rewrite ?Hc; auto.
  - rewrite (drawProps_dangling r rs s1 Hp).
    rewrite Hh in Hp. rewrite (drawProps_dangling r rs s2 Hp).
    apply IH; assumption.
Qed.

Lemma compositeImage_broken_photo
    (loadImage : string -> option Image) (url : string) (photo : Image) (s : State) :
  loadImage url = Some photo ->
  img_broken photo = true ->
  compositeImage loadImage url s =
  (set_canvas
     (mkCanvas (offsetWidth (canvas s)) (offsetHeight (canvas s))
               (rect_left (canvas s)) (rect_top (canvas s))
               (img_width photo) (img_height photo) identity [] []) s,
   Thrown "InvalidStateError").
Proof.
  intros Hload Hbroken.
  cbv beta delta [compositeImage await_loadImage setWidth setHeight drawImage3
                  drawImage bind ret on_canvas modify throw].
  rewrite Hload. cbv beta iota. rewrite Hbroken. reflexivity.
Qed.

(** C3, as the code has it.  When the active overlay's image fails to load,
    the failure is caught and logged and composition goes on without the
    overlay: the attempt ends as it ends with no overlay active, on the same
    canvas; when the photo loads and can be drawn it returns normally, with
    the overlay's failure in the error log.  What is surfaced to the caller
    is a failure to load the photo. *)
Theorem overlay_failure_is_absorbed
    (loadImage : string -> option Image) (url : string) (s : State) (overlay : Asset) :
  currentOverlay s = Some overlay ->
  loadImage (asset_src overlay) = None ->
  snd (compositeImage loadImage url s) =
    snd (compositeImage loadImage url (set_currentOverlay None s)) /\
  canvas (fst (compositeImage loadImage url s)) =
    canvas (fst (compositeImage loadImage url (set_currentOverlay None s))) /\
  (forall photo,
      loadImage url = Some photo -> img_broken photo = false ->
      snd (compositeImage loadImage url s) = Returned tt /\
      In "PhotoboothController.compositeImage.overlay"%string
         (errorLog (fst (compositeImage loadImage url s)))) /\
  (loadImage url = None ->
   compositeImage loadImage url s = (s, Thrown ("Failed to load image: " ++ url)%string)).
Proof.
  intros Hoverlay Hfail.
  assert (Hgood : forall photo,
             loadImage url = Some photo -> img_broken photo = false ->
             compositeImage loadImage url s =
             drawProps (props s)
               (logError "PhotoboothController.compositeImage.overlay"
                  (afterPhoto photo s))).
  { intros photo Hload Hphoto.
    rewrite (compositeImage_photo loadImage url photo s Hload Hphoto).
    unfold bind at 1. rewrite drawOverlay_result by reflexivity.
    unfold overlayDraws.
    change (currentOverlay (afterPhoto photo s)) with (currentOverlay s).
    rewrite Hoverlay, Hfail. reflexivity. }
  assert (Hnone : forall photo,
             loadImage url = Some photo -> img_broken photo = false ->
             compositeImage loadImage url (set_currentOverlay None s) =
             drawProps (props s) (afterPhoto photo (set_currentOverlay None s))).
  { intros photo Hload Hphoto.
    rewrite (compositeImage_photo loadImage url photo _ Hload Hphoto).
    unfold bind at 1. rewrite drawOverlay_result by reflexivity. reflexivity. }
  repeat split.
  - destruct (loadImage url) as [photo|] eqn:Hload.
    + destruct (img_broken photo) eqn:Hphoto.
      * rewrite !(compositeImage_broken_photo loadImage url photo) by assumption.
        reflexivity.
      * rewrite (Hgood photo eq_refl Hphoto), (Hnone photo eq_refl Hphoto).
        rewrite !drawProps_returns. reflexivity.
    + rewrite !compositeImage_no_photo by assumption. reflexivity.
  - destruct (loadImage url) as [photo|] eqn:Hload.
    + destruct (img_broken photo) eqn:Hphoto.
      * rewrite !(compositeImage_broken_photo loadImage url photo) by assumption.
        reflexivity.
      * rewrite (Hgood photo eq_refl Hphoto), (Hnone photo eq_refl Hphoto).
        apply drawProps_same_canvas; reflexivity.
    + rewrite !compositeImage_no_photo by assumption. reflexivity.
  - rewrite (Hgood photo) by assumption. apply drawProps_returns.
  - rewrite (Hgood photo) by assumption. apply log_kept_drawProps.
    simpl. apply in_or_app. right. left. reflexivity.
  - apply compositeImage_no_photo.
Qed.

Lemma overlay_failure_is_absorbed_witness :
  snd (compositeImage studio "data:photo" framed) =
    snd (compositeImage studio "data:photo" (set_currentOverlay None framed)) /\
  canvas (fst (compositeImage studio "data:photo" framed)) =
    canvas (fst (compositeImage studio "data:photo" (set_currentOverlay None framed))) /\
  snd (compositeImage studio "data:photo" framed) = Returned tt /\
  In "PhotoboothController.compositeImage.overlay"%string
     (errorLog (fst (compositeImage studio "data:photo" framed))).
Proof.
  destruct (overlay_failure_is_absorbed studio "data:photo" framed missingOverlay
              eq_refl eq_refl) as (Hout & Hcanvas & Hgood & _).
  split; [exact Hout|]. split; [exact Hcanvas|].
  exact (Hgood studioPhoto eq_refl eq_refl).
Defined.

(** C3 fails as stated: with an overlay whose image does not load, the
    composite attempt returns normally; the photo and the prop are drawn, the
    overlay is not, and the overlay's failure is in the error log. *)
Lemma overlay_failure_not_surfaced :
  exists s',
    compositeImage studio "data:photo" framed = (s', Returned tt) /\
    map dc_image (drawn (canvas s')) =
      [studioPhoto; prop_img (placed "first" (1 / 4) (1 / 4) 1 0 false)] /\
    errorLog s' = ["PhotoboothController.compositeImage.overlay"%string].
Proof.
  eexists. split; [|split].
  - rewrite (compositeImage_photo studio "data:photo" studioPhoto framed eq_refl eq_refl).
    unfold bind at 1. rewrite drawOverlay_result by reflexivity.
    unfold bind at 1. unfold get.
    match goal with
    | |- context [drawProps ?rs ?s1] =>
        rewrite (drawProps_drawable rs [placed "first" (1 / 4) (1 / 4) 1 0 false] s1)
    end.
    + reflexivity.
    + repeat constructor.
    + repeat constructor.
  - reflexivity.
  - reflexivity.
Qed.

(** ** Invariants of a session *)

Lemma splice_first_subset (r r' : nat) (l : list nat) :
  In r' (splice_first r l) -> In r' l.
Proof.
  induction l as [|a l IH]; simpl; [auto|].
  destruct (Nat.eqb a r); simpl; intuition.
Qed.

Lemma findPropAtPosition_in_props (s : State) (x y : R) (r : nat) :
  findPropAtPosition s x y = Some r -> In r (props s).
Proof.
  unfold findPropAtPosition. intros Hfound.
  pose proof (findPropIn_found (canvas s) (heap s) x y (rev (props s))) as H.
  rewrite Hfound in H. destruct H as (before & after & p & Hvisit & _).
  apply in_rev. rewrite Hvisit. apply in_or_app. right. left. reflexivity.
Qed.

Lemma store_update_lookup (h : list PropObj) (r r' : nat) (p q : PropObj) :
  nth_error (store_update r p h) r' = Some q ->
  q = p \/ nth_error h r' = Some q.
Proof.
  revert r r'. induction h as [|a h IH]; intros r r' Hq.
  - destruct r, r'; simpl in Hq; discriminate.
  - destruct r as [|r], r' as [|r']; simpl in *.
    + left. congruence.
    + right. exact Hq.
    + right. exact Hq.
    + apply (IH r r' Hq).
Qed.

Lemma step_well_formed (s : State) (a : Action) :
  well_formed s -> well_formed (step s a).
Proof.
  intros [Hrefs Hsel].
  destruct a as [e|e|e|e|prop loaded uuid| |overlay|loadImage url]; simpl.
  - (* pointer down *)
    rewrite handlePointerDown_shape. split; [exact Hrefs|]. simpl.
    unfold handlePointerDown. destruct (isActive s); simpl; [|exact Hsel].
    rewrite updateGesture_shape. simpl.
    destruct (Nat.eqb _ 1); [|exact Hsel].
    unfold handleSinglePointerDown.
    destruct (findPropAtPosition _ _ _) as [r0|] eqn:Hfound; simpl.
    + intros r Hr. injection Hr as <-.
      apply (findPropAtPosition_in_props _ _ _ _ Hfound).
    + discriminate.
  - (* pointer move *)
    rewrite handlePointerMove_shape. split; simpl; [|exact Hsel].
    intros r Hr. unfold handlePointerMove.
    destruct (negb (isActive s) || negb (map_has (pointerId e) (pointers s)));
      [apply Hrefs; exact Hr|].
    unfold applyGesture.
    destruct (lastGesture (updateGesture _)) as [g|];
      [|rewrite updateGesture_shape; apply Hrefs; exact Hr].
    destruct (selectedProp (updateGesture _)) as [r0|];
      [|rewrite updateGesture_shape; apply Hrefs; exact Hr].
    destruct (nth_error (heap (updateGesture _)) r0) as [p0|];
      [|rewrite updateGesture_shape; apply Hrefs; exact Hr].
    destruct g; simpl; rewrite store_update_length, updateGesture_shape;
      apply Hrefs; exact Hr.
  - (* pointer up *)
    rewrite handlePointerUp_shape. split; assumption.
  - (* pointer cancel *)
    unfold handlePointerCancel. rewrite handlePointerUp_shape. split; assumption.
  - (* addProp *)
    destruct loaded as [img|]; [|split; assumption].
    split; simpl.
    + intros r Hr. rewrite length_app. simpl.
      apply in_app_or in Hr. destruct Hr as [Hr|[<-|[]]].
      * specialize (Hrefs r Hr). apply Nat.lt_lt_add_r. exact Hrefs.
      * rewrite Nat.add_1_r. apply Nat.lt_succ_diag_r.
    + intros r Hr. injection Hr as <-. apply in_or_app. right. left. reflexivity.
  - (* Delete key *)
    assert (Hwf : well_formed s) by (split; assumption).
    unfold deleteSelectedProp, removeProp.
    destruct (selectedProp s) as [r0|] eqn:Hs0; [|exact Hwf].
    destruct (existsb (Nat.eqb r0) (props s)); [|exact Hwf].
    simpl. rewrite Hs0, Nat.eqb_refl. split; simpl.
    + intros r Hr. apply Hrefs. eapply splice_first_subset. exact Hr.
    + discriminate.
  - (* selectOverlay *)
    split; assumption.
  - (* compositeImage *)
    destruct (frames_compositeImage loadImage url s)
      as (Hh & Hp & Hs & _).
    split.
    + intros r Hr. rewrite Hh. apply Hrefs. rewrite <- Hp. exact Hr.
    + intros r Hr. rewrite Hp. apply Hsel. rewrite <- Hs. exact Hr.
Qed.

Lemma run_well_formed (actions : list Action) (s : State) :
  well_formed s -> well_formed (run s actions).
Proof.
  revert s. induction actions as [|a actions IH]; intros s Hs; simpl.
  - exact Hs.
  - apply IH. apply step_well_formed. exact Hs.
Qed.

Lemma well_formed_resolves (h : list PropObj) (rs : list nat) :
  (forall r, In r rs -> (r < List.length h)%nat) ->
  exists ps, Forall2 (fun r p => nth_error h r = Some p) rs ps.
Proof.
  induction rs as [|r rs IH]; intros Hrefs.
  - exists []. constructor.
  - destruct IH as [ps Hps]; [intros r' Hr'; apply Hrefs; right; exact Hr'|].
    destruct (nth_error h r) as [p|] eqn:Hp.
    + exists (p :: ps). constructor; assumption.
    + apply nth_error_None in Hp. specialize (Hrefs r (or_introl eq_refl)).
      exfalso. apply (Nat.lt_irrefl r).
      eapply Nat.lt_le_trans; eassumption.
Qed.

Lemma clamped_in_unit (v : R) : 0 <= Math_max 0 (Math_min 1 v) <= 1.
Proof. rewrite max_min_is_clamp by lra. apply clamp_in_range. lra. Qed.

Lemma clamped_in_scale (v : R) :
  CONFIG.UI.MIN_SCALE
  <= Math_max CONFIG.UI.MIN_SCALE (Math_min CONFIG.UI.MAX_SCALE v)
  <= CONFIG.UI.MAX_SCALE.
Proof.
  rewrite max_min_is_clamp by apply config_scale_bounds.
  apply clamp_in_range. apply config_scale_bounds.
Qed.

Lemma applyGesture_poses_in_range (s : State) :
  poses_in_range s -> poses_in_range (applyGesture s).
Proof.
  intros Hs. unfold applyGesture.
  destruct (lastGesture s) as [g|]; [|exact Hs].
  destruct (selectedProp s) as [r0|]; [|exact Hs].
  destruct (nth_error (heap s) r0) as [p0|] eqn:Hp0; [|exact Hs].
  destruct (Hs r0 p0 Hp0) as (Hx & Hy & Hsc).
  destruct g as [gx gy|cx cy d a sc rot]; intros r p Hp; simpl in Hp;
    apply store_update_lookup in Hp; destruct Hp as [->|Hp];
    try (eapply Hs; exact Hp); unfold pose_in_range; simpl.
  - split; [apply clamped_in_unit|]. split; [apply clamped_in_unit|exact Hsc].
  - split; [apply clamped_in_unit|]. split; [apply clamped_in_unit|].
    apply clamped_in_scale.
Qed.

Lemma step_poses_in_range (s : State) (a : Action) :
  poses_in_range s -> poses_in_range (step s a).
Proof.
  intros Hs.
  destruct a as [e|e|e|e|prop loaded uuid| |overlay|loadImage url]; simpl.
  - rewrite handlePointerDown_shape. exact Hs.
  - unfold handlePointerMove.
    destruct (negb (isActive s) || negb (map_has (pointerId e) (pointers s)));
      [exact Hs|].
    apply applyGesture_poses_in_range. rewrite updateGesture_shape. exact Hs.
  - rewrite handlePointerUp_shape. exact Hs.
  - unfold handlePointerCancel. rewrite handlePointerUp_shape. exact Hs.
  - destruct loaded as [img|]; [|exact Hs].
    intros r p Hp. simpl in Hp.
    destruct (Nat.lt_ge_cases r (List.length (heap s))) as [Hlt|Hge].
    + rewrite nth_error_app1 in Hp by exact Hlt. eapply Hs. exact Hp.
    + rewrite nth_error_app2 in Hp by exact Hge.
      destruct (r - List.length (heap s))%nat as [|k]; simpl in Hp.
      * injection Hp as <-. unfold pose_in_range. simpl.
        unfold CONFIG.UI.MIN_SCALE, CONFIG.UI.MAX_SCALE. lra.
      * destruct k; discriminate.
  - unfold deleteSelectedProp, removeProp.
    destruct (selectedProp s) as [r0|] eqn:Hs0; [|exact Hs].
    destruct (existsb (Nat.eqb r0) (props s)); [|exact Hs].
    simpl. rewrite Hs0, Nat.eqb_refl. exact Hs.
  - exact Hs.
  - destruct (frames_compositeImage loadImage url s) as (Hh & _).
    intros r p Hp. rewrite Hh in Hp. eapply Hs. exact Hp.
Qed.

(** X1. In every state a session reaches from the initial one, each
    reference of the prop list points to a prop object of the store, and the
    selection, when there is one, is a prop of the list. *)
Theorem session_well_formed (c : Canvas) (actions : list Action) :
  well_formed (run (initial c) actions) /\
  exists ps,
    resolves (run (initial c) actions) (props (run (initial c) actions)) ps.
Proof.
  assert (Hwf : well_formed (run (initial c) actions)).
  { apply run_well_formed. split; simpl.
    - intros r [].
    - discriminate. }
  split; [exact Hwf|].
  apply well_formed_resolves. apply Hwf.
Qed.

(** X2. In every state a session reaches from the initial one, on a canvas
    laid out with a size that is not zero, every prop's pose has x and y in
    [0, 1] and its scale in [MIN_SCALE, MAX_SCALE]. *)
Theorem session_poses_in_range (c : Canvas) (actions : list Action) :
  laid_out c ->
  poses_in_range (run (initial c) actions).
Proof.
  intros _.
  assert (Hrun : forall acts s, poses_in_range s -> poses_in_range (run s acts)).
  { induction acts as [|a acts IH]; intros s Hs; simpl; [exact Hs|].
    apply IH. apply step_poses_in_range. exact Hs. }
  apply Hrun. intros r p Hp. simpl in Hp. destruct r; discriminate.
Qed.

Lemma session_poses_in_range_witness :
  exists p,
    nth_error (heap (run (initial canvas1000) dragFar)) 0 = Some p /\
    pose_in_range p.
Proof.
  eassert (Hp : nth_error (heap (run (initial canvas1000) dragFar)) 0 = Some _).
  { unfold dragFar, canvas1000, crownAsset, crownImage. eval_run. reflexivity. }
  eexists. split; [exact Hp|].
  assert (Hlaid : laid_out canvas1000) by (unfold laid_out; simpl; lra).
  exact (session_poses_in_range canvas1000 dragFar Hlaid 0%nat _ Hp).
Defined.

(** ** Props whose image does not load *)







(** * Further properties of the gesture handler *)

(** ** The angle and the distance of two pointers *)

Lemma atan2_range (y x : R) : - PI < Math_atan2 y x <= PI.
Proof.
  pose proof PI_RGT_0 as Hpi.
  unfold Math_atan2, Rltb, Rleb.
  destruct (Rlt_dec 0 x) as [Hx|Hx].
  - pose proof (atan_bound (y / x)). lra.
  - destruct (Rlt_dec x 0) as [Hx'|Hx'].
    + destruct (Rle_dec 0 y) as [Hy|Hy].
      * assert (Ht : y / x <= 0).
        { assert (Hinv : / x < 0) by (apply Rinv_lt_0_compat; exact Hx').
          unfold Rdiv. nra. }
        pose proof (atan_bound (y / x)).
        assert (atan (y / x) <= 0).
        { destruct Ht as [Ht|Ht].
          - left. rewrite <- atan_0. apply atan_increasing. exact Ht.
          - rewrite Ht, atan_0. lra. }
        lra.
      * assert (Ht : 0 < y / x).
        { assert (Hinv : / x < 0) by (apply Rinv_lt_0_compat; exact Hx').
          unfold Rdiv. nra. }
        pose proof (atan_bound (y / x)).
        assert (0 < atan (y / x)).
        { rewrite <- atan_0. apply atan_increasing. exact Ht. }
        lra.
    + destruct (Rlt_dec 0 y); [lra|]. destruct (Rlt_dec y 0); lra.
Qed.

Lemma sqrt_scaled (a t : R) :
  0 < a -> sqrt (a * a + (a * t) * (a * t)) = a * sqrt (1 + t²).
Proof.
  intros Ha. unfold Rsqr.
  replace (a * a + a * t * (a * t)) with (a² * (1 + t * t)) by (unfold Rsqr; ring).
  rewrite sqrt_mult.
  - rewrite sqrt_Rsqr by lra. reflexivity.
  - apply Rle_0_sqr.
  - pose proof (Rle_0_sqr t) as Ht. unfold Rsqr in Ht. lra.
Qed.

Lemma sqrt_one_plus_sqr_pos (t : R) : 0 < sqrt (1 + t²).
Proof. apply sqrt_lt_R0. pose proof (Rle_0_sqr t). lra. Qed.

(** The distance and the angle are the polar coordinates of the offset. *)
Lemma polar_coordinates (dx dy : R) :
  Math_sqrt (dx * dx + dy * dy) * cos (Math_atan2 dy dx) = dx /\
  Math_sqrt (dx * dx + dy * dy) * sin (Math_atan2 dy dx) = dy.
Proof.
  unfold Math_sqrt, Math_atan2, Rltb, Rleb.
  destruct (Rlt_dec 0 dx) as [Hx|Hx].
  - (* to the right *)
    set (t := dy / dx).
    assert (Hdy : dy = dx * t) by (unfold t; field; lra).
    clearbody t. subst dy. rewrite sqrt_scaled by exact Hx.
    rewrite cos_atan, sin_atan.
    pose proof (sqrt_one_plus_sqr_pos t) as Hs.
    split; field; lra.
  - destruct (Rlt_dec dx 0) as [Hx'|Hx'].
    + (* to the left *)
      set (t := dy / dx).
      assert (Hdy : dy = dx * t) by (unfold t; field; lra).
      clearbody t. subst dy.
      assert (Hd : sqrt (dx * dx + dx * t * (dx * t)) = - dx * sqrt (1 + t²)).
      { rewrite <- (sqrt_scaled (- dx) t) by lra. f_equal. ring. }
      rewrite Hd.
      pose proof (sqrt_one_plus_sqr_pos t) as Hs.
      destruct (Rle_dec 0 (dx * t)).
      * rewrite neg_cos, neg_sin, cos_atan, sin_atan.
        split; field; lra.
      * unfold Rminus. rewrite cos_plus, sin_plus, cos_neg, sin_neg, cos_PI, sin_PI.
        rewrite cos_atan, sin_atan.
        split; field; lra.
    + (* straight up or down, or nowhere *)
      assert (Hx0 : dx = 0) by lra. subst dx.
      replace (0 * 0 + dy * dy) with (dy²) by (unfold Rsqr; ring).
      rewrite sqrt_Rsqr_abs.
      destruct (Rlt_dec 0 dy) as [Hy|Hy].
      * rewrite cos_PI2, sin_PI2, Rabs_right by lra. lra.
      * destruct (Rlt_dec dy 0) as [Hy'|Hy'].
        -- rewrite cos_neg, sin_neg, cos_PI2, sin_PI2, Rabs_left by lra. lra.
        -- assert (dy = 0) by lra. subst dy. rewrite Rabs_R0. lra.
Qed.

Lemma atan2_swapped (dy dx : R) :
  dx <> 0 \/ dy <> 0 ->
  Math_atan2 (- dy) (- dx) = Math_atan2 dy dx + PI \/
  Math_atan2 (- dy) (- dx) = Math_atan2 dy dx - PI.
Proof.
  intros Hne.
  assert (Hq : dx <> 0 -> - dy / - dx = dy / dx) by (intros; field; assumption).
  unfold Math_atan2, Rltb, Rleb.
  repeat match goal with
         | |- context [Rlt_dec ?a ?b] => destruct (Rlt_dec a b)
         | |- context [Rle_dec ?a ?b] => destruct (Rle_dec a b)
         end; try lra; rewrite ?Hq by lra; lra.
Qed.

(** X3. The gesture derived from two pointers carries the values of the
    utility methods: its distance is [getDistance], its angle and rotation
    are [getAngle], its centre is [getCenter] divided by the canvas's layout
    size.  Distance and angle are the polar coordinates of the offset from
    the first pointer to the second: distance * cos(angle) and
    distance * sin(angle) are the offset's x and y; the distance is never
    negative and the angle lies in (-PI, PI]. *)
Theorem two_pointer_gesture_is_polar (s : State) (p1 p2 : Pointer) :
  computeTwoPointerGesture s p1 p2 =
    Transform (pt_x (getCenter p1 p2) / offsetWidth (canvas s))
              (pt_y (getCenter p1 p2) / offsetHeight (canvas s))
              (getDistance p1 p2) (getAngle p1 p2)
              (getDistance p1 p2 / 100) (getAngle p1 p2) /\
  getDistance p1 p2 * cos (getAngle p1 p2) = ptr_x p2 - ptr_x p1 /\
  getDistance p1 p2 * sin (getAngle p1 p2) = ptr_y p2 - ptr_y p1 /\
  0 <= getDistance p1 p2 /\
  - PI < getAngle p1 p2 <= PI.
Proof.
  split; [reflexivity|].
  unfold getDistance, getAngle.
  destruct (polar_coordinates (ptr_x p2 - ptr_x p1) (ptr_y p2 - ptr_y p1)) as [Hc Hs].
  split; [exact Hc|]. split; [exact Hs|].
  split; [apply sqrt_pos|apply atan2_range].
Qed.

(** X4. Which of two pointers comes first matters to the rotation only: with
    the two pointers exchanged the derived gesture has the same centre, the
    same distance and the same scale, and, when the pointers are at
    different places, a rotation that differs by exactly half a turn. *)
Theorem exchanged_pointers_turn_half (s : State) (p1 p2 : Pointer) :
  ptr_x p1 <> ptr_x p2 \/ ptr_y p1 <> ptr_y p2 ->
  exists cx cy d a a',
    computeTwoPointerGesture s p1 p2 = Transform cx cy d a (d / 100) a /\
    computeTwoPointerGesture s p2 p1 = Transform cx cy d a' (d / 100) a' /\
    (a' = a + PI \/ a' = a - PI).
Proof.
  intros Hne.
  exists ((ptr_x p1 + ptr_x p2) / 2 / offsetWidth (canvas s)),
         ((ptr_y p1 + ptr_y p2) / 2 / offsetHeight (canvas s)),
         (getDistance p1 p2), (getAngle p1 p2), (getAngle p2 p1).
  split; [reflexivity|]. split.
  - unfold computeTwoPointerGesture, getDistance, getAngle.
    replace (ptr_x p2 + ptr_x p1) with (ptr_x p1 + ptr_x p2) by ring.
    replace (ptr_y p2 + ptr_y p1) with (ptr_y p1 + ptr_y p2) by ring.
    replace ((ptr_x p1 - ptr_x p2) * (ptr_x p1 - ptr_x p2)
             + (ptr_y p1 - ptr_y p2) * (ptr_y p1 - ptr_y p2))
      with ((ptr_x p2 - ptr_x p1) * (ptr_x p2 - ptr_x p1)
            + (ptr_y p2 - ptr_y p1) * (ptr_y p2 - ptr_y p1)) by ring.
    reflexivity.
  - unfold getAngle.
    replace (ptr_y p1 - ptr_y p2) with (- (ptr_y p2 - ptr_y p1)) by ring.
    replace (ptr_x p1 - ptr_x p2) with (- (ptr_x p2 - ptr_x p1)) by ring.
    apply atan2_swapped. destruct Hne; [left|right]; lra.
Qed.

Lemma exchanged_pointers_turn_half_witness :
  exists cx cy d a a',
    computeTwoPointerGesture (initial canvas1000)
      (mkPointer 1 400 500 10) (mkPointer 2 600 500 12) =
      Transform cx cy d a (d / 100) a /\
    computeTwoPointerGesture (initial canvas1000)
      (mkPointer 2 600 500 12) (mkPointer 1 400 500 10) =
      Transform cx cy d a' (d / 100) a' /\
    (a' = a + PI \/ a' = a - PI).
Proof.
  apply (exchanged_pointers_turn_half (initial canvas1000)
           (mkPointer 1 400 500 10) (mkPointer 2 600 500 12)).
  left. simpl. lra.
Defined.

(** ** Smoothing *)

Lemma lerp_between (p g f : R) :
  0 <= f <= 1 -> Rmin p g <= p + (g - p) * f <= Rmax p g.
Proof.
  intros Hf. unfold Rmin, Rmax. destruct (Rle_dec p g); nra.
Qed.

Lemma lerp_in_range (lo hi p g f : R) :
  0 <= f <= 1 -> lo <= p <= hi -> lo <= g <= hi -> lo <= p + (g - p) * f <= hi.
Proof. intros Hf Hp Hg. nra. Qed.

Lemma andb4_true (a b c d : bool) :
  a && b && c && d = true <-> a = true /\ b = true /\ c = true /\ d = true.
Proof. destruct a, b, c, d; simpl; intuition discriminate. Qed.

Lemma Rleb_iff (a b : R) : Rleb a b = true <-> a <= b.
Proof.
  unfold Rleb. destruct (Rle_dec a b); split; intros H; try reflexivity;
    try assumption; try discriminate; contradiction.
Qed.

(** X5. Smoothing with a factor in [0, 1] never leaves the range of the two
    gestures: between gestures of the same type every smoothed field lies
    between its previous and its new value ([distance] and [angle] are taken
    from the new gesture as they are), and smoothing a gesture
    [isValidGesture] accepts towards a previous gesture it accepts gives a
    gesture it accepts.  Without a previous gesture, or across a change of
    type, the new gesture is returned as it is. *)
Theorem smoothing_stays_between
    (gesture previous : Gesture) (smoothingFactor : R) :
  0 <= smoothingFactor <= 1 ->
  match gesture, previous, smoothGesture gesture (Some previous) smoothingFactor with
  | Translate gx gy, Translate px py, Translate sx sy =>
      Rmin px gx <= sx <= Rmax px gx /\ Rmin py gy <= sy <= Rmax py gy
  | Transform cx cy d a sc rot, Transform pcx pcy _ _ psc prot,
    Transform scx scy sd sa ssc srot =>
      Rmin pcx cx <= scx <= Rmax pcx cx /\ Rmin pcy cy <= scy <= Rmax pcy cy /\
      sd = d /\ sa = a /\
      Rmin psc sc <= ssc <= Rmax psc sc /\ Rmin prot rot <= srot <= Rmax prot rot
  | Translate _ _, Transform _ _ _ _ _ _, smoothed => smoothed = gesture
  | Transform _ _ _ _ _ _, Translate _ _, smoothed => smoothed = gesture
  | _, _, _ => False
  end /\
  smoothGesture gesture None smoothingFactor = gesture /\
  (isValidGesture (Some gesture) = true ->
   isValidGesture (Some previous) = true ->
   isValidGesture (Some (smoothGesture gesture (Some previous) smoothingFactor)) = true).
Proof.
  intros Hf. split; [|split; [reflexivity|]].
  - destruct gesture as [gx gy|cx cy d a sc rot],
             previous as [px py|pcx pcy pd pa psc prot]; simpl;
      try reflexivity; repeat split; try apply lerp_between; try exact Hf;
      try (apply (proj1 (lerp_between _ _ _ Hf)));
      try (apply (proj2 (lerp_between _ _ _ Hf))).
  - destruct gesture as [gx gy|cx cy d a sc rot],
             previous as [px py|pcx pcy pd pa psc prot]; simpl;
      intros Hg Hp; try exact Hg.
    + unfold Rgeb in *. apply andb4_true in Hg. apply andb4_true in Hp.
      rewrite !Rleb_iff in Hg, Hp. apply andb4_true. rewrite !Rleb_iff.
      destruct Hg as (G1 & G2 & G3 & G4). destruct Hp as (P1 & P2 & P3 & P4).
      pose proof (lerp_in_range 0 1 px gx smoothingFactor Hf (conj P1 P2) (conj G1 G2)).
      pose proof (lerp_in_range 0 1 py gy smoothingFactor Hf (conj P3 P4) (conj G3 G4)).
      intuition.
    + unfold Rgeb in *. apply andb_true_iff in Hg. apply andb_true_iff in Hp.
      rewrite !Rleb_iff in Hg, Hp. apply andb_true_iff. rewrite !Rleb_iff.
      apply (lerp_in_range _ _ psc sc smoothingFactor Hf); intuition.
Qed.

Lemma smoothing_stays_between_witness :
  isValidGesture
    (Some (smoothGesture (Translate (9 / 10) (1 / 10))
                         (Some (Translate (1 / 10) (1 / 2)))
                         defaultSmoothingFactor)) = true.
Proof.
  assert (Hf : 0 <= defaultSmoothingFactor <= 1).
  { unfold defaultSmoothingFactor. lra. }
  apply (proj2 (proj2 (smoothing_stays_between
                         (Translate (9 / 10) (1 / 10)) (Translate (1 / 10) (1 / 2))
                         defaultSmoothingFactor Hf))).
  - unfold isValidGesture, Rgeb. rewrite !Rleb_true by lra. reflexivity.
  - unfold isValidGesture, Rgeb. rewrite !Rleb_true by lra. reflexivity.
Defined.

(** * Further properties of the compositor *)

Lemma layout_drawn_more (ds : list DrawCall) (s : State) :
  layout (canvas (drawn_more ds s)) = layout (canvas s).
Proof. reflexivity. Qed.

Lemma try_drawProp_layout (prop : PropObj) (s : State) :
  layout (canvas (fst (try_catch (drawProp prop)
     (fun _ => modify (logError "PhotoboothController.compositeImage.prop")) s))) =
  layout (canvas s).
Proof.
  rewrite try_drawProp. destruct (img_broken (prop_img prop)); reflexivity.
Qed.

Lemma drawProps_layout (rs : list nat) (s : State) :
  layout (canvas (fst (drawProps rs s))) = layout (canvas s).
Proof.
  revert s. induction rs as [|r rs IH]; intros s; [reflexivity|].
  destruct (nth_error (heap s) r) as [prop|] eqn:Hp.
  - rewrite (drawProps_cons r rs prop s Hp), IH. apply try_drawProp_layout.
  - rewrite (drawProps_dangling r rs s Hp). apply IH.
Qed.

Lemma drawOverlay_fst (loadImage : string -> option Image) (s : State) :
  ctm (canvas s) = identity ->
  layout (canvas (fst (drawOverlay loadImage s))) = layout (canvas s) /\
  heap (fst (drawOverlay loadImage s)) = heap s /\
  props (fst (drawOverlay loadImage s)) = props s.
Proof.
  intros Hctm. rewrite (drawOverlay_result loadImage s Hctm). cbn [fst].
  destruct (currentOverlay s) as [overlay|]; [|repeat split].
  destruct (overlayDraws loadImage s _ _); repeat split.
Qed.

Lemma compositeImage_layout
    (loadImage : string -> option Image) (url : string) (s : State) :
  layout (canvas (fst (compositeImage loadImage url s))) = layout (canvas s).
Proof.
  destruct (loadImage url) as [photo|] eqn:Hload.
  - destruct (img_broken photo) eqn:Hphoto.
    + rewrite (compositeImage_broken_photo loadImage url photo s Hload Hphoto).
      reflexivity.
    + rewrite (compositeImage_photo loadImage url photo s Hload Hphoto).
      unfold bind at 1.
      destruct (drawOverlay_fst loadImage (afterPhoto photo s) eq_refl)
        as (Hl & _ & _).
      rewrite (drawOverlay_result loadImage (afterPhoto photo s) eq_refl) in *.
      cbn [fst] in Hl. unfold bind at 1. unfold get.
      rewrite drawProps_layout, Hl. reflexivity.
  - rewrite (compositeImage_no_photo loadImage url s Hload). reflexivity.
Qed.

Lemma drawProps_images (rs : list nat) (ps : list PropObj) (s : State) :
  resolves s rs ps ->
  map dc_image (drawn (canvas (fst (drawProps rs s)))) =
    map dc_image (drawn (canvas s)) ++ map prop_img (filter drawableb ps) /\
  errorLog (fst (drawProps rs s)) =
    errorLog s
    ++ repeat "PhotoboothController.compositeImage.prop"%string
              (List.length (filter (fun p => img_broken (prop_img p)) ps)).
Proof.
  unfold resolves. revert ps s.
  induction rs as [|r rs IH]; intros ps s Hres;
    inversion Hres as [|r0 p rs0 ps0 Hp Hrest]; subst.
  - simpl. rewrite !app_nil_r. split; reflexivity.
  - rewrite (drawProps_cons r rs p s Hp), try_drawProp.
    unfold drawableb. cbn [filter].
    destruct (img_broken (prop_img p)) eqn:Hb; cbn [negb].
    + match goal with
      | |- context [drawProps rs ?s1] => destruct (IH ps0 s1 Hrest) as [Himg Hlog]
      end.
      rewrite Himg, Hlog. cbn [List.length repeat]. simpl.
      rewrite <- app_assoc. split; reflexivity.
    + match goal with
      | |- context [drawProps rs ?s1] => destruct (IH ps0 s1 Hrest) as [Himg Hlog]
      end.
      rewrite Himg, Hlog. simpl. rewrite map_app, <- app_assoc.
      split; reflexivity.
Qed.

Lemma compositeImage_steps
    (loadImage : string -> option Image) (url : string) (photo : Image) (s : State) :
  loadImage url = Some photo ->
  img_broken photo = false ->
  compositeImage loadImage url s =
  drawProps (props s) (fst (drawOverlay loadImage (afterPhoto photo s))).
Proof.
  intros Hload Hphoto.
  rewrite (compositeImage_photo loadImage url photo s Hload Hphoto).
  destruct (drawOverlay_fst loadImage (afterPhoto photo s) eq_refl) as (_ & _ & Hp).
  unfold bind at 1.
  rewrite (drawOverlay_result loadImage (afterPhoto photo s) eq_refl) in *.
  cbn [fst] in *. unfold bind at 1. unfold get. rewrite Hp. reflexivity.
Qed.

Lemma drawOverlay_after_photo
    (loadImage : string -> option Image) (photo : Image) (s : State) :
  fst (drawOverlay loadImage (afterPhoto photo s)) =
  match currentOverlay s with
  | Some overlay =>
      match overlayDraws loadImage s (img_width photo) (img_height photo) with
      | [] => logError "PhotoboothController.compositeImage.overlay" (afterPhoto photo s)
      | ds => drawn_more ds (afterPhoto photo s)
      end
  | None => afterPhoto photo s
  end.
Proof.
  rewrite (drawOverlay_result loadImage (afterPhoto photo s) eq_refl). reflexivity.
Qed.

(** X6. When the photo loads and can be drawn, composition returns normally
    whatever happens to the overlay and the props, and what it has drawn is
    the photo, then the overlay if it is active and can be drawn, then the
    images of the props that can be drawn, in the order of the prop list: a
    prop whose image cannot be drawn is left out and nothing else is.  The
    error log gains one entry for an overlay that is not drawn and one for
    each prop left out. *)
Theorem composite_leaves_out_only_failures
    (loadImage : string -> option Image) (url : string) (s : State)
    (photo : Image) (ps : list PropObj) :
  loadImage url = Some photo ->
  img_broken photo = false ->
  resolves s (props s) ps ->
  snd (compositeImage loadImage url s) = Returned tt /\
  map dc_image (drawn (canvas (fst (compositeImage loadImage url s)))) =
    photo
    :: map dc_image (overlayDraws loadImage s (img_width photo) (img_height photo))
    ++ map prop_img (filter drawableb ps) /\
  errorLog (fst (compositeImage loadImage url s)) =
    errorLog s
    ++ compositeErrors loadImage s (img_width photo) (img_height photo) ps.
Proof.
  intros Hload Hphoto Hres.
  rewrite (compositeImage_steps loadImage url photo s Hload Hphoto).
  split; [apply drawProps_returns|].
  rewrite drawOverlay_after_photo. unfold compositeErrors, overlayDraws.
  destruct (currentOverlay s) as [overlay|];
    [destruct (loadImage (asset_src overlay)) as [img|];
     [destruct (img_broken img)|]|];
    match goal with
    | |- context [drawProps ?rs ?s1] =>
        destruct (drawProps_images rs ps s1 Hres) as [Himg Hlog]
    end;
    rewrite Himg, Hlog; simpl; rewrite ?map_app, <- ?app_assoc; simpl;
    split; reflexivity.
Qed.

Lemma composite_leaves_out_only_failures_witness :
  snd (compositeImage studio "data:photo" threeProps) = Returned tt /\
  map dc_image (drawn (canvas (fst (compositeImage studio "data:photo" threeProps)))) =
    studioPhoto
    :: map dc_image (overlayDraws studio threeProps
                       (img_width studioPhoto) (img_height studioPhoto))
    ++ map prop_img
         (filter drawableb
            [placed "first" (1 / 4) (1 / 4) 1 0 false;
             placed "second" (1 / 2) (1 / 2) 1 0 true;
             placed "third" (3 / 4) (3 / 4) 1 0 false]) /\
  errorLog (fst (compositeImage studio "data:photo" threeProps)) =
    errorLog threeProps
    ++ compositeErrors studio threeProps
         (img_width studioPhoto) (img_height studioPhoto)
         [placed "first" (1 / 4) (1 / 4) 1 0 false;
          placed "second" (1 / 2) (1 / 2) 1 0 true;
          placed "third" (3 / 4) (3 / 4) 1 0 false].
Proof.
  apply (composite_leaves_out_only_failures studio "data:photo" threeProps studioPhoto
           [placed "first" (1 / 4) (1 / 4) 1 0 false;
            placed "second" (1 / 2) (1 / 2) 1 0 true;
            placed "third" (3 / 4) (3 / 4) 1 0 false]
           eq_refl eq_refl).
  repeat constructor.
Defined.

Lemma overlay_same_scene
    (loadImage : string -> option Image) (photo : Image) (s1 s2 : State) :
  same_scene s1 s2 ->
  canvas (fst (drawOverlay loadImage (afterPhoto photo s1))) =
    canvas (fst (drawOverlay loadImage (afterPhoto photo s2))) /\
  heap (fst (drawOverlay loadImage (afterPhoto photo s1))) =
    heap (fst (drawOverlay loadImage (afterPhoto photo s2))).
Proof.
  intros (Hl & Hh & Hp & Ho).
  rewrite !drawOverlay_after_photo. unfold overlayDraws. rewrite Ho.
  destruct s1 as [c1 h1 p1 sel1 o1 a1 m1 g1 l1], s2 as [c2 h2 p2 sel2 o2 a2 m2 g2 l2].
  destruct c1, c2. unfold layout in Hl. simpl in *.
  injection Hl as -> -> -> ->. subst.
  destruct o2 as [overlay|]; [|split; reflexivity].
  destruct (loadImage (asset_src overlay)) as [img|]; [|split; reflexivity].
  destruct (img_broken img); split; reflexivity.
Qed.

Lemma composite_same_scene
    (loadImage : string -> option Image) (url : string) (photo : Image)
    (s1 s2 : State) :
  loadImage url = Some photo ->
  same_scene s1 s2 ->
  canvas (fst (compositeImage loadImage url s1)) =
    canvas (fst (compositeImage loadImage url s2)) /\
  snd (compositeImage loadImage url s1) = snd (compositeImage loadImage url s2).
Proof.
  intros Hload Hscene.
  destruct (img_broken photo) eqn:Hphoto.
  - rewrite !(compositeImage_broken_photo loadImage url photo) by assumption.
    destruct Hscene as (Hl & _). unfold layout in Hl.
    injection Hl as Hw Hh Hx Hy. simpl. rewrite Hw, Hh, Hx, Hy. split; reflexivity.
  - rewrite !(compositeImage_steps loadImage url photo) by assumption.
    destruct (overlay_same_scene loadImage photo s1 s2 Hscene) as [Hc Hh].
    destruct Hscene as (_ & _ & Hp & _). rewrite Hp.
    split; [apply drawProps_same_canvas; assumption|].
    rewrite !drawProps_returns. reflexivity.
Qed.

(** X7. What a composition draws depends on the scene only: two states with
    the same canvas layout, the same prop objects and prop list and the same
    overlay give the same canvas (size, draw calls, transformation) and the
    same outcome when the photo loads, whatever is selected, whichever
    pointers are down, whatever gesture is retained and whatever the canvas
    held before. *)
Theorem composite_depends_on_scene_only
    (loadImage : string -> option Image) (url : string) (photo : Image)
    (s1 s2 : State) :
  loadImage url = Some photo ->
  same_scene s1 s2 ->
  canvas (fst (compositeImage loadImage url s1)) =
    canvas (fst (compositeImage loadImage url s2)) /\
  snd (compositeImage loadImage url s1) = snd (compositeImage loadImage url s2).
Proof. apply composite_same_scene. Qed.

Lemma composite_depends_on_scene_only_witness :
  canvas (fst (compositeImage studio "data:photo" party)) =
    canvas (fst (compositeImage studio "data:photo"
                   (set_selectedProp None
                      (set_lastGesture (Some (Translate (1 / 3) (2 / 3))) party)))) /\
  snd (compositeImage studio "data:photo" party) =
    snd (compositeImage studio "data:photo"
           (set_selectedProp None
              (set_lastGesture (Some (Translate (1 / 3) (2 / 3))) party))).
Proof.
  apply (composite_depends_on_scene_only studio "data:photo" studioPhoto party _ eq_refl).
  repeat split.
Defined.

(** X8. Composition is repeatable: composing again right after a
    composition, with no prop moved in between, ends with the same outcome
    on a canvas equal to the one the first composition left, even when a
    prop failed to draw and left its transformation behind. *)
Theorem composite_twice_same_canvas
    (loadImage : string -> option Image) (url : string) (s : State) :
  canvas (fst (compositeImage loadImage url (fst (compositeImage loadImage url s)))) =
    canvas (fst (compositeImage loadImage url s)) /\
  snd (compositeImage loadImage url (fst (compositeImage loadImage url s))) =
    snd (compositeImage loadImage url s).
Proof.
  destruct (loadImage url) as [photo|] eqn:Hload.
  - apply (composite_same_scene loadImage url photo _ s Hload).
    destruct (frames_compositeImage loadImage url s) as (Hh & Hp & _ & Ho & _).
    split; [apply compositeImage_layout|]. split; [exact Hh|]. split; assumption.
  - rewrite (compositeImage_no_photo loadImage url s Hload). cbn [fst].
    rewrite (compositeImage_no_photo loadImage url s Hload).
    split; reflexivity.
Qed.

(** * Further invariants of a session *)

Lemma derivedGesture_congr (s1 s2 : State) :
  pointers s1 = pointers s2 ->
  layout (canvas s1) = layout (canvas s2) ->
  lastGesture s1 = lastGesture s2 ->
  derivedGesture s1 = derivedGesture s2.
Proof.
  intros Hp Hl Hg. unfold layout in Hl. injection Hl as Hw Hh _ _.
  unfold derivedGesture, updateGesture, computeTwoPointerGesture.
  rewrite Hp. destruct (map_values (pointers s2)) as [|p [|q [|x l]]]; simpl;
    rewrite ?Hw, ?Hh; auto.
Qed.

Lemma updateGesture_idempotent (s : State) :
  updateGesture (updateGesture s) = updateGesture s.
Proof.
  unfold updateGesture at 1. rewrite updateGesture_pointers.
  destruct (map_values (pointers s)) as [|p [|q [|x l]]] eqn:Hv;
    unfold updateGesture; rewrite Hv; reflexivity.
Qed.

Lemma updateGesture_in_sync (s : State) : gesture_in_sync (updateGesture s).
Proof.
  unfold gesture_in_sync, derivedGesture.
  rewrite updateGesture_idempotent. reflexivity.
Qed.

Lemma in_sync_congr (s1 s2 : State) :
  pointers s1 = pointers s2 ->
  layout (canvas s1) = layout (canvas s2) ->
  lastGesture s1 = lastGesture s2 ->
  gesture_in_sync s1 -> gesture_in_sync s2.
Proof.
  unfold gesture_in_sync. intros Hp Hl Hg Hs.
  rewrite <- (derivedGesture_congr s1 s2 Hp Hl Hg). congruence.
Qed.

Lemma updateGesture_rotation (s : State) :
  gesture_rotation_in_range s -> gesture_rotation_in_range (updateGesture s).
Proof.
  unfold gesture_rotation_in_range, updateGesture, computeTwoPointerGesture.
  destruct (map_values (pointers s)) as [|p [|q [|x l]]]; simpl; auto.
  intros _. apply atan2_range.
Qed.

Lemma applyGesture_rotations (s : State) :
  gesture_rotation_in_range s -> rotations_in_range s ->
  rotations_in_range (applyGesture s).
Proof.
  unfold gesture_rotation_in_range. intros Hg Hs. unfold applyGesture.
  destruct (lastGesture s) as [g|]; [|exact Hs].
  destruct (selectedProp s) as [r0|]; [|exact Hs].
  destruct (nth_error (heap s) r0) as [p0|] eqn:Hp0; [|exact Hs].
  destruct g as [gx gy|cx cy d a sc rot]; intros r p Hp; simpl in Hp;
    apply store_update_lookup in Hp; destruct Hp as [->|Hp];
    try (eapply Hs; exact Hp); simpl.
  - eapply Hs. exact Hp0.
  - exact Hg.
Qed.

Lemma splice_first_NoDup (r : nat) (l : list nat) :
  NoDup l -> NoDup (splice_first r l).
Proof.
  induction l as [|a l IH]; intros Hnd; simpl; [constructor|].
  inversion Hnd as [|a0 l0 Hnotin Hrest]; subst.
  destruct (Nat.eqb a r); [exact Hrest|].
  constructor; [|apply IH; exact Hrest].
  intros Hin. apply Hnotin. eapply splice_first_subset. exact Hin.
Qed.

Lemma filter_absent (r : nat) (l : list nat) :
  ~ In r l -> filter (fun a => negb (Nat.eqb a r)) l = l.
Proof.
  induction l as [|a l IH]; intros Hnotin; simpl; [reflexivity|].
  destruct (Nat.eqb a r) eqn:Ha; simpl.
  - apply Nat.eqb_eq in Ha. subst a. exfalso. apply Hnotin. left. reflexivity.
  - f_equal. apply IH. intros Hin. apply Hnotin. right. exact Hin.
Qed.

Lemma splice_first_removes (r : nat) (l : list nat) :
  NoDup l -> splice_first r l = filter (fun a => negb (Nat.eqb a r)) l.
Proof.
  induction l as [|a l IH]; intros Hnd; simpl; [reflexivity|].
  inversion Hnd as [|a0 l0 Hnotin Hrest]; subst.
  destruct (Nat.eqb a r) eqn:Ha; simpl.
  - apply Nat.eqb_eq in Ha. subst a. symmetry. apply filter_absent. exact Hnotin.
  - f_equal. apply IH. exact Hrest.
Qed.

Lemma session_invariant_congr (s s' : State) :
  isActive s' = isActive s ->
  pointers s' = pointers s ->
  lastGesture s' = lastGesture s ->
  layout (canvas s') = layout (canvas s) ->
  heap s' = heap s ->
  props s' = props s ->
  session_invariant s -> session_invariant s'.
Proof.
  intros Ha Hp Hg Hl Hh Hr (Hact & Hsync & Hrot & Hrots & Hnd).
  unfold session_invariant, gesture_rotation_in_range, rotations_in_range in *.
  rewrite Ha, Hg, Hh, Hr.
  split; [exact Hact|].
  split; [apply (in_sync_congr s s'); auto|].
  split; [exact Hrot|]. split; [exact Hrots|exact Hnd].
Qed.

Lemma map_size_0 (m : list (Z * Pointer)) : Nat.eqb (map_size m) 0 = true -> m = [].
Proof. destruct m; [reflexivity|discriminate]. Qed.

Lemma step_session_invariant (s : State) (a : Action) :
  well_formed s -> session_invariant s -> session_invariant (step s a).
Proof.
  intros [Hrefs Hsel] Hinv.
  pose proof Hinv as (Hact & Hsync & Hrot & Hrots & Hnd).
  destruct a as [e|e|e|e|prop loaded uuid| |overlay|loadImage url]; simpl.
  - (* pointer down *)
    assert (Hshape := handlePointerDown_shape s e).
    unfold handlePointerDown in *. rewrite Hact in *. cbn [negb] in *.
    set (s2 := if Nat.eqb _ 1 then _ else _) in *.
    assert (Hg2 : lastGesture s2 = lastGesture s).
    { unfold s2. destruct (Nat.eqb _ 1); [|reflexivity].
      rewrite handleSinglePointerDown_shape. reflexivity. }
    split; [rewrite Hshape; exact Hact|].
    split; [apply updateGesture_in_sync|].
    split.
    { apply updateGesture_rotation. unfold gesture_rotation_in_range.
      rewrite Hg2. exact Hrot. }
    rewrite Hshape. split; assumption.
  - (* pointer move *)
    unfold handlePointerMove. rewrite Hact. cbn [negb orb].
    destruct (map_has (pointerId e) (pointers s)); cbn [negb]; [|exact Hinv].
    set (s1 := set_pointers _ s).
    assert (Hrot1 : gesture_rotation_in_range (updateGesture s1)).
    { apply updateGesture_rotation. exact Hrot. }
    assert (Hrots1 : rotations_in_range (updateGesture s1)).
    { unfold rotations_in_range. rewrite updateGesture_shape. exact Hrots. }
    split; [rewrite applyGesture_shape, updateGesture_shape; exact Hact|].
    split.
    { apply (in_sync_congr (updateGesture s1)).
      - rewrite applyGesture_shape. reflexivity.
      - rewrite applyGesture_shape. reflexivity.
      - rewrite applyGesture_shape. reflexivity.
      - apply updateGesture_in_sync. }
    split.
    { unfold gesture_rotation_in_range. rewrite applyGesture_lastGesture.
      exact Hrot1. }
    split; [apply applyGesture_rotations; assumption|].
    rewrite applyGesture_shape, updateGesture_shape. exact Hnd.
  - (* pointer up *)
    assert (Hshape := handlePointerUp_shape s e).
    unfold handlePointerUp in *. rewrite Hact in *. cbn [negb] in *.
    set (s1 := set_pointers _ s) in *.
    split; [rewrite Hshape; exact Hact|].
    destruct (Nat.eqb (map_size (pointers s1)) 0) eqn:Hsize.
    + apply map_size_0 in Hsize.
      split.
      { unfold gesture_in_sync, derivedGesture, updateGesture. simpl.
        simpl in Hsize. rewrite Hsize. reflexivity. }
      split; [exact I|]. split; assumption.
    + split; [apply updateGesture_in_sync|].
      split; [apply updateGesture_rotation; exact Hrot|].
      rewrite updateGesture_shape. split; assumption.
  - (* pointer cancel *)
    unfold handlePointerCancel.
    assert (Hshape := handlePointerUp_shape s e).
    unfold handlePointerUp in *. rewrite Hact in *. cbn [negb] in *.
    set (s1 := set_pointers _ s) in *.
    split; [rewrite Hshape; exact Hact|].
    destruct (Nat.eqb (map_size (pointers s1)) 0) eqn:Hsize.
    + apply map_size_0 in Hsize.
      split.
      { unfold gesture_in_sync, derivedGesture, updateGesture. simpl.
        simpl in Hsize. rewrite Hsize. reflexivity. }
      split; [exact I|]. split; assumption.
    + split; [apply updateGesture_in_sync|].
      split; [apply updateGesture_rotation; exact Hrot|].
      rewrite updateGesture_shape. split; assumption.
  - (* addProp *)
    destruct loaded as [img|].
    + split; [exact Hact|].
      split; [apply (in_sync_congr s); auto|].
      split; [exact Hrot|].
      split.
      * intros r p Hp. simpl in Hp.
        destruct (Nat.lt_ge_cases r (List.length (heap s))) as [Hlt|Hge].
        -- rewrite nth_error_app1 in Hp by exact Hlt. eapply Hrots. exact Hp.
        -- rewrite nth_error_app2 in Hp by exact Hge.
           destruct (r - List.length (heap s))%nat as [|k]; simpl in Hp.
           ++ injection Hp as <-. simpl. pose proof PI_RGT_0. lra.
           ++ destruct k; discriminate.
      * simpl. apply NoDup_app; [exact Hnd|repeat constructor; intros []|].
        intros r Hin [<-|[]]. apply Hrefs in Hin. lia.
    + apply (session_invariant_congr s); auto.
  - (* Delete key *)
    unfold deleteSelectedProp, removeProp.
    destruct (selectedProp s) as [r0|] eqn:Hs0; [|exact Hinv].
    destruct (existsb (Nat.eqb r0) (props s)); [|exact Hinv].
    simpl. rewrite Hs0, Nat.eqb_refl.
    split; [exact Hact|].
    split; [apply (in_sync_congr s); auto|].
    split; [exact Hrot|]. split; [exact Hrots|].
    simpl. apply splice_first_NoDup. exact Hnd.
  - (* selectOverlay *)
    apply (session_invariant_congr s); auto.
  - (* compositeImage *)
    destruct (frames_compositeImage loadImage url s)
      as (Hh & Hp & _ & _ & Ha & Hm & Hg).
    apply (session_invariant_congr s); auto.
    apply compositeImage_layout.
Qed.

Lemma run_invariants (actions : list Action) (s : State) :
  well_formed s -> session_invariant s ->
  well_formed (run s actions) /\ session_invariant (run s actions).
Proof.
  revert s. induction actions as [|a actions IH]; intros s Hwf Hinv; simpl.
  - split; assumption.
  - apply IH; [apply step_well_formed|apply step_session_invariant]; assumption.
Qed.

Lemma initial_invariants (c : Canvas) :
  well_formed (initial c) /\ session_invariant (initial c).
Proof.
  split; [split; simpl; [intros r []|discriminate]|].
  split; [reflexivity|]. split; [reflexivity|]. split; [exact I|].
  split; [intros r p Hp; destruct r; discriminate|constructor].
Qed.

Lemma reachable_invariants (c : Canvas) (actions : list Action) :
  well_formed (run (initial c) actions) /\
  session_invariant (run (initial c) actions).
Proof.
  destruct (initial_invariants c). apply run_invariants; assumption.
Qed.

(** X9. In every state a session reaches from the initial one, every prop's
    rotation lies in (-PI, PI]: a prop is added unrotated, and the only
    rotation a gesture writes is an angle [Math.atan2] returned. *)
Theorem session_rotations_in_range (c : Canvas) (actions : list Action) :
  rotations_in_range (run (initial c) actions).
Proof.
  destruct (reachable_invariants c actions) as (_ & _ & _ & _ & Hrots & _).
  exact Hrots.
Qed.

Lemma session_rotations_in_range_witness :
  exists p,
    nth_error (heap (run (initial canvas1000)
                         [AddProp crownAsset (Some crownImage) "id-1"])) 0 = Some p /\
    - PI < prop_rotation p <= PI.
Proof.
  eexists. split; [reflexivity|].
  exact (session_rotations_in_range canvas1000
           [AddProp crownAsset (Some crownImage) "id-1"] 0%nat _ eq_refl).
Defined.

Lemma map_delete_absent (k : Z) (m : list (Z * Pointer)) :
  map_has k m = false -> map_delete k m = m.
Proof.
  induction m as [|[k' v] m IH]; simpl; [reflexivity|].
  destruct (Z.eqb k k'); [discriminate|]. intros H. rewrite IH by exact H.
  reflexivity.
Qed.

Lemma in_sync_fixed (s : State) : gesture_in_sync s -> updateGesture s = s.
Proof.
  unfold gesture_in_sync, derivedGesture. intros Hs.
  rewrite updateGesture_shape, <- Hs. destruct s; reflexivity.
Qed.

Lemma handlePointerUp_untracked (s : State) (e : PointerEvent) :
  gesture_in_sync s ->
  map_has (pointerId e) (pointers s) = false ->
  handlePointerUp s e = s.
Proof.
  intros Hsync Hhas. unfold handlePointerUp.
  destruct (isActive s); cbn [negb]; [|reflexivity].
  rewrite (map_delete_absent _ _ Hhas).
  replace (set_pointers (pointers s) s) with s by (destruct s; reflexivity).
  destruct (Nat.eqb (map_size (pointers s)) 0) eqn:Hsize.
  - apply map_size_0 in Hsize. rewrite <- (in_sync_fixed s Hsync) at 2.
    unfold updateGesture. rewrite Hsize. reflexivity.
  - apply in_sync_fixed. exact Hsync.
Qed.

(** X10. In every state a session reaches from the initial one, a
    pointer-move, pointer-up or pointer-cancel event for a pointer that is
    not being tracked changes nothing at all. *)
Theorem untracked_pointer_is_ignored
    (c : Canvas) (actions : list Action) (e : PointerEvent) :
  map_has (pointerId e) (pointers (run (initial c) actions)) = false ->
  handlePointerMove (run (initial c) actions) e = run (initial c) actions /\
  handlePointerUp (run (initial c) actions) e = run (initial c) actions /\
  handlePointerCancel (run (initial c) actions) e = run (initial c) actions.
Proof.
  intros Hhas.
  destruct (reachable_invariants c actions) as (_ & _ & Hsync & _).
  split.
  - unfold handlePointerMove. rewrite Hhas. cbn [negb]. rewrite orb_true_r.
    reflexivity.
  - split; [|unfold handlePointerCancel]; apply handlePointerUp_untracked; assumption.
Qed.

Lemma untracked_pointer_is_ignored_witness :
  handlePointerMove (run (initial canvas1000) oneFinger) (mkEvent 9 100 100 30) =
    run (initial canvas1000) oneFinger /\
  handlePointerUp (run (initial canvas1000) oneFinger) (mkEvent 9 100 100 30) =
    run (initial canvas1000) oneFinger /\
  handlePointerCancel (run (initial canvas1000) oneFinger) (mkEvent 9 100 100 30) =
    run (initial canvas1000) oneFinger.
Proof.
  exact (untracked_pointer_is_ignored canvas1000 oneFinger (mkEvent 9 100 100 30)
           eq_refl).
Defined.

(** * Further properties of the pointer handlers *)

Lemma clamp_unit_identity (v : R) : 0 <= v <= 1 -> Math_max 0 (Math_min 1 v) = v.
Proof. intros Hv. rewrite max_min_is_clamp by lra. rdecide; lra. Qed.

Lemma quotient_in_unit (a b : R) : 0 < b -> 0 <= a <= b -> 0 <= a / b <= 1.
Proof.
  intros Hb Ha. split.
  - apply Rmult_le_pos; [lra|]. left. apply Rinv_0_lt_compat. exact Hb.
  - apply (Rmult_le_reg_r b); [exact Hb|]. unfold Rdiv.
    rewrite Rmult_assoc, Rinv_l by lra. lra.
Qed.

(** X11. A one-finger drag puts the selected prop under the finger: when the
    only pointer down moves to a position inside the canvas's layout box,
    the selected prop's x and y become that position divided by the layout
    width and height, and its scale and rotation stay as they were. *)
Theorem drag_puts_prop_under_pointer
    (s : State) (e : PointerEvent) (p0 : Pointer) (r : nat) (prop : PropObj) :
  isActive s = true ->
  pointers s = [(pointerId e, p0)] ->
  selectedProp s = Some r ->
  nth_error (heap s) r = Some prop ->
  0 < offsetWidth (canvas s) ->
  0 < offsetHeight (canvas s) ->
  0 <= clientX e - rect_left (canvas s) <= offsetWidth (canvas s) ->
  0 <= clientY e - rect_top (canvas s) <= offsetHeight (canvas s) ->
  pose (heap (handlePointerMove s e)) r =
  Some ((clientX e - rect_left (canvas s)) / offsetWidth (canvas s),
        (clientY e - rect_top (canvas s)) / offsetHeight (canvas s),
        prop_scale prop, prop_rotation prop).
Proof.
  intros Hact Hptr Hsel Hp Hw Hh Hx Hy.
  unfold handlePointerMove. rewrite Hact, Hptr. simpl map_has.
  rewrite Z.eqb_refl. cbn [negb orb]. simpl map_set. rewrite Z.eqb_refl.
  unfold pose.
  erewrite applyGesture_selected;
    [| unfold updateGesture; cbn [map_values map snd pointers set_pointers];
       reflexivity
     | rewrite updateGesture_shape; exact Hsel
     | rewrite updateGesture_shape; exact Hp ].
  cbn [prop_x prop_y prop_scale prop_rotation with_position
       ptr_x ptr_y getPointerFromEvent canvas set_pointers].
  rewrite !clamp_unit_identity by (apply quotient_in_unit; assumption).
  reflexivity.
Qed.

Lemma drag_puts_prop_under_pointer_witness :
  pose (heap (handlePointerMove holdingCrown (mkEvent 1 250 750 20))) 0 =
  Some ((250 - 0) / 1000, (750 - 0) / 1000, 1, 0).
Proof.
  apply (drag_puts_prop_under_pointer holdingCrown (mkEvent 1 250 750 20)
           (mkPointer 1 500 500 10) 0 (wideProp 0 false)
           eq_refl eq_refl eq_refl eq_refl); simpl; lra.
Defined.

Lemma map_has_set (k : Z) (v : Pointer) (m : list (Z * Pointer)) :
  map_has k (map_set k v m) = true.
Proof.
  induction m as [|[k' v'] m IH]; simpl.
  - rewrite Z.eqb_refl. reflexivity.
  - destruct (Z.eqb k k') eqn:Hk; simpl; rewrite Hk; [reflexivity|exact IH].
Qed.

Lemma map_set_twice (k : Z) (v : Pointer) (m : list (Z * Pointer)) :
  map_set k v (map_set k v m) = map_set k v m.
Proof.
  induction m as [|[k' v'] m IH]; simpl.
  - rewrite Z.eqb_refl. reflexivity.
  - destruct (Z.eqb k k') eqn:Hk; simpl; rewrite Hk; [reflexivity|].
    rewrite IH. reflexivity.
Qed.

Lemma store_update_twice (r : nat) (p q : PropObj) (h : list PropObj) :
  store_update r q (store_update r p h) = store_update r q h.
Proof.
  revert r. induction h as [|a h IH]; intros [|r]; simpl; try reflexivity.
  rewrite IH. reflexivity.
Qed.

Lemma set_heap_same (s : State) : set_heap (heap s) s = s.
Proof. destruct s; reflexivity. Qed.

Lemma applyGesture_idempotent (s : State) :
  applyGesture (applyGesture s) = applyGesture s.
Proof.
  assert (Hg' : lastGesture (applyGesture s) = lastGesture s).
  { rewrite applyGesture_shape. reflexivity. }
  assert (Hsel' : selectedProp (applyGesture s) = selectedProp s).
  { rewrite applyGesture_shape. reflexivity. }
  remember (applyGesture s) as s' eqn:Hs'.
  unfold applyGesture. rewrite Hg', Hsel'.
  destruct (lastGesture s) as [g|] eqn:Hg; [|reflexivity].
  destruct (selectedProp s) as [r|] eqn:Hsel; [|reflexivity].
  destruct (nth_error (heap s) r) as [p|] eqn:Hp.
  - destruct g as [gx gy|cx cy d a sc rot].
    + assert (Hheap : heap s' =
                store_update r
                  (with_position p (Math_max 0 (Math_min 1 gx))
                                   (Math_max 0 (Math_min 1 gy))) (heap s)).
      { rewrite Hs'. unfold applyGesture. rewrite Hg, Hsel, Hp. reflexivity. }
      rewrite Hheap, (store_update_same _ _ _ _ Hp), store_update_twice.
      replace (store_update r _ (heap s)) with (heap s')
        by (rewrite Hheap; reflexivity).
      apply set_heap_same.
    + assert (Hheap : heap s' =
                store_update r
                  (with_pose p (Math_max 0 (Math_min 1 cx))
                               (Math_max 0 (Math_min 1 cy))
                               (Math_max CONFIG.UI.MIN_SCALE
                                         (Math_min CONFIG.UI.MAX_SCALE sc)) rot)
                  (heap s)).
      { rewrite Hs'. unfold applyGesture. rewrite Hg, Hsel, Hp. reflexivity. }
      rewrite Hheap, (store_update_same _ _ _ _ Hp), store_update_twice.
      replace (store_update r _ (heap s)) with (heap s')
        by (rewrite Hheap; reflexivity).
      apply set_heap_same.
  - assert (Hsame : s' = s).
    { rewrite Hs'. unfold applyGesture. rewrite Hg, Hsel, Hp. reflexivity. }
    rewrite Hsame, Hp. reflexivity.
Qed.

(** X12. Handling the same pointer-move event a second time changes nothing:
    the pointer map, the retained gesture and every pose are already what
    the event makes them. *)
Theorem pointer_move_is_idempotent (s : State) (e : PointerEvent) :
  handlePointerMove (handlePointerMove s e) e = handlePointerMove s e.
Proof.
  destruct (negb (isActive s) || negb (map_has (pointerId e) (pointers s))) eqn:Hguard.
  - assert (Hm : handlePointerMove s e = s).
    { unfold handlePointerMove. rewrite Hguard. reflexivity. }
    rewrite !Hm. reflexivity.
  - assert (Hm : handlePointerMove s e =
                 applyGesture
                   (updateGesture
                      (set_pointers
                         (map_set (pointerId e) (getPointerFromEvent s e) (pointers s))
                         s))).
    { unfold handlePointerMove. rewrite Hguard. reflexivity. }
    rewrite Hm.
    apply orb_false_iff in Hguard. destruct Hguard as [Hact Hhas].
    apply negb_false_iff in Hact.
    set (s1 := set_pointers _ s). set (s' := applyGesture (updateGesture s1)).
    assert (Hact' : isActive s' = true).
    { unfold s'. rewrite applyGesture_shape, updateGesture_shape. exact Hact. }
    assert (Hptr' : pointers s' =
                    map_set (pointerId e) (getPointerFromEvent s e) (pointers s)).
    { unfold s'. rewrite applyGesture_shape, updateGesture_shape. reflexivity. }
    assert (Hcanvas' : canvas s' = canvas s).
    { unfold s'. rewrite applyGesture_shape, updateGesture_shape. reflexivity. }
    assert (Hsync : gesture_in_sync s').
    { apply (in_sync_congr (updateGesture s1)).
      - unfold s'. rewrite applyGesture_shape. reflexivity.
      - unfold s'. rewrite applyGesture_shape. reflexivity.
      - unfold s'. rewrite applyGesture_shape. reflexivity.
      - apply updateGesture_in_sync. }
    assert (Hev : getPointerFromEvent s' e = getPointerFromEvent s e).
    { unfold getPointerFromEvent. rewrite Hcanvas'. reflexivity. }
    unfold handlePointerMove. rewrite Hact', Hev.
    rewrite Hptr' at 1. rewrite map_has_set. cbn [negb orb].
    rewrite Hptr' at 1. rewrite map_set_twice, <- Hptr'.
    replace (set_pointers (pointers s') s') with s' by (destruct s'; reflexivity).
    rewrite (in_sync_fixed s' Hsync). unfold s'. apply applyGesture_idempotent.
Qed.

Lemma map_set_size (k : Z) (v : Pointer) (m : list (Z * Pointer)) :
  (map_size m <= map_size (map_set k v m))%nat.
Proof.
  unfold map_size. induction m as [|[k' v'] m IH]; simpl; [lia|].
  destruct (Z.eqb k k'); simpl; lia.
Qed.

Lemma updateGesture_three (s : State) :
  (3 <= map_size (pointers s))%nat -> updateGesture s = s.
Proof.
  unfold updateGesture, map_size, map_values. intros Hsize.
  destruct (pointers s) as [|a [|b [|x l]]]; simpl in *; try lia. reflexivity.
Qed.

(** X13. With three or more pointers down the gesture is frozen: a
    pointer-down or pointer-move event after which at least three pointers
    are tracked leaves the retained gesture as it was, also when the pointer
    that moves is one of the first two, and such a pointer-down leaves the
    selection as it was. *)
Theorem three_pointers_freeze_gesture (s : State) (e : PointerEvent) :
  (3 <= map_size (map_set (pointerId e) (getPointerFromEvent s e) (pointers s)))%nat ->
  lastGesture (handlePointerMove s e) = lastGesture s /\
  lastGesture (handlePointerDown s e) = lastGesture s /\
  selectedProp (handlePointerDown s e) = selectedProp s.
Proof.
  intros Hsize. split; [|split].
  - unfold handlePointerMove.
    destruct (negb (isActive s) || negb (map_has (pointerId e) (pointers s)));
      [reflexivity|].
    rewrite applyGesture_lastGesture, updateGesture_three by exact Hsize.
    reflexivity.
  - unfold handlePointerDown. destruct (isActive s); cbn [negb]; [|reflexivity].
    cbn [pointers set_pointers].
    destruct (Nat.eqb _ 1) eqn:H1; [apply Nat.eqb_eq in H1; lia|].
    rewrite updateGesture_three by exact Hsize. reflexivity.
  - unfold handlePointerDown. destruct (isActive s); cbn [negb]; [|reflexivity].
    cbn [pointers set_pointers].
    destruct (Nat.eqb _ 1) eqn:H1; [apply Nat.eqb_eq in H1; lia|].
    rewrite updateGesture_three by exact Hsize. reflexivity.
Qed.

Lemma three_pointers_freeze_gesture_witness :
  lastGesture (handlePointerMove threeFingers (mkEvent 1 100 100 20)) =
    lastGesture threeFingers /\
  lastGesture (handlePointerDown threeFingers (mkEvent 4 100 100 20)) =
    lastGesture threeFingers /\
  selectedProp (handlePointerDown threeFingers (mkEvent 4 100 100 20)) =
    selectedProp threeFingers.
Proof.
  destruct (three_pointers_freeze_gesture threeFingers (mkEvent 1 100 100 20))
    as (Hmove & _).
  { unfold map_size. simpl. lia. }
  destruct (three_pointers_freeze_gesture threeFingers (mkEvent 4 100 100 20))
    as (_ & Hdown & Hsel).
  { unfold map_size. simpl. lia. }
  split; [exact Hmove|]. split; [exact Hdown|exact Hsel].
Defined.

(** * Further properties of the prop list *)

Lemma existsb_In (r : nat) (l : list nat) : In r l -> existsb (Nat.eqb r) l = true.
Proof.
  intros Hin. apply existsb_exists. exists r. split; [exact Hin|apply Nat.eqb_refl].
Qed.

Lemma splice_first_length (r : nat) (l : list nat) :
  In r l -> S (List.length (splice_first r l)) = List.length l.
Proof.
  induction l as [|a l IH]; simpl; [intros []|].
  destruct (Nat.eqb a r) eqn:Ha; [reflexivity|].
  intros [Heq|Hin]; [subst a; rewrite Nat.eqb_refl in Ha; discriminate|].
  simpl. f_equal. apply IH. exact Hin.
Qed.

Lemma splice_first_last (r : nat) (l : list nat) :
  ~ In r l -> splice_first r (l ++ [r]) = l.
Proof.
  induction l as [|a l IH]; intros Hnotin; simpl.
  - rewrite Nat.eqb_refl. reflexivity.
  - destruct (Nat.eqb a r) eqn:Ha.
    + apply Nat.eqb_eq in Ha. subst a. exfalso. apply Hnotin. left. reflexivity.
    + f_equal. apply IH. intros Hin. apply Hnotin. right. exact Hin.
Qed.

(** X14. In every state a session reaches from the initial one, the Delete
    key with a prop selected takes exactly that prop out of the prop list:
    the other props stay, in their order, the list is one shorter, the
    selection is cleared, and no prop object is touched. *)
Theorem delete_key_removes_selected_prop
    (c : Canvas) (actions : list Action) (r : nat) :
  selectedProp (run (initial c) actions) = Some r ->
  props (deleteSelectedProp (run (initial c) actions)) =
    filter (fun a => negb (Nat.eqb a r)) (props (run (initial c) actions)) /\
  ~ In r (props (deleteSelectedProp (run (initial c) actions))) /\
  S (List.length (props (deleteSelectedProp (run (initial c) actions)))) =
    List.length (props (run (initial c) actions)) /\
  selectedProp (deleteSelectedProp (run (initial c) actions)) = None /\
  heap (deleteSelectedProp (run (initial c) actions)) =
    heap (run (initial c) actions).
Proof.
  intros Hsel.
  destruct (reachable_invariants c actions)
    as ((_ & Hselin) & _ & _ & _ & _ & Hnd).
  set (s := run (initial c) actions) in *.
  assert (Hin : In r (props s)) by (apply Hselin; exact Hsel).
  assert (Hdel : deleteSelectedProp s =
                 set_selectedProp None (set_props (splice_first r (props s)) s)).
  { unfold deleteSelectedProp, removeProp. rewrite Hsel, (existsb_In r _ Hin).
    simpl. rewrite Hsel, Nat.eqb_refl. reflexivity. }
  rewrite Hdel. simpl. rewrite (splice_first_removes r (props s) Hnd).
  split; [reflexivity|]. split.
  - intros Hin'. apply filter_In in Hin'. destruct Hin' as [_ Hneq].
    rewrite Nat.eqb_refl in Hneq. discriminate.
  - split; [|split; reflexivity].
    rewrite <- (splice_first_removes r (props s) Hnd).
    apply splice_first_length. exact Hin.
Qed.

Lemma delete_key_removes_selected_prop_witness :
  props (deleteSelectedProp (run (initial canvas1000)
           [AddProp crownAsset (Some crownImage) "id-1";
            AddProp chainAsset (Some chainImage) "id-2"])) =
    filter (fun a => negb (Nat.eqb a 1))
           (props (run (initial canvas1000)
              [AddProp crownAsset (Some crownImage) "id-1";
               AddProp chainAsset (Some chainImage) "id-2"])) /\
  selectedProp (deleteSelectedProp (run (initial canvas1000)
           [AddProp crownAsset (Some crownImage) "id-1";
            AddProp chainAsset (Some chainImage) "id-2"])) = None.
Proof.
  destruct (delete_key_removes_selected_prop canvas1000
              [AddProp crownAsset (Some crownImage) "id-1";
               AddProp chainAsset (Some chainImage) "id-2"] 1 eq_refl)
    as (Hprops & _ & _ & Hsel & _).
  split; [exact Hprops|exact Hsel].
Defined.

(** X15. In every state a session reaches from the initial one, adding a
    prop and pressing Delete right away gives back the prop list as it was;
    the selection is then empty, also when a prop was selected before the
    addition. *)
Theorem add_then_delete_restores_props
    (c : Canvas) (actions : list Action) (prop : Asset) (img : Image) (uuid : string) :
  props (deleteSelectedProp (addProp (run (initial c) actions) prop (Some img) uuid)) =
    props (run (initial c) actions) /\
  selectedProp
    (deleteSelectedProp (addProp (run (initial c) actions) prop (Some img) uuid)) =
    None.
Proof.
  destruct (reachable_invariants c actions) as ((Hrefs & _) & _).
  set (s := run (initial c) actions) in *.
  assert (Hfresh : ~ In (List.length (heap s)) (props s)).
  { intros Hin. apply Hrefs in Hin. lia. }
  set (s1 := addProp s prop (Some img) uuid).
  assert (Hsel1 : selectedProp s1 = Some (List.length (heap s))) by reflexivity.
  assert (Hprops1 : props s1 = props s ++ [List.length (heap s)]) by reflexivity.
  clearbody s1.
  unfold deleteSelectedProp. rewrite Hsel1. unfold removeProp.
  rewrite Hprops1, existsb_In by (apply in_or_app; right; left; reflexivity).
  cbn [selectedProp set_props]. rewrite Hsel1, Nat.eqb_refl.
  cbn [props selectedProp set_selectedProp set_props].
  rewrite (splice_first_last _ _ Hfresh). split; reflexivity.
Qed.

(** * The code scanner *)

Lemma js_eqb_eq (a b : JsString) : js_eqb a b = true <-> a = b.
Proof.
  revert b; induction a as [|x a IH]; intros [|y b]; simpl; split; intro H;
    try reflexivity; try discriminate.
  - apply andb_true_iff in H as [Hx Hab].
    apply N.eqb_eq in Hx. apply IH in Hab. now subst.
  - injection H as -> ->. rewrite N.eqb_refl. simpl. now apply IH.
Qed.

Lemma js_eqb_refl (a : JsString) : js_eqb a a = true.
Proof. now apply js_eqb_eq. Qed.

(** The conditions on code units, as propositions. *)
Ltac units H :=
  repeat first
    [ rewrite orb_true_iff in H | rewrite andb_true_iff in H
    | rewrite orb_false_iff in H | rewrite andb_false_iff in H
    | rewrite N.leb_le in H | rewrite N.eqb_eq in H
    | rewrite N.leb_gt in H | rewrite N.eqb_neq in H
    | rewrite negb_true_iff in H | rewrite negb_false_iff in H ].

Lemma code_char_bounds (c : N) :
  QRScanner.isCodeChar c = true -> (45 <= c <= 122)%N.
Proof. unfold QRScanner.isCodeChar. intro H. units H. lia. Qed.

Lemma white_space_bounds (c : N) :
  isWhiteSpace c = true -> (c <= 32 \/ 160 <= c)%N.
Proof. unfold isWhiteSpace. intro H. units H. lia. Qed.

Lemma code_char_not_white (c : N) :
  QRScanner.isCodeChar c = true -> isWhiteSpace c = false.
Proof.
  intro H. apply code_char_bounds in H.
  destruct (isWhiteSpace c) eqn:E; [|reflexivity].
  apply white_space_bounds in E. lia.
Qed.

Lemma code_char_not_bracket (c : N) :
  QRScanner.isCodeChar c = true -> (c =? 60)%N = false /\ (c =? 62)%N = false.
Proof.
  unfold QRScanner.isCodeChar. intro H. units H.
  split; apply N.eqb_neq; lia.
Qed.

Lemma white_space_not_bracket (c : N) :
  isWhiteSpace c = true -> (c =? 60)%N = false /\ (c =? 62)%N = false.
Proof.
  intro H. apply white_space_bounds in H. split; apply N.eqb_neq; lia.
Qed.

(** A text without [<] goes through the removal of tags as it is, whatever
    follows it. *)
Lemma stripTags_plain_prefix (a rest : JsString) :
  forallb (fun c => negb (c =? 60)%N) a = true ->
  QRScanner.stripTagsFrom false (a ++ rest) = a ++ QRScanner.stripTagsFrom false rest.
Proof.
  induction a as [|c a IH]; simpl; intro H; [reflexivity|].
  apply andb_true_iff in H as [Hc Ha]. apply negb_true_iff in Hc.
  rewrite Hc. simpl. now rewrite IH.
Qed.

Lemma stripTags_plain (a : JsString) :
  forallb (fun c => negb (c =? 60)%N) a = true ->
  QRScanner.stripTagsFrom false a = a.
Proof.
  intro H. rewrite <- (app_nil_r a) at 1.
  rewrite stripTags_plain_prefix by exact H. simpl. apply app_nil_r.
Qed.

(** Inside a tag, the text up to the first [>] is dropped. *)
Lemma stripTags_inside (t rest : JsString) :
  forallb (fun c => negb (c =? 62)%N) t = true ->
  QRScanner.stripTagsFrom true (t ++ 62%N :: rest) = QRScanner.stripTagsFrom false rest.
Proof.
  induction t as [|c t IH]; simpl; intro H; [reflexivity|].
  apply andb_true_iff in H as [Hc Ht]. apply negb_true_iff in Hc.
  rewrite Hc. now apply IH.
Qed.

Lemma forallb_weaken {A} (p q : A -> bool) (l : list A) :
  (forall x, p x = true -> q x = true) ->
  forallb p l = true -> forallb q l = true.
Proof.
  intros Hpq. induction l as [|x l IH]; simpl; [reflexivity|].
  intro H. apply andb_true_iff in H as [Hx Hl].
  rewrite (Hpq x Hx). now apply IH.
Qed.

Lemma forallb_rev {A} (p : A -> bool) (l : list A) :
  forallb p (rev l) = forallb p l.
Proof.
  induction l as [|x l IH]; simpl; [reflexivity|].
  rewrite forallb_app, IH. simpl. rewrite andb_true_r. apply andb_comm.
Qed.

Lemma code_text_no_lt (s : JsString) :
  forallb QRScanner.isCodeChar s = true ->
  forallb (fun c => negb (c =? 60)%N) s = true.
Proof.
  apply forallb_weaken. intros c Hc.
  destruct (code_char_not_bracket c Hc) as [-> _]. reflexivity.
Qed.

Lemma white_no_lt (s : JsString) :
  forallb isWhiteSpace s = true ->
  forallb (fun c => negb (c =? 60)%N) s = true.
Proof.
  apply forallb_weaken. intros c Hc.
  destruct (white_space_not_bracket c Hc) as [-> _]. reflexivity.
Qed.

Lemma trimStart_white (w s : JsString) :
  forallb isWhiteSpace w = true -> trimStart (w ++ s) = trimStart s.
Proof.
  induction w as [|c w IH]; simpl; intro H; [reflexivity|].
  apply andb_true_iff in H as [Hc Hw]. rewrite Hc. now apply IH.
Qed.

Lemma trimStart_code (s rest : JsString) :
  forallb QRScanner.isCodeChar s = true -> s <> [] ->
  trimStart (s ++ rest) = s ++ rest.
Proof.
  destruct s as [|c s]; [congruence|]. simpl. intros H _.
  apply andb_true_iff in H as [Hc _].
  now rewrite (code_char_not_white c Hc).
Qed.

(** White space around a text of code characters is what [trim] removes. *)
Lemma trim_padded (w1 s w2 : JsString) :
  forallb isWhiteSpace w1 = true ->
  forallb isWhiteSpace w2 = true ->
  forallb QRScanner.isCodeChar s = true ->
  trim (w1 ++ s ++ w2) = s.
Proof.
  intros H1 H2 Hs. unfold trim, trimEnd.
  rewrite trimStart_white by exact H1.
  destruct s as [|c s].
  - simpl. rewrite <- (app_nil_r w2), trimStart_white by exact H2. reflexivity.
  - rewrite trimStart_code by (exact Hs || discriminate).
    rewrite rev_app_distr.
    rewrite trimStart_white by (rewrite forallb_rev; exact H2).
    rewrite <- (app_nil_r (rev (c :: s))).
    rewrite trimStart_code.
    + rewrite app_nil_r. apply rev_involutive.
    + rewrite forallb_rev. exact Hs.
    + intro E. apply (f_equal (@List.length N)) in E.
      rewrite length_rev in E. discriminate.
Qed.

Lemma trim_code (s : JsString) :
  forallb QRScanner.isCodeChar s = true -> trim s = s.
Proof.
  intro H. rewrite <- (trim_padded [] s [] eq_refl eq_refl H) at 2.
  simpl. now rewrite app_nil_r.
Qed.

Lemma isCodeText_chars (s : JsString) :
  QRScanner.isCodeText s = true -> forallb QRScanner.isCodeChar s = true /\ s <> [].
Proof. destruct s; simpl; [discriminate|]. intro H. split; [exact H|discriminate]. Qed.

(** What [sanitizeCode] answers on a text whose tags and outer white space
    are known. *)
Lemma sanitizeCode_of (s core : JsString) :
  trim (QRScanner.stripTags s) = core ->
  QRScanner.isCodeText core = true ->
  (List.length core <= 50)%nat ->
  QRScanner.sanitizeCode (JString s) = Some core.
Proof.
  intros Hcore Htext Hlen. unfold QRScanner.sanitizeCode.
  rewrite Hcore, Htext. simpl.
  destruct (Nat.ltb_spec 50 (List.length core)); [lia|reflexivity].
Qed.

Lemma sanitizeCode_some (code : JSON) (out : JsString) :
  QRScanner.sanitizeCode code = Some out ->
  QRScanner.isCodeText out = true /\ (List.length out <= 50)%nat.
Proof.
  unfold QRScanner.sanitizeCode. destruct code; try discriminate.
  destruct (QRScanner.isCodeText _) eqn:Htext; simpl; [|discriminate].
  destruct (Nat.ltb_spec 50 (List.length (trim (QRScanner.stripTags s))));
    [discriminate|].
  intro E. injection E as <-. split; [exact Htext|assumption].
Qed.

Lemma sanitizeCode_clean (s : JsString) :
  QRScanner.isCodeText s = true -> (List.length s <= 50)%nat ->
  QRScanner.sanitizeCode (JString s) = Some s.
Proof.
  intros Htext Hlen. apply sanitizeCode_of; try assumption.
  destruct (isCodeText_chars s Htext) as [Hchars _].
  unfold QRScanner.stripTags.
  rewrite stripTags_plain by now apply code_text_no_lt.
  now apply trim_code.
Qed.

(** X16. What [sanitizeCode] returns is a text of 1 to 50 letters, digits,
    hyphens and underscores, so without [<], [>] or white space, and
    [sanitizeCode] returns it unchanged when it is given it again. *)
Theorem sanitized_code_is_clean_and_stable (code : JSON) (out : JsString) :
  QRScanner.sanitizeCode code = Some out ->
  out <> [] /\
  (List.length out <= 50)%nat /\
  Forall (fun c => QRScanner.isCodeChar c = true /\ c <> 60%N /\ c <> 62%N
                   /\ isWhiteSpace c = false) out /\
  QRScanner.sanitizeCode (JString out) = Some out.
Proof.
  intro H. destruct (sanitizeCode_some code out H) as [Htext Hlen].
  destruct (isCodeText_chars out Htext) as [Hchars Hne].
  repeat split; try assumption.
  - apply Forall_forall. intros c Hin.
    rewrite forallb_forall in Hchars. specialize (Hchars c Hin).
    destruct (code_char_not_bracket c Hchars) as [H60 H62].
    apply N.eqb_neq in H60, H62.
    repeat split; try assumption. now apply code_char_not_white.
  - now apply sanitizeCode_clean.
Qed.

Lemma sanitized_code_is_clean_and_stable_witness :
  QRScanner.sanitizeCode (JString (js " <b>VIP-1234</b> ")) = Some (js "VIP-1234") /\
  QRScanner.sanitizeCode (JString (js "VIP-1234")) = Some (js "VIP-1234").
Proof.
  split; [reflexivity|].
  apply (sanitized_code_is_clean_and_stable
           (JString (js " <b>VIP-1234</b> ")) (js "VIP-1234")).
  reflexivity.
Defined.

(** X17. Markup and outer white space do not make a code invalid: they are
    taken out.  A text made of white space, the start [a] of a code, a tag
    [<t>], the rest [b] of the code and white space is sanitized to the
    code [a ++ b]. *)
Theorem markup_and_white_space_are_dropped (w1 a t b w2 : JsString) :
  forallb isWhiteSpace w1 = true ->
  forallb isWhiteSpace w2 = true ->
  forallb (fun c => negb (c =? 62)%N) t = true ->
  QRScanner.isCodeText (a ++ b) = true ->
  (List.length (a ++ b) <= 50)%nat ->
  QRScanner.sanitizeCode (JString (w1 ++ a ++ 60%N :: t ++ 62%N :: b ++ w2))
  = Some (a ++ b).
Proof.
  intros H1 H2 Ht Htext Hlen.
  destruct (isCodeText_chars _ Htext) as [Hchars _].
  rewrite forallb_app in Hchars. apply andb_true_iff in Hchars as [Ha Hb].
  apply sanitizeCode_of; try assumption.
  unfold QRScanner.stripTags.
  rewrite stripTags_plain_prefix by now apply white_no_lt.
  rewrite stripTags_plain_prefix by now apply code_text_no_lt.
  assert (Hgt : existsb (N.eqb 62) (t ++ 62%N :: b ++ w2) = true).
  { rewrite existsb_app. simpl. apply orb_true_r. }
  simpl. rewrite Hgt.
  rewrite stripTags_inside by exact Ht.
  rewrite stripTags_plain_prefix by now apply code_text_no_lt.
  rewrite stripTags_plain by now apply white_no_lt.
  rewrite (app_assoc a b w2).
  apply trim_padded; try assumption.
  rewrite forallb_app, Ha, Hb. reflexivity.
Qed.

Lemma markup_and_white_space_are_dropped_witness :
  QRScanner.sanitizeCode (JString (js "  VIP<script src=x>-1234 ")) = Some (js "VIP-1234").
Proof.
  apply (markup_and_white_space_are_dropped
           (js "  ") (js "VIP") (js "script src=x") (js "-1234") (js " "));
    reflexivity || (vm_compute; lia).
Defined.

(** * The storage manager *)

Section StorageFacts.
Context {B : Browser}.
Implicit Types (st : Storage.Store B) (l : list (string * Text B)).

Lemma ls_get_set_same (key : string) (v : Text B) l :
  Storage.ls_getItem key (Storage.ls_setItem key v l) = Some v.
Proof.
  induction l as [|[k v'] l IH]; simpl.
  - now rewrite String.eqb_refl.
  - destruct (String.eqb key k) eqn:E; simpl; rewrite E; [reflexivity|exact IH].
Qed.

Lemma ls_get_remove_same (key : string) l :
  Storage.ls_getItem key (Storage.ls_removeItem key l) = None.
Proof.
  induction l as [|[k v'] l IH]; simpl; [reflexivity|].
  destruct (String.eqb key k) eqn:E; simpl; [exact IH|]. now rewrite E.
Qed.

Lemma ls_get_remove_other (key key' : string) l :
  String.eqb key' key = false ->
  Storage.ls_getItem key' (Storage.ls_removeItem key l) = Storage.ls_getItem key' l.
Proof.
  intro Hk. induction l as [|[k v'] l IH]; simpl; [reflexivity|].
  destruct (String.eqb key k) eqn:E; simpl.
  - apply String.eqb_eq in E. subst k. now rewrite Hk.
  - now rewrite IH.
Qed.

Lemma same_storage_refl st : Storage.same_storage st st.
Proof. now split. Qed.

Lemma same_storage_trans st1 st2 st3 :
  Storage.same_storage st1 st2 -> Storage.same_storage st2 st3 -> Storage.same_storage st1 st3.
Proof. intros [A1 L1] [A2 L2]. split; congruence. Qed.

Lemma getItem_same_storage (key : string) (d : JSON) st :
  Storage.same_storage st (snd (Storage.getItem key d st)).
Proof.
  unfold Storage.getItem.
  destruct (Storage.isAvailable st); simpl; [|apply same_storage_refl].
  destruct (Storage.ls_getItem key (Storage.localStorage st));
    [|apply same_storage_refl].
  destruct (JSON_parse B t); simpl; now split.
Qed.

Lemma getItem_value_same_storage (key : string) (d : JSON) st st' :
  Storage.same_storage st st' ->
  fst (Storage.getItem key d st') = fst (Storage.getItem key d st).
Proof.
  intros [HA HL]. unfold Storage.getItem. rewrite HA, HL.
  destruct (Storage.isAvailable st); simpl; [|reflexivity].
  destruct (Storage.ls_getItem key (Storage.localStorage st)); [|reflexivity].
  destruct (JSON_parse B t); reflexivity.
Qed.

Lemma setItem_done (key : string) (v : JSON) st st' :
  Storage.setItem key v st = (true, st') ->
  Storage.isAvailable st' = true /\
  Storage.localStorage st'
  = Storage.ls_setItem key (JSON_stringify B v) (Storage.localStorage st).
Proof.
  unfold Storage.setItem.
  destruct (Storage.isAvailable st) eqn:HA; simpl; [|discriminate].
  destruct (Storage.isStorageFull st); [discriminate|].
  destruct (setItem_throws B _ _ _); [discriminate|].
  intro E. injection E as <-. simpl. now split.
Qed.

Lemma setItem_failed (key : string) (v : JSON) st st' :
  Storage.setItem key v st = (false, st') -> Storage.same_storage st st'.
Proof.
  unfold Storage.setItem.
  destruct (Storage.isAvailable st) eqn:HA; simpl.
  - destruct (Storage.isStorageFull st).
    + intro E. injection E as <-. apply same_storage_refl.
    + destruct (setItem_throws B _ _ _); [|discriminate].
      intro E. injection E as <-. now split.
  - intro E. injection E as <-. apply same_storage_refl.
Qed.

(** What was stored under a key is what is read under it. *)
Lemma getItem_after_setItem (key : string) (v d : JSON) st st' :
  faithful B ->
  Storage.setItem key v st = (true, st') ->
  fst (Storage.getItem key d st') = v.
Proof.
  intros HB H. apply setItem_done in H as [HA HL].
  unfold Storage.getItem. rewrite HA, HL. simpl.
  rewrite ls_get_set_same, HB. reflexivity.
Qed.

Lemma getPhotos_same_storage st : Storage.same_storage st (snd (Storage.getPhotos st)).
Proof.
  unfold Storage.getPhotos.
  pose proof (getItem_same_storage CONFIG.STORAGE.KEYS.PHOTOS (JArray []) st) as H.
  destruct (Storage.getItem _ _ st). exact H.
Qed.

Lemma getPhotos_value_same_storage st st' :
  Storage.same_storage st st' ->
  fst (Storage.getPhotos st') = fst (Storage.getPhotos st).
Proof.
  intro H. unfold Storage.getPhotos.
  pose proof (getItem_value_same_storage CONFIG.STORAGE.KEYS.PHOTOS (JArray []) st st' H) as E.
  destruct (Storage.getItem _ _ st'), (Storage.getItem _ _ st).
  simpl in *. now rewrite E.
Qed.

(** The photos [setPhotos] keeps. *)
Lemma setPhotos_done (items : list JSON) st st' :
  faithful B ->
  Storage.setPhotos (JArray items) st = (true, st') ->
  fst (Storage.getPhotos st')
  = if (CONFIG.STORAGE.MAX_PHOTOS <? List.length items)%nat
    then Storage.slice_last CONFIG.STORAGE.CLEANUP_THRESHOLD items
    else items.
Proof.
  intros HB H. unfold Storage.setPhotos in H.
  unfold Storage.getPhotos.
  pose proof (getItem_after_setItem _ _ (JArray []) _ _ HB H) as E.
  destruct (Storage.getItem CONFIG.STORAGE.KEYS.PHOTOS (JArray []) st').
  simpl in *. now rewrite E.
Qed.

Lemma setPhotos_failed (photos : JSON) st st' :
  Storage.setPhotos photos st = (false, st') -> Storage.same_storage st st'.
Proof.
  unfold Storage.setPhotos. destruct photos;
    try (intro E; injection E as <-; apply same_storage_refl).
  apply setItem_failed.
Qed.

End StorageFacts.

Lemma slice_last_length (n : nat) (items : list JSON) :
  List.length (Storage.slice_last n items) = Nat.min n (List.length items).
Proof. unfold Storage.slice_last. rewrite length_skipn. lia. Qed.

Lemma slice_last_snoc (n : nat) (items : list JSON) (x : JSON) :
  (1 <= n)%nat ->
  Storage.slice_last n (items ++ [x]) = Storage.slice_last (n - 1) items ++ [x].
Proof.
  intro Hn. unfold Storage.slice_last.
  rewrite length_app. simpl.
  rewrite skipn_app.
  replace (List.length items + 1 - n - List.length items)%nat with 0%nat by lia.
  simpl. f_equal. f_equal. lia.
Qed.

(** X18. A photo that [addPhoto] reports as saved is the last of the stored
    photos, after the ones that were there; when that makes more than 100,
    only the last 50 are kept.  So no more than 100 photos are stored this
    way, and the 101st costs the 51 oldest. *)
Theorem addPhoto_keeps_newest_within_bounds
    (B : Browser) (photo : JSON) (st st' : Storage.Store B) :
  faithful B ->
  Storage.addPhoto photo st = (true, st') ->
  fst (Storage.getPhotos st')
  = (if (CONFIG.STORAGE.MAX_PHOTOS <? List.length (fst (Storage.getPhotos st)) + 1)%nat
     then Storage.slice_last (CONFIG.STORAGE.CLEANUP_THRESHOLD - 1)
            (fst (Storage.getPhotos st)) ++ [photo]
     else fst (Storage.getPhotos st) ++ [photo]) /\
  (List.length (fst (Storage.getPhotos st')) <= CONFIG.STORAGE.MAX_PHOTOS)%nat /\
  (List.length (fst (Storage.getPhotos st)) = CONFIG.STORAGE.MAX_PHOTOS ->
   List.length (fst (Storage.getPhotos st')) = CONFIG.STORAGE.CLEANUP_THRESHOLD).
Proof.
  intros HB H.
  unfold Storage.addPhoto in H.
  destruct (Storage.getPhotos st) as [photos st1] eqn:Hget. simpl.
  rewrite (setPhotos_done _ _ _ HB H).
  rewrite length_app. change (List.length [photo]) with 1%nat.
  unfold CONFIG.STORAGE.MAX_PHOTOS, CONFIG.STORAGE.CLEANUP_THRESHOLD.
  destruct (Nat.ltb_spec 100 (List.length photos + 1)) as [Hlt|Hle].
  - rewrite slice_last_snoc by lia.
    split; [reflexivity|].
    rewrite length_app, slice_last_length.
    change (List.length [photo]) with 1%nat. lia.
  - split; [reflexivity|]. rewrite length_app.
    change (List.length [photo]) with 1%nat. lia.
Qed.

Lemma addPhoto_keeps_newest_within_bounds_witness :
  fst (Storage.getPhotos (snd (Storage.addPhoto (photoWithId "c") threePhotos)))
  = [photoWithId "a"; photoWithId "b"; photoWithId "a"; photoWithId "c"].
Proof.
  exact (proj1 (addPhoto_keeps_newest_within_bounds plainBrowser (photoWithId "c")
                  threePhotos (snd (Storage.addPhoto (photoWithId "c") threePhotos))
                  (fun v => eq_refl) eq_refl)).
Defined.

(** X19. When [addPhoto] reports a failure (storage unavailable, nearly
    full, or the quota exceeded), [localStorage] is as it was, and so are
    the stored photos. *)
Theorem failed_addPhoto_changes_nothing
    (B : Browser) (photo : JSON) (st st' : Storage.Store B) :
  Storage.addPhoto photo st = (false, st') ->
  Storage.localStorage st' = Storage.localStorage st /\
  fst (Storage.getPhotos st') = fst (Storage.getPhotos st).
Proof.
  intro H. unfold Storage.addPhoto in H.
  pose proof (getPhotos_same_storage st) as H1.
  destruct (Storage.getPhotos st) as [photos st1] eqn:Hget. simpl in H1.
  apply setPhotos_failed in H.
  pose proof (same_storage_trans _ _ _ H1 H) as H2.
  split; [apply H2|].
  rewrite (getPhotos_value_same_storage st st' H2), Hget. reflexivity.
Qed.

Lemma failed_addPhoto_changes_nothing_witness :
  fst (Storage.addPhoto (photoWithId "b") fullStore) = false /\
  fst (Storage.getPhotos (snd (Storage.addPhoto (photoWithId "b") fullStore)))
  = [photoWithId "a"].
Proof.
  split; [reflexivity|].
  exact (proj2 (failed_addPhoto_changes_nothing bulkyBrowser (photoWithId "b") fullStore
                  (snd (Storage.addPhoto (photoWithId "b") fullStore)) eq_refl)).
Defined.

Lemma filter_other_ids_filter (photoId : JSON) (photos kept : list JSON) :
  Storage.filter_other_ids photoId photos = Some kept ->
  kept = filter (fun p => negb (Storage.hasId photoId p)) photos /\
  ~ In JNull photos.
Proof.
  revert kept. induction photos as [|p photos IH]; simpl; intros kept H.
  - injection H as <-. split; [reflexivity|tauto].
  - assert (Hp : p <> JNull).
    { intro E. subst p. simpl in H. discriminate. }
    destruct (Storage.filter_other_ids photoId photos) as [k|].
    + destruct (IH k eq_refl) as [-> Hnull].
      assert (E : kept = if Storage.hasId photoId p
                         then filter (fun p => negb (Storage.hasId photoId p)) photos
                         else p :: filter (fun p => negb (Storage.hasId photoId p)) photos).
      { destruct (get_id p); congruence. }
      split.
      * rewrite E. destruct (Storage.hasId photoId p); reflexivity.
      * intros [E'|E']; [congruence|tauto].
    + destruct (get_id p); discriminate.
Qed.

(** X20. When [removePhoto] reports success, the stored photos are the
    former ones without those whose [id] is the given one, in the same
    order; and none of the former ones was [null] (on which reading [id]
    throws).  The former photos are taken to be 100 at most, as [addPhoto]
    leaves them. *)
Theorem removePhoto_removes_that_id
    (B : Browser) (photoId : JSON) (st st' : Storage.Store B) :
  faithful B ->
  (List.length (fst (Storage.getPhotos st)) <= CONFIG.STORAGE.MAX_PHOTOS)%nat ->
  Storage.removePhoto photoId st = Some (true, st') ->
  fst (Storage.getPhotos st')
  = filter (fun p => negb (Storage.hasId photoId p)) (fst (Storage.getPhotos st)) /\
  ~ In JNull (fst (Storage.getPhotos st)).
Proof.
  intros HB Hlen H. unfold Storage.removePhoto in H.
  destruct (Storage.getPhotos st) as [photos st1] eqn:Hget. simpl in *.
  destruct (Storage.filter_other_ids photoId photos) as [kept|] eqn:Hf;
    [|discriminate].
  injection H as H.
  destruct (filter_other_ids_filter _ _ _ Hf) as [-> Hnull].
  split; [|exact Hnull].
  rewrite (setPhotos_done _ _ _ HB H).
  pose proof (filter_length_le (fun p => negb (Storage.hasId photoId p)) photos) as Hle.
  destruct (Nat.ltb_spec CONFIG.STORAGE.MAX_PHOTOS
              (List.length (filter (fun p => negb (Storage.hasId photoId p)) photos)));
    [lia|reflexivity].
Qed.

Lemma removePhoto_removes_that_id_witness :
  fst (Storage.getPhotos
         (snd (Storage.setPhotos (JArray [photoWithId "b"]) threePhotos)))
  = [photoWithId "b"] /\
  Storage.removePhoto (JString (js "a")) threePhotos
  = Some (Storage.setPhotos (JArray [photoWithId "b"]) threePhotos).
Proof.
  split; [|reflexivity].
  exact (proj1 (removePhoto_removes_that_id plainBrowser (JString (js "a")) threePhotos
                  (snd (Storage.setPhotos (JArray [photoWithId "b"]) threePhotos))
                  (fun v => eq_refl) ltac:(vm_compute; lia) eq_refl)).
Defined.

(** X21. [setPin] accepts a string of four code units and nothing else;
    the PIN read afterwards is the new one when it was stored, and the
    former one (or the default) when it was not. *)
Theorem setPin_then_getPin (B : Browser) (pin : JSON) (st : Storage.Store B) :
  faithful B ->
  (fst (Storage.setPin pin st) = true ->
   exists s, pin = JString s /\ List.length s = CONFIG.SECURITY.PIN_LENGTH) /\
  fst (Storage.getPin (snd (Storage.setPin pin st)))
  = if fst (Storage.setPin pin st) then pin else fst (Storage.getPin st).
Proof.
  intro HB. split.
  - unfold Storage.setPin. destruct pin; simpl; try discriminate.
    destruct (Nat.eqb_spec (List.length s) CONFIG.SECURITY.PIN_LENGTH);
      simpl; [|discriminate].
    intros _. now exists s.
  - destruct (Storage.setPin pin st) as [[|] st'] eqn:H; simpl.
    + unfold Storage.setPin in H. destruct pin; try discriminate.
      destruct (negb _); [discriminate|].
      unfold Storage.getPin. now apply (getItem_after_setItem _ _ _ _ _ HB H).
    + assert (Hs : Storage.same_storage st st').
      { unfold Storage.setPin in H. destruct pin;
          try (injection H as <-; apply same_storage_refl).
        destruct (negb _); [injection H as <-; apply same_storage_refl|].
        now apply setItem_failed in H. }
      unfold Storage.getPin. now apply getItem_value_same_storage.
Qed.

Lemma setPin_then_getPin_witness :
  fst (Storage.getPin (snd (Storage.setPin (JString (js "2468")) emptyStore)))
  = JString (js "2468") /\
  fst (Storage.getPin (snd (Storage.setPin (JString (js "24680")) emptyStore)))
  = JString (js "1234").
Proof.
  split.
  - exact (proj2 (setPin_then_getPin plainBrowser (JString (js "2468")) emptyStore
                    (fun v => eq_refl))).
  - exact (proj2 (setPin_then_getPin plainBrowser (JString (js "24680")) emptyStore
                    (fun v => eq_refl))).
Defined.

(** * The approved codes *)

Lemma split_lines_one_line (s : JsString) :
  forallb (fun u => negb (u =? 10)%N && negb (u =? 13)%N) s = true ->
  split_lines s = [s].
Proof.
  induction s as [|c s IH]; [reflexivity|].
  intro H. simpl in H. apply andb_true_iff in H as [Hc Hs].
  apply andb_true_iff in Hc as [H10 H13].
  apply negb_true_iff in H10, H13.
  specialize (IH Hs). simpl. rewrite H10, H13. simpl.
  destruct s; [reflexivity|]. now rewrite IH.
Qed.

Lemma split_lines_line_feed (a s : JsString) :
  forallb (fun u => negb (u =? 10)%N && negb (u =? 13)%N) a = true ->
  split_lines (a ++ 10%N :: s) = a :: split_lines s.
Proof.
  induction a as [|c a IH]; [reflexivity|].
  intro H. simpl in H. apply andb_true_iff in H as [Hc Ha].
  apply andb_true_iff in Hc as [H10 H13].
  apply negb_true_iff in H10, H13.
  specialize (IH Ha).
  change ((c :: a) ++ 10%N :: s) with (c :: (a ++ 10%N :: s)).
  remember (a ++ 10%N :: s) as r eqn:Hr.
  simpl. rewrite H10, H13. simpl.
  destruct r as [|c' r]; [destruct a; discriminate|].
  now rewrite IH.
Qed.

Lemma isStorableCode_parts (c : JsString) :
  isStorableCode c = true ->
  Storage.isEmpty c = false /\
  forallb (fun u => negb (u =? 10)%N && negb (u =? 13)%N) c = true /\
  trim c = c.
Proof.
  unfold isStorableCode. intro H.
  apply andb_true_iff in H as [H Ht]. apply andb_true_iff in H as [He Hl].
  apply negb_true_iff in He. apply js_eqb_eq in Ht. auto.
Qed.

(** The lines of the text [setApprovedCodes] stores are the codes. *)
Lemma split_join_lines (c : JsString) (codes : list JsString) :
  forallb isStorableCode (c :: codes) = true ->
  split_lines (join_lines (c :: codes)) = c :: codes.
Proof.
  revert c. induction codes as [|c' codes IH]; intros c H.
  - simpl in H. rewrite andb_true_r in H.
    apply isStorableCode_parts in H as (_ & Hl & _).
    simpl. now apply split_lines_one_line.
  - change (forallb isStorableCode (c :: c' :: codes))
      with (isStorableCode c && forallb isStorableCode (c' :: codes)) in H.
    apply andb_true_iff in H as [Hc H].
    apply isStorableCode_parts in Hc as (_ & Hl & _).
    change (join_lines (c :: c' :: codes)) with (c ++ 10%N :: join_lines (c' :: codes)).
    rewrite split_lines_line_feed by exact Hl.
    now rewrite IH.
Qed.

Lemma join_lines_not_empty (c : JsString) (codes : list JsString) :
  Storage.isEmpty c = false -> Storage.isEmpty (join_lines (c :: codes)) = false.
Proof.
  intro H. destruct c; [discriminate|]. destruct codes; reflexivity.
Qed.

Lemma storable_codes_read_back (codes : list JsString) :
  forallb isStorableCode codes = true ->
  filter (fun c => negb (Storage.isEmpty c)) (map trim codes) = codes.
Proof.
  induction codes as [|c codes IH]; [reflexivity|].
  intro H. simpl in H. apply andb_true_iff in H as [Hc H].
  apply isStorableCode_parts in Hc as (He & _ & Ht).
  simpl. rewrite Ht, He. simpl. now rewrite IH.
Qed.

(** The text [getApprovedCodes] works on is the text [setApprovedCodes]
    stored. *)
Lemma stored_text_is_read
    (B : Browser) (codes : list JsString) (st st' : Storage.Store B) :
  faithful B ->
  Storage.setApprovedCodes codes st = (true, st') ->
  fst (Storage.getItem CONFIG.STORAGE.KEYS.APPROVED_CODES JNull st')
  = JString (join_lines codes).
Proof.
  intros HB H. unfold Storage.setApprovedCodes in H.
  exact (getItem_after_setItem _ _ JNull _ _ HB H).
Qed.

(** The codes [getApprovedCodes] finds in the text of storable codes. *)
Lemma lines_of_stored_codes (c : JsString) (codes : list JsString) :
  forallb isStorableCode (c :: codes) = true ->
  Storage.isEmpty (join_lines (c :: codes)) = false /\
  filter (fun c => negb (Storage.isEmpty c))
    (map trim (split_lines (join_lines (c :: codes)))) = c :: codes.
Proof.
  intro Hcodes.
  assert (He : Storage.isEmpty c = false).
  { simpl in Hcodes. apply andb_true_iff in Hcodes as [Hc _].
    now apply isStorableCode_parts in Hc. }
  split; [now apply join_lines_not_empty|].
  rewrite split_join_lines by exact Hcodes.
  now apply storable_codes_read_back.
Qed.

(** X22. The codes saved by [setApprovedCodes] are the codes
    [getApprovedCodes] gives afterwards, when each is not empty, on one
    line and without white space at its ends, and there is at least one.
    After an empty list was saved, [getApprovedCodes] gives the default
    codes of the configuration: the stored text is the empty string, which
    counts as no text. *)
Theorem approved_codes_read_back
    (B : Browser) (codes : list JsString) (st st' : Storage.Store B) :
  faithful B ->
  forallb isStorableCode codes = true ->
  Storage.setApprovedCodes codes st = (true, st') ->
  fst (Storage.getApprovedCodes st')
  = match codes with
    | [] => map js CONFIG.QR.DEFAULT_APPROVED_CODES
    | _ => codes
    end.
Proof.
  intros HB Hcodes H.
  pose proof (stored_text_is_read B codes st st' HB H) as E.
  unfold Storage.getApprovedCodes.
  destruct (Storage.getItem CONFIG.STORAGE.KEYS.APPROVED_CODES JNull st') as [v st1].
  simpl in E. subst v.
  destruct codes as [|c codes]; [reflexivity|].
  destruct (lines_of_stored_codes c codes Hcodes) as [He Hlines].
  rewrite He, Hlines. reflexivity.
Qed.

Lemma approved_codes_read_back_witness :
  fst (Storage.getApprovedCodes
         (snd (Storage.setApprovedCodes [js "VIP 7"; js "GG_2026"] emptyStore)))
  = [js "VIP 7"; js "GG_2026"] /\
  fst (Storage.getApprovedCodes (snd (Storage.setApprovedCodes [] emptyStore)))
  = [js "GG-TEST-2025"; js "VIP-1234"].
Proof.
  split.
  - exact (approved_codes_read_back plainBrowser [js "VIP 7"; js "GG_2026"] emptyStore
             (snd (Storage.setApprovedCodes [js "VIP 7"; js "GG_2026"] emptyStore))
             (fun v => eq_refl) eq_refl eq_refl).
  - exact (approved_codes_read_back plainBrowser [] emptyStore
             (snd (Storage.setApprovedCodes [] emptyStore))
             (fun v => eq_refl) eq_refl eq_refl).
Defined.

Lemma includes_In (s : JsString) (array : list JsString) :
  includes s array = true <-> In s array.
Proof.
  unfold includes. rewrite existsb_exists. split.
  - intros (x & Hin & E). apply js_eqb_eq in E. now subst.
  - intro Hin. exists s. split; [exact Hin|apply js_eqb_refl].
Qed.

(** X23. Once codes are saved, a code entered by hand is reported as valid
    and approved exactly when, white space around it apart, it is one of
    them; the code reported is the code without the white space. *)
Theorem entered_code_is_checked_against_saved_codes
    (B : Browser) (c w1 w2 : JsString) (first : JsString) (others : list JsString)
    (st st' : Storage.Store B) :
  faithful B ->
  forallb isStorableCode (first :: others) = true ->
  Storage.setApprovedCodes (first :: others) st = (true, st') ->
  forallb isWhiteSpace w1 = true ->
  forallb isWhiteSpace w2 = true ->
  QRScanner.isCodeText c = true ->
  (List.length c <= 50)%nat ->
  valid (fst (verifyManualCode (JString (w1 ++ c ++ w2)) st')) = true /\
  verified_code (fst (verifyManualCode (JString (w1 ++ c ++ w2)) st')) = Some c /\
  (approved (fst (verifyManualCode (JString (w1 ++ c ++ w2)) st')) = true
   <-> In c (first :: others)).
Proof.
  intros HB Hcodes Hset H1 H2 Htext Hlen.
  assert (Hread : fst (Storage.getApprovedCodes st') = first :: others).
  { pose proof (stored_text_is_read B _ st st' HB Hset) as E.
    unfold Storage.getApprovedCodes.
    destruct (Storage.getItem CONFIG.STORAGE.KEYS.APPROVED_CODES JNull st') as [v st2].
    cbn [fst] in E. subst v.
    destruct (lines_of_stored_codes first others Hcodes) as [He Hlines].
    rewrite He, Hlines. reflexivity. }
  assert (Hs : QRScanner.sanitizeCode (JString (w1 ++ c ++ w2)) = Some c).
  { apply sanitizeCode_of; try assumption.
    destruct (isCodeText_chars c Htext) as [Hchars _].
    unfold QRScanner.stripTags. rewrite stripTags_plain.
    - now apply trim_padded.
    - rewrite !forallb_app.
      rewrite (white_no_lt w1 H1), (white_no_lt w2 H2), (code_text_no_lt c Hchars).
      reflexivity. }
  unfold verifyManualCode. rewrite Hs.
  destruct (Storage.getApprovedCodes st') as [approvedCodes st1].
  simpl in Hread. subst approvedCodes. simpl.
  repeat split; try reflexivity.
  - intro H. now apply (includes_In c (first :: others)).
  - intro H. now apply (includes_In c (first :: others)).
Qed.

Lemma entered_code_is_checked_against_saved_codes_witness :
  approved
    (fst (verifyManualCode (JString (js " GG_2026 "))
            (snd (Storage.setApprovedCodes [js "VIP-7"; js "GG_2026"] emptyStore))))
  = true.
Proof.
  apply (entered_code_is_checked_against_saved_codes plainBrowser
           (js "GG_2026") (js " ") (js " ") (js "VIP-7") [js "GG_2026"] emptyStore
           (snd (Storage.setApprovedCodes [js "VIP-7"; js "GG_2026"] emptyStore))
           (fun v => eq_refl) eq_refl eq_refl eq_refl eq_refl eq_refl
           ltac:(vm_compute; lia)).
  right. left. reflexivity.
Defined.

(** * The session manager *)

(** Runs the methods of the manager on a manager given by its fields. *)
Ltac session_eval :=
  cbv [Session.handle Session.createSession Session.updateActivity
       Session.extendSession Session.sessionTimerFires Session.destroy
       Session.resetTimeout Session.handleSessionTimeout Session.endSession
       Session.clearSession Session.clearTimeout Session.saveSession
       Session.set_currentSession Session.set_timeoutId Session.set_storage
       Session.set_lastActivity Session.set_loginAttempts
       Session.set_attemptTimers Session.timer_follows_session
       Session.timer_due_at_expiry Session.shortExtension
       Session.attempts_in_check
       Session.currentSession Session.timeoutId Session.loginAttempts
       Session.this_lastActivity Session.attemptTimers Session.storage
       Session.id Session.type Session.createdAt Session.lastActivity
       Session.expiresAt Session.data Session.isActive Session.endedAt
       fst snd].

(** Splits on what a method tests. *)
Ltac session_cases :=
  repeat
    (match goal with
     | |- context [if Z.ltb ?a ?b then _ else _] => destruct (Z.ltb_spec a b)
     | |- context [if Z.leb ?a ?b then _ else _] => destruct (Z.leb_spec a b)
     end; cbv beta iota).

Lemma remove_nth_length (i : nat) (l : list Z) (x : Z) :
  nth_error l i = Some x ->
  List.length l = S (List.length (Session.remove_nth i l)).
Proof.
  revert l. induction i as [|i IH]; intros [|y l]; simpl; try discriminate.
  - reflexivity.
  - intro H. now rewrite <- (IH l H).
Qed.

(** What [setTimeout] makes of a delay. *)
Lemma timerDelay_le (d : Z) : (0 < d)%Z -> (Session.timerDelay d <= d)%Z.
Proof.
  intro Hd. unfold Session.timerDelay, Session.toInt32.
  change (2 ^ 31)%Z with 2147483648%Z. change (2 ^ 32)%Z with 4294967296%Z.
  pose proof (Z.mod_le (d + 2147483648) 4294967296) as Hle.
  lia.
Qed.

Lemma timerDelay_fits (d : Z) :
  (0 <= d < 2147483648)%Z -> Session.timerDelay d = d.
Proof.
  intro Hd. unfold Session.timerDelay, Session.toInt32.
  change (2 ^ 31)%Z with 2147483648%Z. change (2 ^ 32)%Z with 4294967296%Z.
  rewrite Z.mod_small by lia. lia.
Qed.

(** A delay from 2^31 ms up to 2^32 ms makes a timer that is due at once. *)
Lemma timerDelay_overflow (d : Z) :
  (2147483648 <= d < 4294967296)%Z -> Session.timerDelay d = 0%Z.
Proof.
  intro Hd. unfold Session.timerDelay, Session.toInt32.
  change (2 ^ 31)%Z with 2147483648%Z. change (2 ^ 32)%Z with 4294967296%Z.
  replace (d + 2147483648)%Z with (d - 2147483648 + 1 * 4294967296)%Z by lia.
  rewrite Z.mod_add by lia. rewrite Z.mod_small by lia. lia.
Qed.

(** The timer just set is due no later than the expiry. *)
Ltac timer_bounded :=
  try reflexivity;
  repeat split; try assumption; try reflexivity;
  try (eexists; split; [reflexivity|];
       match goal with
       | H : (0 < ?d)%Z |- context [Session.timerDelay ?d] =>
           pose proof (timerDelay_le d H); lia
       end).

(** The timer just set is due at the expiry, the delay being one that
    [setTimeout] takes as it is. *)
Ltac timer_exact :=
  try reflexivity;
  try (match goal with
       | H : (0 < ?d)%Z |- context [Session.timerDelay ?d] =>
           rewrite (timerDelay_fits d)
             by (change (2 ^ 31)%Z with 2147483648%Z in *; lia)
       end; f_equal; lia).

Section SessionFacts.
Context {B : Browser}.
Implicit Types (m : Session.Manager B) (st : Storage.Store B).

Lemma handle_attempts_in_check m (e : Session.Event) :
  Session.attempts_in_check m -> Session.attempts_in_check (Session.handle m e).
Proof.
  destruct e as [now uuid type data|now|now additionalTime|now| |now pin|pin|now|now i];
    try (destruct m as [[s|] [due|] a la timers st]; session_eval;
         session_cases; exact (fun Hinv => Hinv)).
  - (* validatePin *)
    unfold Session.attempts_in_check, CONFIG.SECURITY.MAX_LOGIN_ATTEMPTS.
    intros [Hrange Hpending].
    unfold Session.handle, Session.validatePin,
      CONFIG.SECURITY.MAX_LOGIN_ATTEMPTS.
    destruct (Z.leb_spec 3 (Session.loginAttempts m)); [cbn [snd]; now split|].
    destruct (Storage.getPin (Session.storage m)) as [storedPin st1].
    destruct (strict_equals pin storedPin);
      cbn [negb snd Session.loginAttempts Session.attemptTimers
           Session.set_loginAttempts Session.set_attemptTimers Session.set_storage].
    + split; lia.
    + rewrite length_app. change (List.length [(now + 60000)%Z]) with 1%nat.
      split; lia.
  - (* the timer of an attempt *)
    unfold Session.attempts_in_check, CONFIG.SECURITY.MAX_LOGIN_ATTEMPTS.
    intros [Hrange Hpending].
    unfold Session.handle, Session.attemptTimerFires.
    destruct (nth_error (Session.attemptTimers m) i) as [due|] eqn:Hnth;
      [|now split].
    destruct (Z.leb_spec due now); [|now split].
    cbn [Session.loginAttempts Session.attemptTimers
         Session.set_loginAttempts Session.set_attemptTimers].
    pose proof (remove_nth_length _ _ _ Hnth). split; lia.
Qed.

Lemma handleAll_attempts_in_check (events : list Session.Event) m :
  Session.attempts_in_check m ->
  Session.attempts_in_check (Session.handleAll m events).
Proof.
  revert m. induction events as [|e events IH]; intros m H; [exact H|].
  apply IH. now apply handle_attempts_in_check.
Qed.

Lemma handle_timer_follows_session m (e : Session.Event) :
  Session.timer_follows_session m ->
  Session.timer_follows_session (Session.handle m e).
Proof.
  destruct e as [now uuid type data|now|now additionalTime|now| |now pin|pin|now|now i].
  - destruct m as [[s|] [due|] a la timers st]; session_eval; session_cases;
      intros _; timer_bounded.
  - destruct m as [[s|] [due|] a la timers st]; session_eval; session_cases;
      intro Hinv; try exact Hinv; try destruct Hinv as (_ & Hact & Hend);
      timer_bounded.
  - destruct m as [[s|] [due|] a la timers st]; session_eval; session_cases;
      intro Hinv; try exact Hinv; try destruct Hinv as (_ & Hact & Hend);
      timer_bounded.
  - destruct m as [[s|] [due|] a la timers st]; session_eval; reflexivity.
  - destruct m as [[s|] [due|] a la timers st]; session_eval; reflexivity.
  - unfold Session.handle, Session.validatePin.
    destruct (Z.leb _ _); [exact (fun Hinv => Hinv)|].
    destruct (Storage.getPin (Session.storage m)) as [storedPin st1].
    destruct (strict_equals pin storedPin); exact (fun Hinv => Hinv).
  - exact (fun Hinv => Hinv).
  - destruct m as [[s|] [due|] a la timers st]; session_eval; session_cases;
      intro Hinv; try reflexivity; exact Hinv.
  - unfold Session.handle, Session.attemptTimerFires.
    destruct (nth_error _ _); [|exact (fun Hinv => Hinv)].
    destruct (Z.leb _ _); exact (fun Hinv => Hinv).
Qed.

Lemma handleAll_timer_follows_session (events : list Session.Event) m :
  Session.timer_follows_session m ->
  Session.timer_follows_session (Session.handleAll m events).
Proof.
  revert m. induction events as [|e events IH]; intros m H; [exact H|].
  apply IH. now apply handle_timer_follows_session.
Qed.

Lemma handle_timer_due_at_expiry m (e : Session.Event) :
  Session.shortExtension e ->
  Session.timer_due_at_expiry m ->
  Session.timer_due_at_expiry (Session.handle m e).
Proof.
  assert (HT : (0 < CONFIG.SECURITY.SESSION_TIMEOUT < 2147483648)%Z)
    by (split; reflexivity).
  destruct e as [now uuid type data|now|now additionalTime|now| |now pin|pin|now|now i].
  - destruct m as [[s|] [due|] a la timers st]; session_eval; session_cases;
      intros _ _; timer_exact.
  - destruct m as [[s|] [due|] a la timers st]; session_eval; session_cases;
      intros _ Hinv; try exact Hinv; timer_exact.
  - destruct m as [[s|] [due|] a la timers st]; session_eval; session_cases;
      intros Hshort Hinv; try exact Hinv; timer_exact.
  - destruct m as [[s|] [due|] a la timers st]; session_eval; reflexivity.
  - destruct m as [[s|] [due|] a la timers st]; session_eval; reflexivity.
  - intros _. unfold Session.handle, Session.validatePin.
    destruct (Z.leb _ _); [exact (fun Hinv => Hinv)|].
    destruct (Storage.getPin (Session.storage m)) as [storedPin st1].
    destruct (strict_equals pin storedPin); exact (fun Hinv => Hinv).
  - exact (fun _ Hinv => Hinv).
  - destruct m as [[s|] [due|] a la timers st]; session_eval; session_cases;
      intros _ Hinv; try reflexivity; exact Hinv.
  - intros _. unfold Session.handle, Session.attemptTimerFires.
    destruct (nth_error _ _); [|exact (fun Hinv => Hinv)].
    destruct (Z.leb _ _); exact (fun Hinv => Hinv).
Qed.

Lemma handleAll_timer_due_at_expiry (events : list Session.Event) m :
  Forall Session.shortExtension events ->
  Session.timer_due_at_expiry m ->
  Session.timer_due_at_expiry (Session.handleAll m events).
Proof.
  revert m. induction events as [|e events IH]; intros m Hall H; [exact H|].
  inversion Hall as [|e0 l He Hrest]; subst.
  apply IH; [exact Hrest|]. now apply handle_timer_due_at_expiry.
Qed.

Lemma getPin_value_same_storage st st' :
  Storage.same_storage st st' ->
  fst (Storage.getPin st') = fst (Storage.getPin st).
Proof. apply getItem_value_same_storage. Qed.

Lemma getPin_same_storage st : Storage.same_storage st (snd (Storage.getPin st)).
Proof. apply getItem_same_storage. Qed.

(** A PIN that is not the stored one, below the maximum of attempts. *)
Lemma validatePin_wrong (now : Z) (pin : JSON) m :
  (Session.loginAttempts m < CONFIG.SECURITY.MAX_LOGIN_ATTEMPTS)%Z ->
  strict_equals pin (fst (Storage.getPin (Session.storage m))) = false ->
  fst (Session.validatePin now pin m) = false /\
  Session.loginAttempts (snd (Session.validatePin now pin m))
  = (Session.loginAttempts m + 1)%Z /\
  Session.attemptTimers (snd (Session.validatePin now pin m))
  = Session.attemptTimers m ++ [(now + 60000)%Z] /\
  Storage.same_storage (Session.storage m)
    (Session.storage (snd (Session.validatePin now pin m))).
Proof.
  intros Hlt Hwrong. unfold Session.validatePin.
  destruct (Z.leb_spec CONFIG.SECURITY.MAX_LOGIN_ATTEMPTS (Session.loginAttempts m));
    [lia|].
  pose proof (getPin_same_storage (Session.storage m)) as Hs.
  destruct (Storage.getPin (Session.storage m)) as [storedPin st1].
  simpl in Hwrong, Hs. rewrite Hwrong. simpl. auto.
Qed.

(** The stored PIN, below the maximum of attempts. *)
Lemma validatePin_right (now : Z) (pin : JSON) m :
  (Session.loginAttempts m < CONFIG.SECURITY.MAX_LOGIN_ATTEMPTS)%Z ->
  strict_equals pin (fst (Storage.getPin (Session.storage m))) = true ->
  fst (Session.validatePin now pin m) = true /\
  Session.loginAttempts (snd (Session.validatePin now pin m)) = 0%Z.
Proof.
  intros Hlt Hright. unfold Session.validatePin.
  destruct (Z.leb_spec CONFIG.SECURITY.MAX_LOGIN_ATTEMPTS (Session.loginAttempts m));
    [lia|].
  destruct (Storage.getPin (Session.storage m)) as [storedPin st1].
  simpl in Hright. rewrite Hright. simpl. auto.
Qed.

Lemma validatePin_locked (now : Z) (pin : JSON) m :
  (CONFIG.SECURITY.MAX_LOGIN_ATTEMPTS <= Session.loginAttempts m)%Z ->
  Session.validatePin now pin m = (false, m).
Proof.
  intro H. unfold Session.validatePin.
  destruct (Z.leb_spec CONFIG.SECURITY.MAX_LOGIN_ATTEMPTS (Session.loginAttempts m));
    [reflexivity|lia].
Qed.

Lemma setItem_isAvailable (key : string) (v : JSON) st :
  Storage.isAvailable (snd (Storage.setItem key v st)) = Storage.isAvailable st.
Proof.
  unfold Storage.setItem.
  destruct (Storage.isAvailable st) eqn:E; simpl; [|exact E].
  destruct (Storage.isStorageFull st); simpl; [exact E|].
  destruct (setItem_throws B _ _ _); simpl; exact E.
Qed.

(** After [clearSession] of the store, no session is stored. *)
Lemma clearSession_removes st :
  Storage.isAvailable st = true ->
  Storage.ls_getItem CONFIG.STORAGE.KEYS.SESSION
    (Storage.localStorage (snd (Storage.clearSession st))) = None /\
  Storage.isAvailable (snd (Storage.clearSession st)) = true.
Proof.
  intro HA. unfold Storage.clearSession.
  assert (E : forall key st0, Storage.isAvailable st0 = true ->
            Storage.removeItem key st0
            = (true, Storage.set_localStorage
                       (Storage.ls_removeItem key (Storage.localStorage st0)) st0)).
  { intros key st0 H0. unfold Storage.removeItem. now rewrite H0. }
  rewrite (E _ st HA). rewrite E by exact HA.
  cbn [snd Storage.set_localStorage Storage.localStorage Storage.isAvailable].
  split; [|exact HA].
  rewrite ls_get_remove_other by reflexivity.
  apply ls_get_remove_same.
Qed.

End SessionFacts.
(** X24. Whatever happens to a session manager, in any order, the failed
    attempts it counts stay between 0 and 3, and each of them still has its
    one-minute timer pending; so once no such timer is pending, no failed
    attempt is counted and [validatePin] is not locked. *)
Theorem login_attempts_stay_in_check
    (B : Browser) (now : Z) (st : Storage.Store B) (events : list Session.Event) :
  Session.attempts_in_check (Session.handleAll (Session.constructor now st) events) /\
  (Session.attemptTimers (Session.handleAll (Session.constructor now st) events) = [] ->
   Session.loginAttempts (Session.handleAll (Session.constructor now st) events) = 0%Z).
Proof.
  assert (H : Session.attempts_in_check
                (Session.handleAll (Session.constructor now st) events)).
  { apply handleAll_attempts_in_check.
    unfold Session.attempts_in_check, CONFIG.SECURITY.MAX_LOGIN_ATTEMPTS.
    simpl. lia. }
  split; [exact H|].
  destruct H as [Hrange Hpending]. intro E. rewrite E in Hpending.
  simpl in Hpending. lia.
Qed.

(** X25. Whatever happens to a session manager, in any order, its session
    timer is pending exactly while it holds a session, and is due no later
    than that session expires; the session it holds is active.  When every
    extension was by less than 2^31 ms, a delay [setTimeout] takes as it
    is, the timer is due at the very time the session expires. *)
Theorem session_timer_follows_session
    (B : Browser) (now : Z) (st : Storage.Store B) (events : list Session.Event) :
  Session.timer_follows_session (Session.handleAll (Session.constructor now st) events) /\
  (Forall Session.shortExtension events ->
   Session.timer_due_at_expiry (Session.handleAll (Session.constructor now st) events)).
Proof.
  split.
  - apply handleAll_timer_follows_session. reflexivity.
  - intro Hshort. apply handleAll_timer_due_at_expiry; [exact Hshort|reflexivity].
Qed.

Lemma session_timer_follows_session_witness :
  Session.timer_due_at_expiry
    (Session.handleAll (Session.constructor 1000 emptyStore) extendedBriefly) /\
  Session.timeoutId
    (Session.handleAll (Session.constructor 1000 emptyStore) extendedBriefly)
  = Some 7000%Z.
Proof.
  split; [|reflexivity].
  apply (proj2 (session_timer_follows_session plainBrowser 1000 emptyStore
                  extendedBriefly)).
  repeat constructor.
Defined.

(** X26. After three PINs in a row that are not the stored one,
    [validatePin] refuses the stored PIN too, and changes nothing; as soon
    as the timer of one of the failed attempts has run, it accepts the
    stored PIN again. *)
Theorem three_failures_lock_out
    (B : Browser) (m locked : Session.Manager B)
    (now1 now2 now3 now : Z) (w1 w2 w3 pin : JSON) :
  Session.loginAttempts m = 0%Z ->
  strict_equals w1 (fst (Storage.getPin (Session.storage m))) = false ->
  strict_equals w2 (fst (Storage.getPin (Session.storage m))) = false ->
  strict_equals w3 (fst (Storage.getPin (Session.storage m))) = false ->
  strict_equals pin (fst (Storage.getPin (Session.storage m))) = true ->
  locked = Session.handleAll m [ Session.ValidatePin now1 w1;
                                 Session.ValidatePin now2 w2;
                                 Session.ValidatePin now3 w3 ] ->
  Session.validatePin now pin locked = (false, locked) /\
  forall (later : Z) (i : nat) (due : Z),
    nth_error (Session.attemptTimers locked) i = Some due ->
    (due <= later)%Z ->
    fst (Session.validatePin now pin (Session.attemptTimerFires later i locked)) = true.
Proof.
  intros H0 H1 H2 H3 Hpin ->.
  unfold Session.handleAll. cbn [fold_left Session.handle].
  unfold CONFIG.SECURITY.MAX_LOGIN_ATTEMPTS in *.
  destruct (validatePin_wrong now1 w1 m) as (_ & A1 & _ & S1);
    [unfold CONFIG.SECURITY.MAX_LOGIN_ATTEMPTS; lia|exact H1|].
  set (m1 := snd (Session.validatePin now1 w1 m)) in *.
  rewrite <- (getPin_value_same_storage _ _ S1) in H2, H3, Hpin.
  destruct (validatePin_wrong now2 w2 m1) as (_ & A2 & _ & S2);
    [unfold CONFIG.SECURITY.MAX_LOGIN_ATTEMPTS; lia|exact H2|].
  set (m2 := snd (Session.validatePin now2 w2 m1)) in *.
  rewrite <- (getPin_value_same_storage _ _ S2) in H3, Hpin.
  destruct (validatePin_wrong now3 w3 m2) as (_ & A3 & _ & S3);
    [unfold CONFIG.SECURITY.MAX_LOGIN_ATTEMPTS; lia|exact H3|].
  set (m3 := snd (Session.validatePin now3 w3 m2)) in *.
  rewrite <- (getPin_value_same_storage _ _ S3) in Hpin.
  split.
  - apply validatePin_locked. unfold CONFIG.SECURITY.MAX_LOGIN_ATTEMPTS. lia.
  - intros later i due Hnth Hdue.
    apply validatePin_right.
    + unfold Session.attemptTimerFires. rewrite Hnth.
      destruct (Z.leb_spec due later); [|lia].
      cbn [Session.loginAttempts Session.set_attemptTimers Session.set_loginAttempts].
      unfold CONFIG.SECURITY.MAX_LOGIN_ATTEMPTS. lia.
    + unfold Session.attemptTimerFires. rewrite Hnth.
      destruct (Z.leb_spec due later); [|lia].
      exact Hpin.
Qed.

Lemma three_failures_lock_out_witness :
  fst (Session.validatePin 5000 (JString (js "1234"))
         (Session.handleAll freshManager
            [ Session.ValidatePin 2000 (JString (js "0000"));
              Session.ValidatePin 3000 (JString (js "1111"));
              Session.ValidatePin 4000 (JString (js "2222")) ]))
  = false.
Proof.
  exact (f_equal fst
           (proj1 (three_failures_lock_out plainBrowser freshManager _
                     2000 3000 4000 5000
                     (JString (js "0000")) (JString (js "1111")) (JString (js "2222"))
                     (JString (js "1234"))
                     eq_refl eq_refl eq_refl eq_refl eq_refl eq_refl))).
Defined.

Lemma isValidSession_fields (t : Z) (s : Session.SessionObject) :
  Storage.isEmpty (Session.id s) = false ->
  Storage.isEmpty (Session.type s) = false ->
  (Session.createdAt s <> 0)%Z ->
  (Session.expiresAt s <> 0)%Z ->
  Session.isActive s = true ->
  Session.isValidSession t s = (t <=? Session.expiresAt s)%Z.
Proof.
  intros Hid Htype Hc He Ha. unfold Session.isValidSession.
  rewrite Hid, Htype, Ha.
  destruct (Z.eqb_spec (Session.createdAt s) 0); [contradiction|].
  destruct (Z.eqb_spec (Session.expiresAt s) 0); [contradiction|].
  simpl.
  destruct (Z.ltb_spec (Session.expiresAt s) t), (Z.leb_spec t (Session.expiresAt s));
    try reflexivity; lia.
Qed.

(** X27. A session created at a time [now] (after the epoch, with an
    identifier and a type that are not empty) is the current session at
    every time up to [now] plus the session timeout of 30 minutes,
    included, and at no later time, as long as nothing else happens. *)
Theorem created_session_lasts_for_the_timeout
    (B : Browser) (m : Session.Manager B) (now t : Z)
    (uuid type : JsString) (data : list (string * JSON)) :
  (0 < now)%Z ->
  Storage.isEmpty uuid = false ->
  Storage.isEmpty type = false ->
  Session.isAuthenticated t (snd (Session.createSession now uuid type data m))
  = (t <=? now + CONFIG.SECURITY.SESSION_TIMEOUT)%Z /\
  Session.getCurrentSession now (snd (Session.createSession now uuid type data m))
  = Some (fst (Session.createSession now uuid type data m)).
Proof.
  intros Hnow Hid Htype.
  assert (HT : (0 < CONFIG.SECURITY.SESSION_TIMEOUT)%Z) by reflexivity.
  destruct m as [c tm a la timers st]. session_eval.
  destruct (Z.ltb_spec 0 (now + CONFIG.SECURITY.SESSION_TIMEOUT - now)); [|lia].
  cbv beta iota.
  unfold Session.isAuthenticated, Session.getCurrentSession.
  cbn [Session.currentSession].
  rewrite !isValidSession_fields; cbn [Session.id Session.type Session.createdAt
    Session.expiresAt Session.isActive]; try assumption; try reflexivity; try lia.
  destruct (Z.leb_spec t (now + CONFIG.SECURITY.SESSION_TIMEOUT));
    destruct (Z.leb_spec now (now + CONFIG.SECURITY.SESSION_TIMEOUT));
    try lia; split; reflexivity.
Qed.

Lemma created_session_lasts_for_the_timeout_witness :
  Session.isAuthenticated 1801000
    (snd (Session.createSession 1000 (js "id-1") (js "qr") [] freshManager)) = true /\
  Session.isAuthenticated 1801001
    (snd (Session.createSession 1000 (js "id-1") (js "qr") [] freshManager)) = false.
Proof.
  split.
  - exact (proj1 (created_session_lasts_for_the_timeout plainBrowser freshManager
                    1000 1801000 (js "id-1") (js "qr") [] eq_refl eq_refl eq_refl)).
  - exact (proj1 (created_session_lasts_for_the_timeout plainBrowser freshManager
                    1000 1801001 (js "id-1") (js "qr") [] eq_refl eq_refl eq_refl)).
Defined.

(** X28. [updateActivity] does not look at the expiry of the session it
    holds: after it, a session that had all it takes but the time (an
    identifier, a type, a creation time, not ended) is the current session
    up to 30 minutes after the activity, even when it had expired before
    the activity and its timer had not run yet. *)
Theorem activity_renews_the_session
    (B : Browser) (m : Session.Manager B) (s : Session.SessionObject)
    (now t : Z) :
  Session.currentSession m = Some s ->
  Storage.isEmpty (Session.id s) = false ->
  Storage.isEmpty (Session.type s) = false ->
  (Session.createdAt s <> 0)%Z ->
  Session.isActive s = true ->
  (0 < now)%Z ->
  Session.isAuthenticated t (Session.updateActivity now m)
  = (t <=? now + CONFIG.SECURITY.SESSION_TIMEOUT)%Z.
Proof.
  intros Hs Hid Htype Hc Ha Hnow.
  assert (HT : (0 < CONFIG.SECURITY.SESSION_TIMEOUT)%Z) by reflexivity.
  destruct m as [c tm a la timers st]. simpl in Hs. subst c. session_eval.
  destruct (Z.ltb_spec 0 (now + CONFIG.SECURITY.SESSION_TIMEOUT - now)); [|lia].
  cbv beta iota.
  unfold Session.isAuthenticated, Session.getCurrentSession.
  cbn [Session.currentSession].
  rewrite isValidSession_fields; cbn [Session.id Session.type Session.createdAt
    Session.expiresAt Session.isActive]; try assumption; try lia.
  destruct (Z.leb_spec t (now + CONFIG.SECURITY.SESSION_TIMEOUT)); reflexivity.
Qed.

(** The session of [expiredManager] expired at 1801000; at 1900000 its
    timer has not run, and there is activity. *)
Lemma activity_renews_the_session_witness :
  Session.isAuthenticated 1900000 expiredManager = false /\
  Session.isAuthenticated 1900001 (Session.updateActivity 1900000 expiredManager) = true.
Proof.
  split; [reflexivity|].
  exact (activity_renews_the_session plainBrowser expiredManager
           (fst (Session.createSession 1000 (js "id-1") (js "qr") [] freshManager))
           1900000 1900001 eq_refl eq_refl eq_refl ltac:(discriminate) eq_refl eq_refl).
Defined.

(** X29. After [endSession], with storage available, the manager holds no
    session and no session timer, nobody is authenticated at any time, and
    no session is stored: the ended session that [endSession] saves is
    removed by it at once. *)
Theorem endSession_leaves_no_session
    (B : Browser) (m : Session.Manager B) (now t : Z) :
  Storage.isAvailable (Session.storage m) = true ->
  Session.currentSession (Session.endSession now m) = None /\
  Session.timeoutId (Session.endSession now m) = None /\
  Session.isAuthenticated t (Session.endSession now m) = false /\
  fst (Storage.getSession (Session.storage (Session.endSession now m))) = JNull.
Proof.
  intro HA.
  assert (Hstore : exists st, Storage.isAvailable st = true /\
            Session.endSession now m
            = Session.mkManager None None (Session.loginAttempts m)
                (Session.this_lastActivity m) (Session.attemptTimers m)
                (snd (Storage.clearSession st))).
  { destruct m as [[s|] tm a la timers st]; simpl in HA.
    - eexists. split; [|session_eval; reflexivity].
      unfold Storage.setSession.
      change (Storage.isAvailable (snd (Storage.setItem CONFIG.STORAGE.KEYS.SESSION
                (Session.toJSON
                   (Session.mkSession (Session.id s) (Session.type s)
                      (Session.createdAt s) (Session.lastActivity s)
                      (Session.expiresAt s) (Session.data s) false (Some now))) st)) = true).
      now rewrite setItem_isAvailable.
    - exists st. split; [exact HA|session_eval; reflexivity]. }
  destruct Hstore as (st & Hst & ->).
  destruct (clearSession_removes st Hst) as [Hnone Havail].
  repeat split.
  unfold Storage.getSession, Storage.getItem. cbn [Session.storage].
  rewrite Havail, Hnone. reflexivity.
Qed.

Lemma endSession_leaves_no_session_witness :
  fst (Storage.getSession
         (Session.storage
            (Session.endSession 2000
               (snd (Session.createSession 1000 (js "id-1") (js "qr") [] freshManager)))))
  = JNull.
Proof.
  apply (endSession_leaves_no_session plainBrowser
           (snd (Session.createSession 1000 (js "id-1") (js "qr") [] freshManager))
           2000 2000 eq_refl).
Defined.

(** * A store that is nearly full *)

Lemma isStorageFull_same_storage {B : Browser} (st st' : Storage.Store B) :
  Storage.same_storage st st' ->
  Storage.isStorageFull st' = Storage.isStorageFull st.
Proof. intros [HA HL]. unfold Storage.isStorageFull. now rewrite HA, HL. Qed.

Lemma full_storage_refuses_setItem {B : Browser}
    (key : string) (v : JSON) (st : Storage.Store B) :
  Storage.isStorageFull st = true -> Storage.setItem key v st = (false, st).
Proof.
  intro H. unfold Storage.setItem. rewrite H.
  destruct (Storage.isAvailable st); reflexivity.
Qed.

Lemma full_storage_refuses_setPhotos {B : Browser}
    (photos : JSON) (st : Storage.Store B) :
  Storage.isStorageFull st = true -> Storage.setPhotos photos st = (false, st).
Proof.
  intro H. unfold Storage.setPhotos.
  destruct photos; try reflexivity. now apply full_storage_refuses_setItem.
Qed.

(** X30. Once the size of the stored items is over the threshold of
    [isStorageFull] (or storage is unavailable), [addPhoto] saves nothing,
    and [removePhoto] removes nothing either: it reports a failure and the
    stored photos are as they were, since it writes the remaining photos
    through the same [setItem]. *)
Theorem full_storage_refuses_to_remove_photos
    (B : Browser) (photo photoId : JSON) (st : Storage.Store B)
    (result : bool * Storage.Store B) :
  Storage.isStorageFull st = true ->
  Storage.removePhoto photoId st = Some result ->
  fst result = false /\
  Storage.localStorage (snd result) = Storage.localStorage st /\
  fst (Storage.getPhotos (snd result)) = fst (Storage.getPhotos st) /\
  fst (Storage.addPhoto photo st) = false.
Proof.
  intros Hfull H.
  pose proof (getPhotos_same_storage st) as Hs.
  unfold Storage.removePhoto in H. unfold Storage.addPhoto.
  destruct (Storage.getPhotos st) as [photos st1] eqn:Hget.
  cbn [snd] in Hs.
  assert (Hfull1 : Storage.isStorageFull st1 = true).
  { now rewrite (isStorageFull_same_storage st st1 Hs). }
  rewrite full_storage_refuses_setPhotos by exact Hfull1.
  destruct (Storage.filter_other_ids photoId photos); [|discriminate].
  rewrite full_storage_refuses_setPhotos in H by exact Hfull1.
  injection H as <-. cbn [fst snd].
  repeat split.
  - apply Hs.
  - rewrite (getPhotos_value_same_storage st st1 Hs), Hget. reflexivity.
Qed.

Lemma full_storage_refuses_to_remove_photos_witness :
  fst (Storage.getPhotos (snd (Storage.setPhotos (JArray []) fullStore)))
  = [photoWithId "a"] /\
  Storage.removePhoto (JString (js "a")) fullStore
  = Some (Storage.setPhotos (JArray []) fullStore).
Proof.
  split; [|reflexivity].
  apply (full_storage_refuses_to_remove_photos bulkyBrowser (photoWithId "b")
           (JString (js "a")) fullStore (Storage.setPhotos (JArray []) fullStore)
           eq_refl eq_refl).
Defined.
